(** * WebSocketDetector: a shallow embedding of [f.py]

    The publisher streams detection coordinates over a reconnecting
    WebSocket.  The embedding follows the Python source method by method:

    - Python numbers ([int] as [Z], [float] as IEEE-754 binary64 through
      the [SpecFloat] operations), with the exceptions the arithmetic can
      raise;
    - the JSON documents the program builds, and [json.dumps] on them;
    - [StreamIDCounter], both called sequentially and interleaved at
      statement granularity;
    - the network-facing methods ([_connect_websocket], [_send_heartbeat],
      [_send_message], the two thread loops, [__del__]) in a state monad
      over the detector's fields, a scripted environment (what the
      WebSocket library and the clock answer) and an event log;
    - [process_frame] as a pure function on the detector's queue.

    Left out: the [DEBUG] prints, the starting of the two threads in
    [__init__], and the [task_done] bookkeeping of the queue.  Each thread
    is modelled on its own, running sequentially against the environment;
    the sender thread and the supervisory thread are also run together,
    interleaved statement by statement under the lock; [StreamIDCounter]
    is also run interleaved statement by statement, and the queue with
    producer and consumer interleaved operation by operation. *)

Set Warnings "-register-all".
From Stdlib Require Import QArith Qminmax.
From Stdlib Require Import ZArith List Bool String Ascii Lia Arith.
From Stdlib Require Import DecimalString.
From Stdlib Require DecimalPos DecimalZ.
From Stdlib Require Import Floats.SpecFloat.
Import ListNotations.

Local Open Scope Z_scope.

(* ================================================================== *)
(** * Part I: definitions                                              *)
(* ================================================================== *)

(** ** Module constants (lines 11-14) *)

Definition PROCESSING_WIDTH : Z := 640.
Definition PROCESSING_HEIGHT : Z := 640.
Definition GRID_SIZE : Z := 300.

(** ** Python exceptions and results *)

Inductive exn : Type :=
| AttributeError
| OverflowError
| ValueError
| ZeroDivisionError.

Inductive result (A : Type) : Type :=
| Ok (a : A)
| Raise (e : exn).

Arguments Ok {A} a.
Arguments Raise {A} e.

Definition rbind {A B : Type} (r : result A) (k : A -> result B) : result B :=
  match r with
  | Ok a => k a
  | Raise e => Raise e
  end.

Declare Scope result_scope.
Delimit Scope result_scope with result.
Notation "x <- c ;; k" := (rbind c (fun x => k))
  (at level 61, c at next level, right associativity) : result_scope.

(** ** Python numbers

    A Python [float] is an IEEE-754 binary64 value: [spec_float] with
    precision 53 and maximal exponent 1024, rounding to nearest even. *)

Definition prec : Z := 53.
Definition emax : Z := 1024.

Inductive pynum : Type :=
| PyInt (z : Z)
| PyFloat (f : spec_float).

(** An [int] is a number: integer literals and variables are read as
    Python numbers where one is expected. *)
Coercion PyInt : Z >-> pynum.

(** [float(z)] for an [int]: the nearest double; [OverflowError] when the
    integer is too large to convert. *)
Definition float_of_int (z : Z) : result spec_float :=
  match binary_normalize prec emax z 0 false with
  | S754_infinity _ => Raise OverflowError
  | f => Ok f
  end.

(** [a / b] on two [int]s: the correctly rounded quotient;
    [ZeroDivisionError] for [b = 0], [OverflowError] when the quotient is
    too large for a double. *)
Definition int_truediv (a b : Z) : result spec_float :=
  match a, b with
  | _, Z0 => Raise ZeroDivisionError
  | Z0, _ => Ok (S754_zero (Z.ltb b 0))
  | _, _ =>
      let '(mz, ez, lz) :=
        SFdiv_core_binary prec emax (Z.abs a) 0 (Z.abs b) 0 in
      match binary_round_aux prec emax
              (xorb (Z.ltb a 0) (Z.ltb b 0)) mz ez lz with
      | S754_infinity _ => Raise OverflowError
      | f => Ok f
      end
  end.

Definition is_float_zero (f : spec_float) : bool :=
  match f with
  | S754_zero _ => true
  | _ => false
  end.

(** [float / float]: only a zero divisor raises; overflow gives an
    infinity. *)
Definition float_truediv (f g : spec_float) : result spec_float :=
  if is_float_zero g then Raise ZeroDivisionError
  else Ok (SFdiv prec emax f g).

Definition py_truediv (a b : pynum) : result pynum :=
  match a, b with
  | PyInt x, PyInt y =>
      rbind (int_truediv x y) (fun q => Ok (PyFloat q))
  | PyInt x, PyFloat g =>
      rbind (float_of_int x) (fun f =>
      rbind (float_truediv f g) (fun q => Ok (PyFloat q)))
  | PyFloat f, PyInt y =>
      rbind (float_of_int y) (fun g =>
      rbind (float_truediv f g) (fun q => Ok (PyFloat q)))
  | PyFloat f, PyFloat g =>
      rbind (float_truediv f g) (fun q => Ok (PyFloat q))
  end.

Definition py_add (a b : pynum) : result pynum :=
  match a, b with
  | PyInt x, PyInt y => Ok (PyInt (x + y))
  | PyInt x, PyFloat g =>
      rbind (float_of_int x) (fun f => Ok (PyFloat (SFadd prec emax f g)))
  | PyFloat f, PyInt y =>
      rbind (float_of_int y) (fun g => Ok (PyFloat (SFadd prec emax f g)))
  | PyFloat f, PyFloat g => Ok (PyFloat (SFadd prec emax f g))
  end.

Definition py_mul (a b : pynum) : result pynum :=
  match a, b with
  | PyInt x, PyInt y => Ok (PyInt (x * y))
  | PyInt x, PyFloat g =>
      rbind (float_of_int x) (fun f => Ok (PyFloat (SFmul prec emax f g)))
  | PyFloat f, PyInt y =>
      rbind (float_of_int y) (fun g => Ok (PyFloat (SFmul prec emax f g)))
  | PyFloat f, PyFloat g => Ok (PyFloat (SFmul prec emax f g))
  end.

(** Python compares an [int] with a [float] by exact value.  [None] is
    the unordered case (NaN). *)
Definition float_compare_int (f : spec_float) (z : Z) : option comparison :=
  match f with
  | S754_nan => None
  | S754_infinity s => Some (if s then Lt else Gt)
  | S754_zero _ => Some (0 ?= z)
  | S754_finite s m e =>
      let v := cond_Zopp s (Zpos m) in
      Some (match e with
            | Zneg p => v ?= z * 2 ^ Zpos p
            | _ => v * 2 ^ e ?= z
            end)
  end.

Definition py_compare (a b : pynum) : option comparison :=
  match a, b with
  | PyInt x, PyInt y => Some (x ?= y)
  | PyFloat f, PyInt y => float_compare_int f y
  | PyInt x, PyFloat g => option_map CompOpp (float_compare_int g x)
  | PyFloat f, PyFloat g => SFcompare f g
  end.

Definition py_lt (a b : pynum) : bool :=
  match py_compare a b with
  | Some Lt => true
  | _ => false
  end.

Definition py_gt (a b : pynum) : bool := py_lt b a.

(** The builtins [max(a, b)] and [min(a, b)]: the first argument is kept
    unless the second is strictly greater (resp. smaller). *)
Definition py_max (a b : pynum) : pynum := if py_gt b a then b else a.
Definition py_min (a b : pynum) : pynum := if py_lt b a then b else a.

(** [int(v)]: truncation towards zero; [ValueError] on NaN and
    [OverflowError] on an infinity. *)
Definition float_to_int (f : spec_float) : result Z :=
  match f with
  | S754_nan => Raise ValueError
  | S754_infinity _ => Raise OverflowError
  | S754_zero _ => Ok 0
  | S754_finite s m e => Ok (cond_Zopp s (Z.shiftl (Zpos m) e))
  end.

Definition py_int (v : pynum) : result Z :=
  match v with
  | PyInt z => Ok z
  | PyFloat f => float_to_int f
  end.

(** ** JSON documents and [json.dumps]

    A Python [dict] keeps its insertion order, which [json.dumps] follows,
    so a dictionary is an association list.  Every string this program
    serialises is a plain ASCII word, so [dumps] only has to wrap it in
    quotes. *)

Inductive json : Type :=
| JInt (z : Z)
| JStr (s : string)
| JList (items : list json)
| JDict (fields : list (string * json)).

Definition dquote : string := String (ascii_of_nat 34) EmptyString.

Definition dumps_int (z : Z) : string := NilZero.string_of_int (Z.to_int z).

Definition dumps_str (s : string) : string := (dquote ++ s ++ dquote)%string.

Fixpoint join (sep : string) (parts : list string) : string :=
  match parts with
  | [] => EmptyString
  | [p] => p
  | p :: rest => (p ++ sep ++ join sep rest)%string
  end.

Fixpoint dumps (j : json) : string :=
  match j with
  | JInt z => dumps_int z
  | JStr s => dumps_str s
  | JList items =>
      ("[" ++ join ", " (map dumps items) ++ "]")%string
  | JDict fields =>
      ("{" ++ join ", "
              (map (fun kv => (dumps_str (fst kv) ++ ": " ++ dumps (snd kv))%string)
                   fields)
           ++ "}")%string
  end.

(** The two documents of the program (lines 86 and 155-158). *)
Definition heartbeat : json := JDict [("event"%string, JStr "heartbeat")].

Definition detection (p : Z * Z) : json :=
  JDict [("x"%string, JInt (fst p)); ("y"%string, JInt (snd p))].

Definition detection_batch (camera : Z) (points : list (Z * Z)) : json :=
  JDict [("camera_id"%string, JInt camera);
         ("detections"%string, JList (map detection points))].

(** ** [StreamIDCounter] (lines 17-29)

    The class holds [_instance] (the singleton, created on first use) and
    [_counter = 0].  Objects have an identity: [instances] lists every
    object [__new__] has created, each with its own [_counter] attribute
    once it has one, and [_instance] names one of them.
    [self._counter += 1] reads the attribute through the instance,
    falling back to the class attribute while the instance has none of
    its own, and stores the sum on the instance. *)

Definition class_counter : Z := 0.

Record StreamIDCounter : Type := {
  _instance : option nat;
  instances : list (option Z)
}.

Definition StreamIDCounter_initial : StreamIDCounter :=
  {| _instance := None; instances := [] |}.

Fixpoint update_nth {A : Type} (i : nat) (f : A -> A) (l : list A) : list A :=
  match l, i with
  | [], _ => []
  | a :: rest, O => f a :: rest
  | a :: rest, S i' => a :: update_nth i' f rest
  end.

(** [cls._instance = super().__new__(cls)] (line 23). *)
Definition new_object (c : StreamIDCounter) : StreamIDCounter :=
  {| _instance := Some (List.length (instances c));
     instances := instances c ++ [None] |}.

(** [StreamIDCounter.__new__]: create the singleton unless it exists, and
    return it. *)
Definition __new__ (c : StreamIDCounter) : nat * StreamIDCounter :=
  match _instance c with
  | None => (List.length (instances c), new_object c)
  | Some self => (self, c)
  end.

(** Reading [self._counter]. *)
Definition read_counter (self : nat) (c : StreamIDCounter) : Z :=
  match nth_error (instances c) self with
  | Some (Some v) => v
  | _ => class_counter
  end.

(** Storing [self._counter = v]. *)
Definition write_counter (self : nat) (v : Z) (c : StreamIDCounter) : StreamIDCounter :=
  {| _instance := _instance c;
     instances := update_nth self (fun _ => Some v) (instances c) |}.

Definition get_next_id (self : nat) (c : StreamIDCounter) : Z * StreamIDCounter :=
  let current_id := read_counter self c in
  let c := write_counter self (read_counter self c + 1) c in
  (current_id, c).

(** [StreamIDCounter().get_next_id()], as [__init__] calls it (line 33). *)
Definition allocate_stream_id (c : StreamIDCounter) : Z * StreamIDCounter :=
  let '(self, c) := __new__ c in
  get_next_id self c.

(** *** The same code, interleaved

    Python threads can be switched between statements, so two
    constructors running in different threads interleave at statement
    granularity.  A thread inside [StreamIDCounter().get_next_id()] is at
    one of these places. *)

Inductive alloc_pc : Type :=
| AtNew                                   (* line 22: if cls._instance is None *)
| AtCreate                                (* line 23: cls._instance = ...      *)
| AtNewReturn                             (* line 24: return cls._instance     *)
| AtRead (self : nat)                     (* line 27: current_id = self._counter *)
| AtIncrement (self : nat) (current_id : Z) (* line 28: self._counter += 1     *)
| AtReturned (current_id : Z).            (* line 29: returned current_id      *)

Definition alloc_step (c : StreamIDCounter) (pc : alloc_pc)
  : StreamIDCounter * alloc_pc :=
  match pc with
  | AtNew =>
      (c, match _instance c with None => AtCreate | Some _ => AtNewReturn end)
  | AtCreate => (new_object c, AtNewReturn)
  | AtNewReturn =>
      (c, match _instance c with Some self => AtRead self | None => AtNewReturn end)
  | AtRead self => (c, AtIncrement self (read_counter self c))
  | AtIncrement self cur =>
      (write_counter self (read_counter self c + 1) c, AtReturned cur)
  | AtReturned cur => (c, AtReturned cur)
  end.

(** Two threads; a schedule names the thread that takes the next step
    ([false] the first thread, [true] the second). *)
Record two_threads : Type := {
  shared : StreamIDCounter;
  first_pc : alloc_pc;
  second_pc : alloc_pc
}.

Definition two_threads_initial : two_threads :=
  {| shared := StreamIDCounter_initial; first_pc := AtNew; second_pc := AtNew |}.

Definition schedule_step (t : two_threads) (who : bool) : two_threads :=
  if who then
    let '(c, pc) := alloc_step (shared t) (second_pc t) in
    {| shared := c; first_pc := first_pc t; second_pc := pc |}
  else
    let '(c, pc) := alloc_step (shared t) (first_pc t) in
    {| shared := c; first_pc := pc; second_pc := second_pc t |}.

Definition run_schedule (schedule : list bool) : two_threads :=
  fold_left schedule_step schedule two_threads_initial.

Definition returned_id (pc : alloc_pc) : option Z :=
  match pc with
  | AtReturned cur => Some cur
  | _ => None
  end.

(** The allocator after [k] sequential allocations. *)
Definition allocator_after (k : Z) (c : StreamIDCounter) : Prop :=
  (k = 0 /\ c = StreamIDCounter_initial) \/
  c = {| _instance := Some O; instances := [Some k] |}.

(** ** The detector and its environment

    [WebSocketDetector] carries the fields [__init__] sets (lines 33-37).
    A connection returned by [websocket.create_connection] is an object
    with an identity and a [connected] attribute; the environment hands
    out identities in increasing order, so every connection is fresh. *)

Definition handle : Type := nat.

Record WebSocketDetector : Type := {
  stream_id : Z;
  ws : option handle;
  stop_processing : bool;
  message_queue : list json
}.

(** What one call of [create_connection] followed by [settimeout] does
    (lines 69-70). *)
Inductive create_reply : Type :=
| CreateOk            (* both calls succeed                              *)
| CreateRaises        (* create_connection raises: self.ws is untouched  *)
| SetTimeoutRaises.   (* self.ws is assigned, then settimeout raises     *)

(** What one call of [ws.send] does; a failed send may or may not leave
    the connection's [connected] attribute set. *)
Inductive send_reply : Type :=
| SendOk
| SendRaises (still_connected : bool).

(** The script of the environment: the library's answers in the order the
    calls are made, and for each blocking wait whether a stop was
    requested meanwhile (an exhausted list means no request). *)
Record environment : Type := {
  creates : list create_reply;
  sends : list send_reply;
  stops : list bool
}.

Inductive event : Type :=
| EvLock                                      (* ws_lock acquired        *)
| EvUnlock                                    (* ws_lock released        *)
| EvCreate (r : option handle)                (* create_connection; None: raised *)
| EvSetTimeout (h : handle) (ok : bool)
| EvSend (h : handle) (payload : string) (ok : bool)
| EvClear                                     (* self.ws = None          *)
| EvClose (h : handle)
| EvSleep (seconds : Z)
| EvQueueWait.                                (* queue.get timed out after 1s *)

(** The whole state a thread of the detector runs in.  [log] is the
    history of events, newest first. *)
Record sys : Type := {
  self : WebSocketDetector;
  next_handle : handle;
  connected : handle -> bool;
  env : environment;
  log : list event
}.

(** The history in chronological order. *)
Definition history (s : sys) : list event := rev (log s).

(** ** The monad of a running thread

    A computation either returns, or is still running when the
    environment's script ends (or when the loop budget of an observation
    is spent); in both cases the state reached and its log are kept. *)

Inductive outcome (A : Type) : Type :=
| Ret (a : A)
| Running.

Arguments Ret {A} a.
Arguments Running {A}.

Definition M (A : Type) : Type := sys -> outcome A * sys.

Definition ret {A : Type} (a : A) : M A := fun s => (Ret a, s).

Definition bind {A B : Type} (c : M A) (k : A -> M B) : M B :=
  fun s =>
    match c s with
    | (Ret a, s') => k a s'
    | (Running, s') => (Running, s')
    end.

Definition running {A : Type} : M A := fun s => (Running, s).

Declare Scope sys_scope.
Delimit Scope sys_scope with sys.
Bind Scope sys_scope with M.
Notation "x <- c ;; k" := (bind c (fun x => k))
  (at level 61, c at next level, right associativity) : sys_scope.
Notation "c ;; k" := (bind c (fun _ => k))
  (at level 61, right associativity) : sys_scope.

(** *** Field access *)

Definition set_ws (v : option handle) (d : WebSocketDetector) : WebSocketDetector :=
  {| stream_id := stream_id d; ws := v;
     stop_processing := stop_processing d; message_queue := message_queue d |}.

Definition set_stop_processing (b : bool) (d : WebSocketDetector) : WebSocketDetector :=
  {| stream_id := stream_id d; ws := ws d;
     stop_processing := b; message_queue := message_queue d |}.

Definition set_message_queue (q : list json) (d : WebSocketDetector) : WebSocketDetector :=
  {| stream_id := stream_id d; ws := ws d;
     stop_processing := stop_processing d; message_queue := q |}.

Definition with_self (f : WebSocketDetector -> WebSocketDetector) (s : sys) : sys :=
  {| self := f (self s); next_handle := next_handle s;
     connected := connected s; env := env s; log := log s |}.

Definition with_env (e : environment) (s : sys) : sys :=
  {| self := self s; next_handle := next_handle s;
     connected := connected s; env := e; log := log s |}.

Definition with_log (l : list event) (s : sys) : sys :=
  {| self := self s; next_handle := next_handle s;
     connected := connected s; env := env s; log := l |}.

Definition set_connected (h : handle) (b : bool) (s : sys) : sys :=
  {| self := self s; next_handle := next_handle s;
     connected := fun h' => if Nat.eqb h' h then b else connected s h';
     env := env s; log := log s |}.

Definition emit (ev : event) : M unit :=
  fun s => (Ret tt, with_log (ev :: log s) s).

Definition read {A : Type} (f : sys -> A) : M A := fun s => (Ret (f s), s).

Definition modify_self (f : WebSocketDetector -> WebSocketDetector) : M unit :=
  fun s => (Ret tt, with_self f s).

(** [not self.ws or not self.ws.connected] (lines 54, 107, 109). *)
Definition ws_unusable (s : sys) : bool :=
  match ws (self s) with
  | None => true
  | Some h => negb (connected s h)
  end.

(** *** The library calls *)

(** [self.ws = websocket.create_connection(WS_URL, timeout=10)] followed
    by [self.ws.settimeout(10)]; returns whether both went through. *)
Definition create_connection : M bool :=
  fun s =>
    match creates (env s) with
    | [] => (Running, s)
    | r :: rest =>
        let e := {| creates := rest; sends := sends (env s); stops := stops (env s) |} in
        match r with
        | CreateRaises =>
            (Ret false, with_log (EvCreate None :: log s) (with_env e s))
        | CreateOk | SetTimeoutRaises =>
            let h := next_handle s in
            let ok := match r with CreateOk => true | _ => false end in
            (Ret ok,
             {| self := set_ws (Some h) (self s);
                next_handle := S h;
                connected := fun h' => if Nat.eqb h' h then true else connected s h';
                env := e;
                log := EvSetTimeout h ok :: EvCreate (Some h) :: log s |})
        end
    end.

(** [self.ws.send(payload)]: an absent handle raises (AttributeError)
    before anything is sent; returns whether the call went through. *)
Definition ws_send (payload : string) : M bool :=
  fun s =>
    match ws (self s) with
    | None => (Ret false, s)
    | Some h =>
        match sends (env s) with
        | [] => (Running, s)
        | r :: rest =>
            let e := {| creates := creates (env s); sends := rest; stops := stops (env s) |} in
            match r with
            | SendOk =>
                (Ret true, with_log (EvSend h payload true :: log s) (with_env e s))
            | SendRaises still =>
                (Ret false,
                 set_connected h (connected s h && still)
                   (with_log (EvSend h payload false :: log s) (with_env e s)))
            end
        end
    end.

(** A blocking wait: the stop flag may be raised by the owner meanwhile. *)
Definition wait (ev : event) : M unit :=
  fun s =>
    let requested := hd false (stops (env s)) in
    let e := {| creates := creates (env s); sends := sends (env s);
                stops := tl (stops (env s)) |} in
    (Ret tt,
     with_self (fun d => set_stop_processing (stop_processing d || requested) d)
       (with_log (ev :: log s) (with_env e s))).

Definition sleep (seconds : Z) : M unit := wait (EvSleep seconds).

(** [self.ws.close()]. *)
Definition ws_close (h : handle) : M unit :=
  fun s => (Ret tt, set_connected h false (with_log (EvClose h :: log s) s)).

(** [self.ws = None]. *)
Definition clear_ws : M unit :=
  fun s => (Ret tt, with_self (set_ws None) (with_log (EvClear :: log s) s)).

(** ** [_connect_websocket] (lines 60-79) *)

(** The delay of line 78. *)
Definition backoff_delay (attempt : Z) : Z := Z.min (2 ^ (attempt / 2)) 10.

(** The [while] loop; the local [attempt] is threaded through and its
    final value returned.  One iteration uses one answer of [creates], so
    the budget [fuel] only runs out after the script has. *)
Fixpoint connect_loop (fuel : nat) (attempt : Z) : M Z :=
  match fuel with
  | O => running
  | S fuel' =>
      (stop <- read (fun s => stop_processing (self s)) ;;
       if stop then ret attempt
       else
         let attempt := attempt + 1 in
         emit EvLock ;;
         ok <- create_connection ;;
         emit EvUnlock ;;
         if ok then
           let attempt := 0 in
           ret attempt
         else
           let delay := backoff_delay attempt in
           sleep delay ;;
           connect_loop fuel' attempt)%sys
  end.

Definition _connect_websocket : M unit :=
  fun s =>
    (let attempt := 0 in
     _ <- connect_loop (S (List.length (creates (env s)))) attempt ;;
     ret tt)%sys s.

(** ** [_send_heartbeat] (lines 81-93) *)

Definition _send_heartbeat : M unit :=
  (unusable <- read ws_unusable ;;
   if unusable then ret tt
   else
     emit EvLock ;;
     ok <- ws_send (dumps heartbeat) ;;
     emit EvUnlock ;;
     if ok then ret tt
     else
       emit EvLock ;;
       clear_ws ;;
       emit EvUnlock)%sys.

(** ** [_manage_websocket] (lines 51-58) *)

(** One iteration of the supervisory loop. *)
Definition manage_tick : M unit :=
  (unusable <- read ws_unusable ;;
   (if unusable then _connect_websocket else _send_heartbeat) ;;
   sleep 2)%sys.

Fixpoint _manage_websocket (ticks : nat) : M unit :=
  match ticks with
  | O => running
  | S ticks' =>
      (stop <- read (fun s => stop_processing (self s)) ;;
       if stop then ret tt
       else manage_tick ;; _manage_websocket ticks')%sys
  end.

(** ** [_send_message] (lines 105-123) *)

Definition _send_message (message : json) : M unit :=
  (unusable <- read ws_unusable ;;
   proceed <-
     (if unusable then
        _connect_websocket ;;
        still_unusable <- read ws_unusable ;;
        ret (negb still_unusable)
      else ret true) ;;
   if negb proceed then ret tt
   else
     emit EvLock ;;
     ok <- ws_send (dumps message) ;;
     emit EvUnlock ;;
     if ok then ret tt
     else
       emit EvLock ;;
       clear_ws ;;
       emit EvUnlock ;;
       _connect_websocket)%sys.

(** ** [_process_messages] (lines 95-103) *)

(** [self.message_queue.get(timeout=1)]: the oldest message, or a wait of
    one second that ends in [queue.Empty]. *)
Definition queue_get : M (option json) :=
  fun s =>
    match message_queue (self s) with
    | [] => (wait EvQueueWait ;; ret None)%sys s
    | m :: rest => (Ret (Some m), with_self (set_message_queue rest) s)
    end.

Fixpoint _process_messages (rounds : nat) : M unit :=
  match rounds with
  | O => running
  | S rounds' =>
      (stop <- read (fun s => stop_processing (self s)) ;;
       if stop then ret tt
       else
         got <- queue_get ;;
         match got with
         | Some message => _send_message message ;; _process_messages rounds'
         | None => _process_messages rounds'
         end)%sys
  end.

(** ** [__del__] (lines 167-172) *)

Definition __del__ : M unit :=
  (modify_self (set_stop_processing true) ;;
   h <- read (fun s => ws (self s)) ;;
   match h with
   | Some h => emit EvLock ;; ws_close h ;; emit EvUnlock
   | None => ret tt
   end)%sys.

(** ** [process_frame] (lines 125-165)

    A region of interest as the collaborator hands it over.  [rect] is
    [None] for an object without a [rect] accessor; the four numbers are
    Python numbers, [int] or [float] (NaN and the infinities included).
    [object_id] records which of the guards of lines 133-138 the region
    passes. *)

Inductive object_id_attr : Type :=
| IdMissing               (* hasattr(roi, "object_id") is false *)
| IdNotCallable           (* the attribute is not callable      *)
| IdReturnsNone           (* roi.object_id() is None            *)
| IdReturns (obj_id : Z).

Record roi : Type := {
  rect : option (pynum * pynum * pynum * pynum);
  object_id : object_id_attr
}.

Definition frame : Type := list roi.

(** [(pos + size / 2) / resolution] (lines 141-142). *)
Definition normalized_center (pos size : pynum) (resolution : Z) : result pynum :=
  (half <- py_truediv size (PyInt 2) ;;
   sum <- py_add pos half ;;
   py_truediv sum (PyInt resolution))%result.

(** [min(max(center * GRID_SIZE, 0), GRID_SIZE)] (lines 145-146). *)
Definition to_grid (center : pynum) : result pynum :=
  (scaled <- py_mul center (PyInt GRID_SIZE) ;;
   Ok (py_min (py_max scaled (PyInt 0)) (PyInt GRID_SIZE)))%result.

(** Lines 141-146 for one region: the pair appended to
    [detection_dots]. *)
Definition region_dot (x y w h : pynum) : result (pynum * pynum) :=
  (center_x <- normalized_center x w PROCESSING_WIDTH ;;
   center_y <- normalized_center y h PROCESSING_HEIGHT ;;
   grid_x <- to_grid center_x ;;
   grid_y <- to_grid center_y ;;
   Ok (grid_x, grid_y))%result.

(** Does the region pass the guards of lines 133-138? *)
Definition has_id (r : roi) : bool :=
  match object_id r with
  | IdReturns _ => true
  | IdMissing | IdNotCallable | IdReturnsNone => false
  end.

(** The [for] loop of lines 130-148, threading [detection_dots]. *)
Fixpoint collect_dots (rois : list roi) (detection_dots : list (pynum * pynum))
  : result (list (pynum * pynum)) :=
  match rois with
  | [] => Ok detection_dots
  | r :: rest =>
      match rect r with
      | None => Raise AttributeError
      | Some (x, y, w, h) =>
          if has_id r then
            (dot <- region_dot x y w h ;;
             collect_dots rest (detection_dots ++ [dot]))%result
          else collect_dots rest detection_dots
      end
  end.

(** [{"x": int(x), "y": int(y)}] for one pair (line 157). *)
Definition truncate_dot (dot : pynum * pynum) : result (Z * Z) :=
  (ix <- py_int (fst dot) ;;
   iy <- py_int (snd dot) ;;
   Ok (ix, iy))%result.

(** The comprehension of line 157. *)
Fixpoint truncate_dots (detection_dots : list (pynum * pynum))
  : result (list (Z * Z)) :=
  match detection_dots with
  | [] => Ok []
  | dot :: rest =>
      (point <- truncate_dot dot ;;
       points <- truncate_dots rest ;;
       Ok (point :: points))%result
  end.

(** The payload point of one region: lines 141-146, then line 157. *)
Definition grid_point (x y w h : pynum) : result (Z * Z) :=
  (dot <- region_dot x y w h ;;
   truncate_dot dot)%result.

(** [queue.Queue(maxsize=100)] and its [put_nowait]: [None] stands for
    [queue.Full]. *)
Definition maxsize : nat := 100.

Definition put_nowait (q : list json) (m : json) : option (list json) :=
  if (maxsize <=? List.length q)%nat then None else Some (q ++ [m]).

(** The message of lines 155-158, when there is one to build. *)
Definition build_message (camera : Z) (detection_dots : list (pynum * pynum))
  : result (option json) :=
  match detection_dots with
  | [] => Ok None
  | _ =>
      (points <- truncate_dots detection_dots ;;
       Ok (Some (detection_batch camera points)))%result
  end.

(** Lines 127-158: what the frame contributes, if anything. *)
Definition frame_message (camera : Z) (f : frame) : result (option json) :=
  (detection_dots <- collect_dots f [] ;;
   build_message camera detection_dots)%result.

Definition process_frame (d : WebSocketDetector) (f : frame)
  : result bool * WebSocketDetector :=
  match frame_message (stream_id d) f with
  | Raise e => (Raise e, d)
  | Ok None => (Ok true, d)
  | Ok (Some message) =>
      match put_nowait (message_queue d) message with
      | Some q => (Ok true, set_message_queue q d)
      | None => (Ok true, d)
      end
  end.

(** A caller that feeds frames one after the other while nothing is taken
    from the queue; it stops at the first exception. *)
Fixpoint process_frames (d : WebSocketDetector) (fs : list frame)
  : result (list bool) * WebSocketDetector :=
  match fs with
  | [] => (Ok [], d)
  | f :: rest =>
      match process_frame d f with
      | (Raise e, d') => (Raise e, d')
      | (Ok b, d') =>
          match process_frames d' rest with
          | (Raise e, d'') => (Raise e, d'')
          | (Ok bs, d'') => (Ok (b :: bs), d'')
          end
      end
  end.

(** ** Publishers in a process

    [WebSocketDetector.__init__] (lines 32-39), without the threads it
    starts. *)

Definition __init__ (c : StreamIDCounter)
  : WebSocketDetector * StreamIDCounter :=
  let '(id, c') := allocate_stream_id c in
  ({| stream_id := id; ws := None; stop_processing := false;
      message_queue := [] |}, c').

Definition sys_initial (d : WebSocketDetector) (e : environment) : sys :=
  {| self := d; next_handle := O; connected := fun _ => false;
     env := e; log := [] |}.

Record process : Type := {
  allocator : StreamIDCounter;
  publishers : list sys
}.

Definition process_initial : process :=
  {| allocator := StreamIDCounter_initial; publishers := [] |}.

Inductive process_op : Type :=
| Construct (e : environment)   (* WebSocketDetector() *)
| Teardown (i : nat).           (* the i-th publisher is finalised *)

(** One operation; returns the identifier handed out, if any.  A
    finalised publisher stays in the list, stopped. *)
Definition process_step (p : process) (op : process_op) : option Z * process :=
  match op with
  | Construct e =>
      let '(d, c) := __init__ (allocator p) in
      (Some (stream_id d),
       {| allocator := c; publishers := publishers p ++ [sys_initial d e] |})
  | Teardown i =>
      (None,
       {| allocator := allocator p;
          publishers := update_nth i (fun s => snd (__del__ s)) (publishers p) |})
  end.

(** The identifiers handed out by a sequence of operations, in order. *)
Fixpoint run_process (p : process) (ops : list process_op) : list Z * process :=
  match ops with
  | [] => ([], p)
  | op :: rest =>
      let '(id, p') := process_step p op in
      let '(ids, p'') := run_process p' rest in
      (match id with Some i => i :: ids | None => ids end, p'')
  end.

Definition constructions (ops : list process_op) : nat :=
  List.length (filter (fun op => match op with Construct _ => true | _ => false end) ops).

(** ** Observations on a history *)

(** The delays slept, in order. *)
Fixpoint sleeps_of (tr : list event) : list Z :=
  match tr with
  | [] => []
  | EvSleep d :: rest => d :: sleeps_of rest
  | _ :: rest => sleeps_of rest
  end.

(** The number of connection attempts that failed. *)
Fixpoint failed_attempts (tr : list event) : nat :=
  match tr with
  | [] => O
  | EvCreate None :: rest => S (failed_attempts rest)
  | EvSetTimeout _ false :: rest => S (failed_attempts rest)
  | _ :: rest => failed_attempts rest
  end.

(** The payloads handed to [send], in order. *)
Fixpoint sends_of (tr : list event) : list (handle * string * bool) :=
  match tr with
  | [] => []
  | EvSend h p ok :: rest => (h, p, ok) :: sends_of rest
  | _ :: rest => sends_of rest
  end.

(** [a; a+1; ...] of length [n]. *)
Fixpoint zseq (a : Z) (n : nat) : list Z :=
  match n with
  | O => []
  | S n' => a :: zseq (a + 1) n'
  end.

(** The backoff sequence 1, 2, 2, 4, 4, 8, 8, and 10 from then on. *)
Definition delay_sequence (k : nat) : list Z :=
  firstn k [1; 2; 2; 4; 4; 8; 8] ++ repeat 10 (k - 7).

(** [connect_loop] without the reset of line 73. *)
Fixpoint connect_loop_without_reset (fuel : nat) (attempt : Z) : M Z :=
  match fuel with
  | O => running
  | S fuel' =>
      (stop <- read (fun s => stop_processing (self s)) ;;
       if stop then ret attempt
       else
         let attempt := attempt + 1 in
         emit EvLock ;;
         ok <- create_connection ;;
         emit EvUnlock ;;
         if ok then ret attempt
         else
           let delay := backoff_delay attempt in
           sleep delay ;;
           connect_loop_without_reset fuel' attempt)%sys
  end.

Definition _connect_websocket_without_reset : M unit :=
  fun s =>
    (let attempt := 0 in
     _ <- connect_loop_without_reset (S (List.length (creates (env s)))) attempt ;;
     ret tt)%sys s.

(** ** The payload point, axis by axis *)

(** One axis of the payload point: lines 141, 145 and 157 for [x], or
    142, 146 and 157 for [y]. *)
Definition grid_axis (pos size : pynum) (resolution : Z) : result Z :=
  (center <- normalized_center pos size resolution ;;
   g <- to_grid center ;;
   py_int g)%result.

(** Neither an infinity nor NaN. *)
Definition is_finite (f : spec_float) : bool :=
  match f with
  | S754_zero _ | S754_finite _ _ _ => true
  | S754_infinity _ | S754_nan => false
  end.

(** A point of the 300 x 300 grid. *)
Definition in_grid (p : Z * Z) : Prop :=
  0 <= fst p <= GRID_SIZE /\ 0 <= snd p <= GRID_SIZE.

(** [p] is the payload point of region [r]. *)
Definition region_point (r : roi) (p : Z * Z) : Prop :=
  exists x y w h, rect r = Some (x, y, w, h) /\ grid_point x y w h = Ok p.

(** ** Frames the arithmetic can take

    Every region exposes a rectangle, and where the region has an
    identifier its numbers are ones the arithmetic of lines 141-146 can
    take: an integer that a double can hold ([x] and [y] convert to
    [float], [w / 2] and [h / 2] do not overflow), or a finite double. *)

Definition fits_float (z : Z) : bool :=
  match float_of_int z with
  | Ok _ => true
  | Raise _ => false
  end.

Definition halves_to_float (z : Z) : bool :=
  match int_truediv z 2 with
  | Ok _ => true
  | Raise _ => false
  end.

Definition number_fits (n : pynum) : bool :=
  match n with
  | PyInt z => fits_float z
  | PyFloat f => is_finite f
  end.

Definition number_halves (n : pynum) : bool :=
  match n with
  | PyInt z => halves_to_float z
  | PyFloat f => is_finite f
  end.

(** The numbers only matter for a region that has an identifier; the
    rectangle is read in any case. *)
Definition conforming_roi (r : roi) : bool :=
  match rect r with
  | Some (x, y, w, h) =>
      negb (has_id r)
      || (number_fits x && number_fits y && number_halves w && number_halves h)
  | None => false
  end.

Definition conforming (f : frame) : bool := forallb conforming_roi f.

(** Rectangles as a detector hands them over: every region exposes a
    rectangle of four integers, below 2^1023 in magnitude.  Such frames
    conform ([interface_frame_conforms]). *)
Definition exposes_rect (r : roi) : Prop :=
  exists x y w h : Z,
    rect r = Some (PyInt x, PyInt y, PyInt w, PyInt h) /\
    Z.abs x < 2 ^ 1023 /\ Z.abs y < 2 ^ 1023 /\
    Z.abs w < 2 ^ 1023 /\ Z.abs h < 2 ^ 1023.

Definition interface_frame (f : frame) : Prop := Forall exposes_rect f.

(** With floats admitted: an integer below 2^1023 in magnitude, or a
    double that is neither NaN nor an infinity. *)
Definition plain_number (n : pynum) : Prop :=
  match n with
  | PyInt z => Z.abs z < 2 ^ 1023
  | PyFloat f => is_finite f = true
  end.

(** Every region exposes a rectangle, and the rectangle of a region with
    an identifier holds plain numbers. *)
Definition plain_region (r : roi) : Prop :=
  exists x y w h,
    rect r = Some (x, y, w, h) /\
    (has_id r = true ->
     plain_number x /\ plain_number y /\ plain_number w /\ plain_number h).

Definition plain_frame (f : frame) : Prop := Forall plain_region f.

(** The collaborator interface as the specification gives it: every
    region exposes the rectangle accessor. *)
Definition exposes_accessors (f : frame) : Prop :=
  Forall (fun r => rect r <> None) f.

(** The frame has a region with a resolvable identifier. *)
Definition has_valid_region (f : frame) : Prop :=
  exists r, In r f /\ has_id r = true.

(** ** The normalisation in the words of the specification

    Centre of the rectangle, divided by the resolution, scaled by the grid
    size, clamped to [0, grid size] and truncated, all in exact rational
    arithmetic. *)

Definition Qtruncate (q : Q) : Z := Z.quot (Qnum q) (Zpos (Qden q)).

Definition spec_grid_axis (pos size resolution : Z) : Z :=
  let center := (inject_Z pos + inject_Z size / inject_Z 2)%Q in
  let normalized := (center / inject_Z resolution)%Q in
  let scaled := (normalized * inject_Z GRID_SIZE)%Q in
  let clamped := Qmin (Qmax scaled (inject_Z 0)) (inject_Z GRID_SIZE) in
  Qtruncate clamped.

Definition spec_grid_point (x y w h : Z) : Z * Z :=
  (spec_grid_axis x w PROCESSING_WIDTH, spec_grid_axis y h PROCESSING_HEIGHT).

(** The double equal to [k * 2^e], for [0 <= k < 2^53]. *)
Definition small_float (k e : Z) : spec_float :=
  match k with
  | Zpos p =>
      let shift := prec - Zpos (digits2_pos p) in
      S754_finite false (Z.to_pos (Z.shiftl (Zpos p) shift)) (e - shift)
  | _ => S754_zero false
  end.

(** [f lo && f (lo+1) && ... && f (lo+n)]. *)
Fixpoint all_from (lo : Z) (n : nat) (f : Z -> bool) : bool :=
  match n with
  | O => f lo
  | S n' => f lo && all_from (lo + 1) n' f
  end.

Definition spec_float_eqb (f g : spec_float) : bool :=
  match f, g with
  | S754_zero s, S754_zero t => Bool.eqb s t
  | S754_infinity s, S754_infinity t => Bool.eqb s t
  | S754_nan, S754_nan => true
  | S754_finite s m e, S754_finite t n d =>
      Bool.eqb s t && Pos.eqb m n && Z.eqb e d
  | _, _ => false
  end.

(** ** What the sender may rely on

    All three predicates read a log, newest event first. *)

(** Handle [h] was created after every failed send of the log. *)
Definition created_since_failures (h : handle) (l : list event) : Prop :=
  forall l2 hf p l1,
    l = l2 ++ EvSend hf p false :: l1 ->
    h <> hf /\ In (EvCreate (Some h)) l2.

(** Every send that follows a failed send uses another handle, created in
    between. *)
Definition no_stale_send (l : list event) : Prop :=
  forall l3 h' p' ok l2 h p l1,
    l = l3 ++ EvSend h' p' ok :: l2 ++ EvSend h p false :: l1 ->
    h' <> h /\ In (EvCreate (Some h')) l2.

Definition sends_below (n : handle) (l : list event) : Prop :=
  forall h p ok, In (EvSend h p ok) l -> (h < n)%nat.

Definition handle_invariant (n : handle) (w : option handle) (l : list event) : Prop :=
  sends_below n l /\
  no_stale_send l /\
  forall h, w = Some h -> (h < n)%nat /\ created_since_failures h l.

(** The invariant of a running detector, and what is left of it between
    a failed send and the clearing of the handle. *)
Definition sender_invariant (s : sys) : Prop :=
  handle_invariant (next_handle s) (ws (self s)) (log s).

Definition log_invariant (s : sys) : Prop :=
  handle_invariant (next_handle s) None (log s).

Definition is_send (ev : event) : bool :=
  match ev with
  | EvSend _ _ _ => true
  | _ => false
  end.

(** A Hoare triple for a thread: [Q] holds of the result and state when
    the computation returns, the invariant when it is left running. *)
Definition hoare {A : Type} (P : sys -> Prop) (c : M A) (Q : A -> sys -> Prop) : Prop :=
  forall s, P s ->
    match c s with
    | (Ret a, s') => Q a s'
    | (Running, s') => sender_invariant s'
    end.

(** The keepalive text of the wire protocol: [{"event": "heartbeat"}]. *)
Definition heartbeat_payload : string :=
  ("{" ++ dquote ++ "event" ++ dquote ++ ": "
       ++ dquote ++ "heartbeat" ++ dquote ++ "}")%string.

(** ** Triples with a chosen condition for a thread left running *)

Definition triple {A : Type} (I P : sys -> Prop) (c : M A) (Q : A -> sys -> Prop) : Prop :=
  forall s, P s ->
    match c s with
    | (Ret a, s') => Q a s'
    | (Running, s') => I s'
    end.

(** ** The lock, read off a log

    [ws_lock] is free at the start of a log.  [lock_step] is what one
    event does to it, and whether the event is allowed in that state: the
    lock is not re-acquired while held, every library call on the
    connection and every assignment to [self.ws] happens while it is held,
    and the thread does not go to sleep with it. *)

Definition lock_step (held : bool) (ev : event) : option bool :=
  match ev with
  | EvLock => if held then None else Some true
  | EvUnlock => if held then Some false else None
  | EvCreate _ | EvSetTimeout _ _ | EvSend _ _ _ | EvClear | EvClose _ =>
      if held then Some true else None
  | EvSleep _ | EvQueueWait => if held then None else Some false
  end.

(** The state of the lock after a log (newest event first); [None] when
    the log breaks the discipline. *)
Fixpoint lock_after (l : list event) : option bool :=
  match l with
  | [] => Some false
  | ev :: l' =>
      match lock_after l' with
      | Some held => lock_step held ev
      | None => None
      end
  end.

Definition lock_free (s : sys) : Prop := lock_after (log s) = Some false.
Definition lock_held (s : sys) : Prop := lock_after (log s) = Some true.
Definition lock_respected (s : sys) : Prop := lock_after (log s) <> None.

(** ** What a thread may emit

    The events of the connect routine, of the supervisory thread and of
    the sender thread. *)

Definition connect_event (ev : event) : bool :=
  match ev with
  | EvLock | EvUnlock | EvCreate _ | EvSetTimeout _ _ | EvSleep _ => true
  | _ => false
  end.

Definition supervisor_event (ev : event) : bool :=
  match ev with
  | EvSend _ payload _ => String.eqb payload heartbeat_payload
  | EvClear => true
  | _ => connect_event ev
  end.

Definition sender_event (ev : event) : bool :=
  match ev with
  | EvSend _ _ _ | EvClear | EvQueueWait => true
  | _ => connect_event ev
  end.

(** Since the state [s0], the thread has only logged events of
    [allowed]. *)
Definition emitted_only (allowed : event -> bool) (s0 s : sys) : Prop :=
  exists tr, history s = history s0 ++ tr /\ forallb allowed tr = true.

(** The fields a thread other than the producer and the consumer leaves
    alone. *)
Definition same_queue (s0 s : sys) : Prop :=
  message_queue (self s) = message_queue (self s0) /\
  stream_id (self s) = stream_id (self s0).

(** A computation keeps [I], whether it returns or is left running. *)
Definition keeps {A : Type} (Inv : sys -> Prop) (c : M A) : Prop :=
  forall s, Inv s -> Inv (snd (c s)).

(** ** The order of what the sender transmits *)

(** [l1] is [l2] with some elements left out. *)
Inductive subsequence {A : Type} : list A -> list A -> Prop :=
| subsequence_nil : subsequence [] []
| subsequence_skip (a : A) (l1 l2 : list A) :
    subsequence l1 l2 -> subsequence l1 (a :: l2)
| subsequence_take (a : A) (l1 l2 : list A) :
    subsequence l1 l2 -> subsequence (a :: l1) (a :: l2).

(** The texts handed to [send], in order, whether the call went through
    or not. *)
Definition payloads_of (tr : list event) : list string :=
  map (fun x => snd (fst x)) (sends_of tr).

(** Since [s0] the thread took [taken] from the head of the queue and
    handed to [send] the texts of some of them, in order, each once. *)
Definition sent_in_order (s0 s : sys) : Prop :=
  exists tr taken,
    history s = history s0 ++ tr /\
    message_queue (self s0) = taken ++ message_queue (self s) /\
    subsequence (payloads_of tr) (map dumps taken).

(** The same while [message], taken last, has not been handed to [send]
    yet. *)
Definition pending (message : json) (s0 s : sys) : Prop :=
  exists tr taken,
    history s = history s0 ++ tr /\
    message_queue (self s0) = taken ++ message :: message_queue (self s) /\
    subsequence (payloads_of tr) (map dumps taken).

(** A step that sends nothing and leaves the queue alone. *)
Definition quiet_step (s s' : sys) : Prop :=
  exists evs,
    history s' = history s ++ evs /\
    sends_of evs = [] /\
    message_queue (self s') = message_queue (self s).

(** The connection object created last in [tr], or [w] when [tr] creates
    none. *)
Definition last_created (tr : list event) (w : option handle) : option handle :=
  fold_left (fun w ev => match ev with EvCreate (Some h) => Some h | _ => w end) tr w.

(** The events of one successful send of [payload] over [h]. *)
Definition sent_over (h : handle) (payload : string) : list event :=
  [EvLock; EvSend h payload true; EvUnlock].

(** The events of one supervisory tick that finds [h] alive. *)
Definition heartbeat_tick (h : handle) : list event :=
  sent_over h heartbeat_payload ++ [EvSleep 2].

(** ** Producer and consumer on one queue

    [process_frame] (the caller's thread) and [queue.get] (the sender
    thread) meet in [message_queue]; [queue.Queue] makes each of the two
    operations atomic, so the two threads interleave operation by
    operation. *)

Inductive queue_op : Type :=
| Intake (f : frame)   (* process_frame(f), line 160 *)
| Take.                (* message_queue.get(timeout=1), line 99 *)

(** Runs the operations in order; returns the messages taken.  An
    exception of [process_frame] goes to its caller and the run goes
    on. *)
Fixpoint run_queue (ops : list queue_op) (s : sys) : list json * sys :=
  match ops with
  | [] => ([], s)
  | Intake f :: rest =>
      run_queue rest (with_self (fun d => snd (process_frame d f)) s)
  | Take :: rest =>
      match queue_get s with
      | (Ret (Some m), s') =>
          let '(taken, s'') := run_queue rest s' in (m :: taken, s'')
      | (_, s') => run_queue rest s'
      end
  end.

(** The messages the frames of [ops] carry, in order. *)
Definition offered (camera : Z) (ops : list queue_op) : list json :=
  flat_map (fun op => match op with
                      | Intake f =>
                          match frame_message camera f with
                          | Ok (Some m) => [m]
                          | _ => []
                          end
                      | Take => []
                      end) ops.

(** ** Every interleaving of two constructors

    The states two threads inside [StreamIDCounter().get_next_id()] can
    be in are few enough to list: [reachable_within n] holds the states
    reached by schedules of at most [n] steps. *)

Definition option_eqb {A : Type} (eqb : A -> A -> bool) (a b : option A) : bool :=
  match a, b with
  | Some x, Some y => eqb x y
  | None, None => true
  | _, _ => false
  end.

Fixpoint list_eqb {A : Type} (eqb : A -> A -> bool) (l1 l2 : list A) : bool :=
  match l1, l2 with
  | [], [] => true
  | a :: l1', b :: l2' => eqb a b && list_eqb eqb l1' l2'
  | _, _ => false
  end.

Definition alloc_pc_eqb (p q : alloc_pc) : bool :=
  match p, q with
  | AtNew, AtNew | AtCreate, AtCreate | AtNewReturn, AtNewReturn => true
  | AtRead a, AtRead b => Nat.eqb a b
  | AtIncrement a x, AtIncrement b y => Nat.eqb a b && Z.eqb x y
  | AtReturned x, AtReturned y => Z.eqb x y
  | _, _ => false
  end.

Definition StreamIDCounter_eqb (c d : StreamIDCounter) : bool :=
  option_eqb Nat.eqb (_instance c) (_instance d)
  && list_eqb (option_eqb Z.eqb) (instances c) (instances d).

Definition two_threads_eqb (t u : two_threads) : bool :=
  StreamIDCounter_eqb (shared t) (shared u)
  && alloc_pc_eqb (first_pc t) (first_pc u)
  && alloc_pc_eqb (second_pc t) (second_pc u).

Definition known (seen : list two_threads) (t : two_threads) : bool :=
  existsb (two_threads_eqb t) seen.

Fixpoint add_new (ts seen : list two_threads) : list two_threads :=
  match ts with
  | [] => seen
  | t :: rest => add_new rest (if known seen t then seen else t :: seen)
  end.

Definition successors (t : two_threads) : list two_threads :=
  [schedule_step t false; schedule_step t true].

Fixpoint reachable_within (n : nat) : list two_threads :=
  match n with
  | O => [two_threads_initial]
  | S n' =>
      let seen := reachable_within n' in
      add_new (flat_map successors seen) seen
  end.

(** No state of [seen] has a successor outside [seen]. *)
Definition closed (seen : list two_threads) : bool :=
  forallb (fun t => forallb (known seen) (successors t)) seen.

(** What the two constructors may have received in state [t]. *)
Definition ids_plausible (t : two_threads) : bool :=
  match returned_id (first_pc t), returned_id (second_pc t) with
  | Some a, Some b =>
      (Z.eqb a 0 && Z.eqb b 1) || (Z.eqb a 1 && Z.eqb b 0) || (Z.eqb a 0 && Z.eqb b 0)
  | Some a, None => Z.eqb a 0 || Z.eqb a 1
  | None, Some b => Z.eqb b 0 || Z.eqb b 1
  | None, None => true
  end
  && (List.length (instances (shared t)) <=? 2)%nat.

(** One of the four numbers is at least [2^k] in magnitude. *)
Definition some_at_least (k : Z) (x y w h : Z) : Prop :=
  2 ^ k <= Z.abs x \/ 2 ^ k <= Z.abs y \/ 2 ^ k <= Z.abs w \/ 2 ^ k <= Z.abs h.

(** An [int] of at least 2^1023 in magnitude. *)
Definition oversized (n : pynum) : Prop :=
  match n with
  | PyInt z => 2 ^ 1023 <= Z.abs z
  | PyFloat _ => False
  end.

(** A [float] that is NaN or an infinity. *)
Definition non_finite (n : pynum) : Prop :=
  match n with
  | PyInt _ => False
  | PyFloat f => is_finite f = false
  end.

Definition some_number (P : pynum -> Prop) (x y w h : pynum) : Prop :=
  P x \/ P y \/ P w \/ P h.

(** ** The text of a detection batch

    A text that starts with one of the characters that follow a number in
    the program's documents. *)
Definition delimited (s : string) : Prop :=
  exists rest, s = String ","%char rest \/ s = String "}"%char rest.

(** The points of a batch, as [json.dumps] writes them between the
    brackets. *)
Definition points_text (points : list (Z * Z)) : string :=
  join ", " (map (fun p => dumps (detection p)) points).

(** ** The two threads, step by step

    The supervisory thread and the sender thread run at the same time on
    one detector.  A thread is the tree of the steps it still has to
    take: a statement, executed in one piece, whose result selects what
    follows, or the entry or exit of a [with self.ws_lock] block.  [run]
    executes a tree alone and gives back the methods above; [run_threads]
    executes two trees step by step in the order a schedule names.

    The statements of lines 69-70 are one step: they run under the lock,
    where the other thread can only evaluate a condition, and the
    condition reads the same between the two statements as after them.
    A condition is evaluated in one piece.  A thread ended by an
    exception takes no further step, as in the schedules that stop
    naming it. *)

Inductive thread (A : Type) : Type :=
| Done (a : A)
| Do {B : Type} (c : M B) (k : B -> thread A)
| Acquire (k : thread A)
| Release (k : thread A).

Arguments Done {A} a.
Arguments Do {A B} c k.
Arguments Acquire {A} k.
Arguments Release {A} k.

Fixpoint run {A : Type} (t : thread A) : M A :=
  match t with
  | Done a => ret a
  | Do c k => bind c (fun b => run (k b))
  | Acquire k => bind (emit EvLock) (fun _ => run k)
  | Release k => bind (emit EvUnlock) (fun _ => run k)
  end.

Fixpoint tbind {A B : Type} (t : thread A) (f : A -> thread B) : thread B :=
  match t with
  | Done a => f a
  | Do c k => Do c (fun b => tbind (k b) f)
  | Acquire k => Acquire (tbind k f)
  | Release k => Release (tbind k f)
  end.

(** One statement. *)
Definition one {A : Type} (c : M A) : thread A := Do c (fun a => Done a).

Definition acquire : thread unit := Acquire (Done tt).
Definition release : thread unit := Release (Done tt).

Declare Scope thread_scope.
Delimit Scope thread_scope with thread.
Bind Scope thread_scope with thread.
Notation "x <- t ;; k" := (tbind t (fun x => k))
  (at level 61, t at next level, right associativity) : thread_scope.
Notation "t ;; k" := (tbind t (fun _ => k))
  (at level 61, right associativity) : thread_scope.

(** [_connect_websocket] (lines 60-79). *)
Fixpoint connect_loop_steps (fuel : nat) (attempt : Z) : thread Z :=
  match fuel with
  | O => one running
  | S fuel' =>
      (stop <- one (read (fun s => stop_processing (self s))) ;;
       if stop then Done attempt
       else
         let attempt := attempt + 1 in
         acquire ;;
         ok <- one create_connection ;;
         release ;;
         if ok then
           let attempt := 0 in
           Done attempt
         else
           let delay := backoff_delay attempt in
           one (sleep delay) ;;
           connect_loop_steps fuel' attempt)%thread
  end.

Definition _connect_websocket_steps : thread unit :=
  (fuel <- one (read (fun s => S (List.length (creates (env s))))) ;;
   let attempt := 0 in
   _ <- connect_loop_steps fuel attempt ;;
   Done tt)%thread.

(** [_send_heartbeat] (lines 81-93). *)
Definition _send_heartbeat_steps : thread unit :=
  (unusable <- one (read ws_unusable) ;;
   if unusable then Done tt
   else
     acquire ;;
     ok <- one (ws_send (dumps heartbeat)) ;;
     release ;;
     if ok then Done tt
     else
       acquire ;;
       one clear_ws ;;
       release)%thread.

(** [_manage_websocket] (lines 51-58). *)
Definition manage_tick_steps : thread unit :=
  (unusable <- one (read ws_unusable) ;;
   (if unusable then _connect_websocket_steps else _send_heartbeat_steps) ;;
   one (sleep 2))%thread.

Fixpoint _manage_websocket_steps (ticks : nat) : thread unit :=
  match ticks with
  | O => one running
  | S ticks' =>
      (stop <- one (read (fun s => stop_processing (self s))) ;;
       if stop then Done tt
       else manage_tick_steps ;; _manage_websocket_steps ticks')%thread
  end.

(** [_send_message] (lines 105-123). *)
Definition _send_message_steps (message : json) : thread unit :=
  (unusable <- one (read ws_unusable) ;;
   proceed <-
     (if unusable then
        _connect_websocket_steps ;;
        still_unusable <- one (read ws_unusable) ;;
        Done (negb still_unusable)
      else Done true) ;;
   if negb proceed then Done tt
   else
     acquire ;;
     ok <- one (ws_send (dumps message)) ;;
     release ;;
     if ok then Done tt
     else
       acquire ;;
       one clear_ws ;;
       release ;;
       _connect_websocket_steps)%thread.

(** [_process_messages] (lines 95-103). *)
Fixpoint _process_messages_steps (rounds : nat) : thread unit :=
  match rounds with
  | O => one running
  | S rounds' =>
      (stop <- one (read (fun s => stop_processing (self s))) ;;
       if stop then Done tt
       else
         got <- one queue_get ;;
         match got with
         | Some message =>
             _send_message_steps message ;; _process_messages_steps rounds'
         | None => _process_messages_steps rounds'
         end)%thread
  end.

(** *** The two threads together

    [false] names the sender thread, [true] the supervisory thread.  A
    thread that wants the lock while it is held does not move; a thread
    inside a library call that does not return stays there.  [trail]
    keeps the events of both threads, newest first, each with the thread
    that caused it. *)

Record threads : Type := {
  sender_thread : thread unit;
  supervisor_thread : thread unit;
  lock_holder : option bool;
  world : sys;
  trail : list (bool * event)
}.

Definition thread_step (who : bool) (t : thread unit) (holder : option bool) (s : sys)
  : thread unit * option bool * sys :=
  match t with
  | Done _ => (t, holder, s)
  | Do c k =>
      match c s with
      | (Ret b, s') => (k b, holder, s')
      | (Running, s') => (t, holder, s')
      end
  | Acquire k =>
      match holder with
      | None => (k, Some who, snd (emit EvLock s))
      | Some _ => (t, holder, s)
      end
  | Release k => (k, None, snd (emit EvUnlock s))
  end.

(** The events a step added to the log. *)
Definition new_events (s s' : sys) : list event :=
  firstn (List.length (log s') - List.length (log s)) (log s').

Definition threads_step (p : threads) (who : bool) : threads :=
  let t := if who then supervisor_thread p else sender_thread p in
  let '(t', holder, s') := thread_step who t (lock_holder p) (world p) in
  {| sender_thread := if who then sender_thread p else t';
     supervisor_thread := if who then t' else supervisor_thread p;
     lock_holder := holder;
     world := s';
     trail := map (pair who) (new_events (world p) s') ++ trail p |}.

Definition run_threads (schedule : list bool) (p : threads) : threads :=
  fold_left threads_step schedule p.

(** A detector whose two threads have just been started. *)
Definition threads_initial (rounds ticks : nat) (s : sys) : threads :=
  {| sender_thread := _process_messages_steps rounds;
     supervisor_thread := _manage_websocket_steps ticks;
     lock_holder := None;
     world := s;
     trail := [] |}.

(** Every send of the sender thread that follows a failed send of the
    sender thread uses another handle, created in between. *)
Definition no_stale_data_send (l : list (bool * event)) : Prop :=
  forall l3 h' p' ok l2 h p l1,
    l = l3 ++ (false, EvSend h' p' ok) :: l2 ++ (false, EvSend h p false) :: l1 ->
    h' <> h /\ exists who, In (who, EvCreate (Some h')) l2.

(** No send at all, of either thread, goes over a handle on which a send
    of the sender thread has failed. *)
Definition no_send_over_failed_handle (l : list (bool * event)) : Prop :=
  forall l3 who h' p' ok l2 h p l1,
    l = l3 ++ (who, EvSend h' p' ok) :: l2 ++ (false, EvSend h p false) :: l1 ->
    h' <> h.

(** Handle [h] was created after every failed send of the sender. *)
Definition created_since_data_failures (h : handle) (l : list (bool * event)) : Prop :=
  forall l2 hf p l1,
    l = l2 ++ (false, EvSend hf p false) :: l1 ->
    h <> hf /\ exists who, In (who, EvCreate (Some h)) l2.

Definition data_sends_below (n : handle) (l : list (bool * event)) : Prop :=
  forall h p ok, In (false, EvSend h p ok) l -> (h < n)%nat.

(** What holds of the shared state at a place of the sender thread:
    always the first two parts, and the third except between a failed
    send and the clearing of the handle ([steady = false]). *)
Definition sender_assertion (steady : bool) (s : sys) (l : list (bool * event)) : Prop :=
  data_sends_below (next_handle s) l /\
  no_stale_data_send l /\
  (steady = true ->
   forall h, ws (self s) = Some h ->
     (h < next_handle s)%nat /\ created_since_data_failures h l).

(** Statement [c], executed by thread [who] where [sender_assertion pre]
    holds, leaves [sender_assertion (post b)] when it returns [b], and
    [sender_assertion pre] when it does not return. *)
Definition preserves {B : Type} (who : bool) (c : M B) (pre : bool) (post : B -> bool)
  : Prop :=
  forall s l, sender_assertion pre s l ->
    match c s with
    | (Ret b, s') =>
        sender_assertion (post b) s' (map (pair who) (new_events s s') ++ l)
    | (Running, s') =>
        sender_assertion pre s' (map (pair who) (new_events s s') ++ l)
    end.

(** The sender thread, from a place where [sender_assertion steady]
    holds, keeps the assertions at every step and ends, with result [a],
    where [sender_assertion (final a)] holds. *)
Fixpoint covers {A : Type} (t : thread A) (steady : bool) (final : A -> bool) : Prop :=
  match t with
  | Done a => steady = final a
  | Do c k =>
      exists post,
        preserves false c steady post /\ forall b, covers (k b) (post b) final
  | Acquire k => covers k steady final
  | Release k => covers k steady final
  end.

(** The statements of the supervisory thread leave the sender's
    assertions as they are. *)
Fixpoint benign {A : Type} (t : thread A) : Prop :=
  match t with
  | Done _ => True
  | Do c k =>
      (forall steady, preserves true c steady (fun _ => steady)) /\
      (forall b, benign (k b))
  | Acquire k => benign k
  | Release k => benign k
  end.

(** What holds of the two threads at every moment. *)
Definition threads_invariant (p : threads) : Prop :=
  (exists steady,
      sender_assertion steady (world p) (trail p) /\
      covers (sender_thread p) steady (fun _ => true)) /\
  benign (supervisor_thread p).

(** Events among which there is no send of the sender thread. *)
Definition quiet_events (tevs : list (bool * event)) : Prop :=
  forall h p ok, ~ In (false, EvSend h p ok) tevs.

(** Statement [c] only adds events to the log, and every statement of a
    thread does. *)
Definition appends {B : Type} (c : M B) : Prop :=
  forall s, log (snd (c s)) = new_events s (snd (c s)) ++ log s.

Fixpoint logging {A : Type} (t : thread A) : Prop :=
  match t with
  | Done _ => True
  | Do c k => appends c /\ forall b, logging (k b)
  | Acquire k => logging k
  | Release k => logging k
  end.

(** The trail is the log, event by event, since the log was [base]. *)
Definition trail_is_log (base : list event) (p : threads) : Prop :=
  map snd (trail p) ++ base = log (world p) /\
  logging (sender_thread p) /\ logging (supervisor_thread p).

(* ================================================================== *)
(** * Part II: properties                                              *)
(* ================================================================== *)

(** ** The identifier allocator *)

Lemma allocate_stream_id_counts (k : Z) (c : StreamIDCounter) :
  allocator_after k c ->
  fst (allocate_stream_id c) = k /\
  allocator_after (k + 1) (snd (allocate_stream_id c)).
Proof.
  intros [[-> ->]| ->]; (split; [reflexivity|right; reflexivity]).
Qed.

Lemma zseq_app (a : Z) (n m : nat) :
  zseq a (n + m) = zseq a n ++ zseq (a + Z.of_nat n) m.
Proof.
  revert a; induction n as [|n IH]; intros a.
  - simpl. now rewrite Z.add_0_r.
  - cbn [Nat.add zseq app]. rewrite IH.
    replace (a + 1 + Z.of_nat n) with (a + Z.of_nat (S n)) by lia.
    reflexivity.
Qed.

Lemma run_process_ids (ops : list process_op) (p : process) (k : Z) :
  allocator_after k (allocator p) ->
  fst (run_process p ops) = zseq k (constructions ops).
Proof.
  revert p k; induction ops as [|op ops IH]; intros p k Hk; [reflexivity|].
  cbn [run_process].
  destruct (process_step p op) as [id p'] eqn:Hstep.
  destruct op as [e|i]; cbn [process_step] in Hstep.
  - unfold __init__ in Hstep.
    destruct (allocate_stream_id_counts k (allocator p) Hk) as [Hid Hnext].
    destruct (allocate_stream_id (allocator p)) as [id' c'].
    cbn [fst snd] in Hid, Hnext. injection Hstep as <- <-. cbn [stream_id].
    specialize (IH {| allocator := c'; publishers := publishers p ++ [sys_initial
                       {| stream_id := id'; ws := None; stop_processing := false;
                          message_queue := [] |} e] |} (k + 1) Hnext).
    destruct (run_process _ ops) as [ids p'']. cbn [fst] in *.
    unfold constructions. cbn [filter List.length zseq]. subst id'.
    f_equal. exact IH.
  - injection Hstep as <- <-.
    specialize (IH {| allocator := allocator p;
                      publishers := update_nth i (fun s => snd (__del__ s)) (publishers p) |}
                   k Hk).
    destruct (run_process _ ops) as [ids p'']. exact IH.
Qed.

Lemma nth_error_zseq (a : Z) (n i : nat) :
  (i < n)%nat -> nth_error (zseq a n) i = Some (a + Z.of_nat i).
Proof.
  revert a i; induction n as [|n IH]; intros a i Hi; [lia|].
  destruct i as [|i]; cbn [zseq nth_error].
  - f_equal; lia.
  - rewrite IH by lia. f_equal; lia.
Qed.

Lemma in_zseq (a x : Z) (n : nat) :
  In x (zseq a n) -> a <= x < a + Z.of_nat n.
Proof.
  revert a; induction n as [|n IH]; intros a; cbn [zseq In]; [tauto|].
  intros [<-|Hin]; [lia|]. apply IH in Hin. lia.
Qed.

Lemma NoDup_zseq (a : Z) (n : nat) : NoDup (zseq a n).
Proof.
  revert a; induction n as [|n IH]; intros a; cbn [zseq]; constructor.
  - intros Hin. apply in_zseq in Hin. lia.
  - apply IH.
Qed.

(** A thread that is not interrupted goes through [allocate_stream_id]. *)
Lemma alloc_step_uninterrupted (k : Z) (c : StreamIDCounter) :
  allocator_after k c ->
  let '(c1, pc1) := alloc_step c AtNew in
  let '(c2, pc2) := alloc_step c1 pc1 in
  let '(c3, pc3) := alloc_step c2 pc2 in
  let '(c4, pc4) := alloc_step c3 pc3 in
  let '(c5, pc5) := alloc_step c4 pc4 in
  (returned_id pc5, c5) = (Some (fst (allocate_stream_id c)), snd (allocate_stream_id c)).
Proof. intros [[-> ->]| ->]; reflexivity. Qed.

(** X19.  Publishers constructed one after the other in a process
    receive 0, 1, 2, ...: the k-th construction receives k-1, whatever
    finalisations happen in between, and no identifier is handed out
    twice. *)
Theorem sequential_identifiers (ops : list process_op) :
  let ids := fst (run_process process_initial ops) in
  ids = zseq 0 (constructions ops) /\
  (forall k : nat, (1 <= k <= constructions ops)%nat ->
     nth_error ids (k - 1) = Some (Z.of_nat k - 1)) /\
  NoDup ids.
Proof.
  cbn zeta. rewrite (run_process_ids ops process_initial 0)
    by (left; split; reflexivity).
  split; [reflexivity|split].
  - intros k Hk. rewrite nth_error_zseq by lia. f_equal; lia.
  - apply NoDup_zseq.
Qed.

Lemma sequential_identifiers_witness :
  nth_error
    (fst (run_process process_initial
            [Construct {| creates := []; sends := []; stops := [] |};
             Teardown 0;
             Construct {| creates := []; sends := []; stops := [] |}]))
    (2 - 1) = Some (Z.of_nat 2 - 1).
Proof.
  apply (proj1 (proj2 (sequential_identifiers
            [Construct {| creates := []; sends := []; stops := [] |};
             Teardown 0;
             Construct {| creates := []; sends := []; stops := [] |}])) 2%nat).
  vm_compute. lia.
Defined.

(** C8.  The allocator is meant to hand out unique identifiers (line 16:
    shared state to assign unique stream IDs) and takes no lock.  Two
    constructors in different threads that interleave statement by
    statement both read the counter before either stores it: both receive
    0, and 1 is never handed out.  Interleaved inside [__new__] instead,
    they create two instances and again both receive 0. *)
Lemma interleaved_identifiers_collide :
  (let t := run_schedule [false; false; false; true; true;
                          false; true; false; true] in
   returned_id (first_pc t) = Some 0 /\
   returned_id (second_pc t) = Some 0 /\
   instances (shared t) = [Some 2]) /\
  (let t := run_schedule [false; true; false; false; true; true;
                          false; false; true; true] in
   returned_id (first_pc t) = Some 0 /\
   returned_id (second_pc t) = Some 0 /\
   instances (shared t) = [Some 1; Some 1]).
Proof. vm_compute. repeat split. Qed.

(** ** The backoff delay *)

Lemma backoff_delay_cap (n : Z) : backoff_delay n <= 10.
Proof. unfold backoff_delay. apply Z.le_min_r. Qed.

Lemma backoff_delay_monotone (n m : Z) :
  n <= m -> backoff_delay n <= backoff_delay m.
Proof.
  intros Hnm. unfold backoff_delay.
  apply Z.min_le_compat_r.
  assert (Hdiv : n / 2 <= m / 2) by (apply Z.div_le_mono; lia).
  destruct (Z.ltb_spec (n / 2) 0) as [Hneg|Hpos].
  - rewrite (Z.pow_neg_r 2 (n / 2)) by exact Hneg.
    apply Z.pow_nonneg; lia.
  - apply Z.pow_le_mono_r; lia.
Qed.

Lemma backoff_delay_from_8 (n : Z) : 8 <= n -> backoff_delay n = 10.
Proof.
  intros Hn. unfold backoff_delay. apply Z.min_r.
  assert (4 <= n / 2) by (apply Z.div_le_lower_bound; lia).
  transitivity (2 ^ 4); [vm_compute; discriminate|].
  apply Z.pow_le_mono_r; lia.
Qed.

(** ** The connect routine *)

Arguments backoff_delay : simpl never.

Ltac run_connect_step :=
  cbn [connect_loop connect_loop_without_reset];
  unfold bind, read, ret, running, emit, create_connection, sleep, wait,
    with_log, with_env, with_self;
  cbn.

(** What a run of the loop appends to the history: one delay per failed
    attempt, the delay of the attempt's number. *)
Lemma connect_loop_history (fuel : nat) (attempt : Z) (s : sys) :
  exists tr,
    history (snd (connect_loop fuel attempt s)) = history s ++ tr /\
    sleeps_of tr = map backoff_delay (zseq (attempt + 1) (failed_attempts tr)) /\
    sends_of tr = [].
Proof.
  revert attempt s; induction fuel as [|fuel IH]; intros attempt s.
  - exists []. cbn. rewrite app_nil_r. auto.
  - run_connect_step.
    destruct (stop_processing (self s)) eqn:Hstop.
    { exists []. cbn. rewrite app_nil_r. auto. }
    destruct (creates (env s)) as [|r rest] eqn:Hcreates.
    { exists [EvLock]. cbn. auto. }
    destruct r.
    + exists [EvLock; EvCreate (Some (next_handle s));
              EvSetTimeout (next_handle s) true; EvUnlock].
      cbn. unfold history. cbn. rewrite <- !app_assoc. auto.
    + match goal with |- context [connect_loop fuel ?a ?s1] =>
        destruct (IH a s1) as (tr & Hh & Hs & Hn) end.
      exists ([EvLock; EvCreate None; EvUnlock; EvSleep (backoff_delay (attempt + 1))] ++ tr).
      split; [|split].
      * rewrite Hh. unfold history. cbn. rewrite <- !app_assoc. reflexivity.
      * cbn. rewrite Hs. reflexivity.
      * cbn. exact Hn.
    + match goal with |- context [connect_loop fuel ?a ?s1] =>
        destruct (IH a s1) as (tr & Hh & Hs & Hn) end.
      exists ([EvLock; EvCreate (Some (next_handle s));
               EvSetTimeout (next_handle s) false; EvUnlock;
               EvSleep (backoff_delay (attempt + 1))] ++ tr).
      split; [|split].
      * rewrite Hh. unfold history. cbn. rewrite <- !app_assoc. reflexivity.
      * cbn. rewrite Hs. reflexivity.
      * cbn. exact Hn.
Qed.

Lemma length_zseq (a : Z) (n : nat) : List.length (zseq a n) = n.
Proof. revert a; induction n as [|n IH]; intros a; cbn; [|rewrite IH]; reflexivity. Qed.

Lemma connect_websocket_history (s : sys) :
  exists tr,
    history (snd (_connect_websocket s)) = history s ++ tr /\
    sleeps_of tr = map backoff_delay (zseq 1 (failed_attempts tr)) /\
    sends_of tr = [].
Proof.
  unfold _connect_websocket, bind.
  destruct (connect_loop_history (S (List.length (creates (env s)))) 0 s)
    as (tr & Hh & Hs & Hn).
  exists tr.
  destruct (connect_loop _ 0 s) as [[a|] s']; cbn [snd] in *; auto.
Qed.

(** The budget of the loop is never what stops it: any budget above the
    length of the script gives the same run. *)
Lemma connect_loop_budget (fuel : nat) (attempt : Z) (s : sys) :
  (List.length (creates (env s)) < fuel)%nat ->
  connect_loop fuel attempt s
  = connect_loop (S (List.length (creates (env s)))) attempt s.
Proof.
  revert attempt s; induction fuel as [|fuel IH]; intros attempt s Hfuel; [lia|].
  run_connect_step.
  destruct (stop_processing (self s)); [reflexivity|].
  destruct (creates (env s)) as [|r rest] eqn:Hcreates; [reflexivity|].
  cbn [List.length] in Hfuel.
  destruct r; cbn; try reflexivity;
    (rewrite IH by (cbn; lia); cbn; reflexivity).
Qed.

(** The routine returns connected as soon as the script lets an attempt
    through, when no stop is requested meanwhile. *)
Lemma connect_loop_succeeds (failures rest : list create_reply)
      (fuel : nat) (attempt : Z) (s : sys) :
  stop_processing (self s) = false ->
  stops (env s) = [] ->
  creates (env s) = failures ++ CreateOk :: rest ->
  Forall (fun r => r <> CreateOk) failures ->
  (List.length failures < fuel)%nat ->
  exists (s' : sys) (h : handle),
    connect_loop fuel attempt s = (Ret 0, s') /\
    ws (self s') = Some h /\ connected s' h = true /\
    next_handle s' = S h /\ creates (env s') = rest.
Proof.
  revert fuel attempt s; induction failures as [|r failures IH];
    intros fuel attempt s Hstop Hstops Hcreates Hfail Hfuel;
    (destruct fuel as [|fuel]; [cbn in Hfuel; lia|]);
    run_connect_step; rewrite Hstop, Hcreates; cbn.
  - eexists. exists (next_handle s). split; [reflexivity|]. cbn.
    rewrite Nat.eqb_refl. auto.
  - inversion Hfail as [|r' fs Hr Hrest]; subst.
    destruct r; [contradiction Hr; reflexivity| |];
      (apply IH; cbn;
       [rewrite Hstop, Hstops; reflexivity
       |rewrite Hstops; reflexivity
       |reflexivity
       |exact Hrest
       |cbn in Hfuel; lia]).
Qed.

Lemma connect_websocket_succeeds (failures rest : list create_reply) (s : sys) :
  stop_processing (self s) = false ->
  stops (env s) = [] ->
  creates (env s) = failures ++ CreateOk :: rest ->
  Forall (fun r => r <> CreateOk) failures ->
  exists (s' : sys) (h : handle),
    _connect_websocket s = (Ret tt, s') /\
    ws (self s') = Some h /\ connected s' h = true /\
    next_handle s' = S h /\ creates (env s') = rest.
Proof.
  intros Hstop Hstops Hcreates Hfail.
  destruct (connect_loop_succeeds failures rest
              (S (List.length (creates (env s)))) 0 s Hstop Hstops Hcreates Hfail)
    as (s' & h & Hrun & Hrest).
  { rewrite Hcreates, length_app. cbn [List.length]. lia. }
  exists s', h. split; [|exact Hrest].
  unfold _connect_websocket, bind. rewrite Hrun. reflexivity.
Qed.

Lemma map_backoff_from_8 (a : Z) (n : nat) :
  8 <= a -> map backoff_delay (zseq a n) = repeat 10 n.
Proof.
  revert a; induction n as [|n IH]; intros a Ha; [reflexivity|].
  cbn [zseq map repeat]. rewrite backoff_delay_from_8 by exact Ha.
  rewrite IH by lia. reflexivity.
Qed.

Lemma backoff_delays_sequence (k : nat) :
  map backoff_delay (zseq 1 k) = delay_sequence k.
Proof.
  unfold delay_sequence.
  destruct (Nat.le_gt_cases k 7) as [Hk|Hk].
  - replace (k - 7)%nat with O by lia. cbn [repeat]. rewrite app_nil_r.
    do 8 (destruct k as [|k]; [reflexivity|]). lia.
  - replace k with (7 + (k - 7))%nat at 1 2 by lia.
    rewrite zseq_app, map_app.
    rewrite firstn_all2 by exact (Nat.le_add_r 7 (k - 7)).
    rewrite (map_backoff_from_8 (1 + Z.of_nat 7)) by lia. reflexivity.
Qed.

(** C1.  In the connect loop, the failed attempt that brings the counter
    to n >= 1 is followed by one sleep of min(2^(n div 2), 10) seconds,
    after which the loop goes on with the counter at n; over a whole run
    the i-th sleep is the delay of attempt i.  As a function of n the
    delay is non-decreasing and at most 10. *)
Theorem backoff_delay_of_failed_attempt :
  (forall (fuel : nat) (n : Z) (s : sys) (r : create_reply) (rest : list create_reply),
      1 <= n ->
      stop_processing (self s) = false ->
      creates (env s) = r :: rest ->
      r <> CreateOk ->
      exists (s1 : sys) (evs : list event),
        connect_loop (S fuel) (n - 1) s = connect_loop fuel n s1 /\
        history s1 = history s ++ evs ++ [EvSleep (Z.min (2 ^ (n / 2)) 10)] /\
        sleeps_of evs = [] /\ failed_attempts evs = 1%nat) /\
  (forall s : sys, exists tr : list event,
      history (snd (_connect_websocket s)) = history s ++ tr /\
      List.length (sleeps_of tr) = failed_attempts tr /\
      forall (i : nat) (d : Z),
        nth_error (sleeps_of tr) i = Some d ->
        d = Z.min (2 ^ (Z.of_nat (S i) / 2)) 10) /\
  (forall n m : Z, 1 <= n -> n <= m -> backoff_delay n <= backoff_delay m) /\
  (forall n : Z, 1 <= n -> backoff_delay n <= 10).
Proof.
  split; [|split; [|split]].
  - intros fuel n s r rest Hn Hstop Hcreates Hr.
    run_connect_step. rewrite Hstop, Hcreates.
    replace (n - 1 + 1) with n by lia.
    destruct r; [congruence| |]; cbn.
    + eexists. exists [EvLock; EvCreate None; EvUnlock].
      split; [reflexivity|]. unfold history; cbn.
      rewrite <- !app_assoc. auto.
    + eexists. exists [EvLock; EvCreate (Some (next_handle s));
                       EvSetTimeout (next_handle s) false; EvUnlock].
      split; [reflexivity|]. unfold history; cbn.
      rewrite <- !app_assoc. auto.
  - intros s. destruct (connect_websocket_history s) as (tr & Hh & Hs & _).
    exists tr. split; [exact Hh|]. split.
    + rewrite Hs, length_map, length_zseq. reflexivity.
    + intros i d Hi. rewrite Hs in Hi.
      destruct (Nat.lt_ge_cases i (failed_attempts tr)) as [Hlt|Hge].
      * rewrite nth_error_map, nth_error_zseq in Hi by exact Hlt.
        assert (Hd : d = backoff_delay (1 + Z.of_nat i))
          by (unfold option_map in Hi; congruence).
        rewrite Hd. unfold backoff_delay.
        replace (1 + Z.of_nat i) with (Z.of_nat (S i)) by lia. reflexivity.
      * rewrite (proj2 (nth_error_None _ _)) in Hi; [discriminate|].
        rewrite length_map, length_zseq. exact Hge.
  - intros n m _ Hnm. apply backoff_delay_monotone; exact Hnm.
  - intros n _. apply backoff_delay_cap.
Qed.

Lemma backoff_delay_of_failed_attempt_witness :
  let s := sys_initial
             {| stream_id := 0; ws := None; stop_processing := false;
                message_queue := [] |}
             {| creates := [CreateRaises; CreateOk]; sends := []; stops := [] |} in
  (exists (s1 : sys) (evs : list event),
      connect_loop 2 (3 - 1) s = connect_loop 1 3 s1 /\
      history s1 = history s ++ evs ++ [EvSleep (Z.min (2 ^ (3 / 2)) 10)] /\
      sleeps_of evs = [] /\ failed_attempts evs = 1%nat) /\
  backoff_delay 3 <= backoff_delay 8 /\
  backoff_delay 8 <= 10.
Proof.
  cbn zeta. split; [|split].
  - apply (proj1 backoff_delay_of_failed_attempt 1%nat 3 _ CreateRaises [CreateOk]).
    + lia.
    + reflexivity.
    + reflexivity.
    + discriminate.
  - apply (proj1 (proj2 (proj2 backoff_delay_of_failed_attempt)) 3 8); lia.
  - apply (proj2 (proj2 (proj2 backoff_delay_of_failed_attempt)) 8); lia.
Defined.

(** The reset of line 73 is not observable: the routine behaves as the
    one without it. *)
Lemma connect_loop_reset_unobservable (fuel : nat) (attempt : Z) (s : sys) :
  snd (connect_loop fuel attempt s) = snd (connect_loop_without_reset fuel attempt s) /\
  (fst (connect_loop fuel attempt s) = Running <->
   fst (connect_loop_without_reset fuel attempt s) = Running).
Proof.
  revert attempt s; induction fuel as [|fuel IH]; intros attempt s.
  - cbn. tauto.
  - run_connect_step.
    destruct (stop_processing (self s)); [cbn; split; [reflexivity|split; discriminate]|].
    destruct (creates (env s)) as [|[| |] rest]; cbn; try apply IH;
      split; try reflexivity; try tauto; split; discriminate.
Qed.

(** C9.  The counter lives in one invocation of the connect routine:
    whatever state the routine is entered in, its sleeps are 1, 2, 2, 4,
    4, 8, 8, 10, 10, ... for as many attempts as fail in this invocation;
    a second invocation starts the sequence again; and the routine without
    the reset of the counter on success behaves identically. *)
Theorem attempt_counter_is_local (s : sys) :
  _connect_websocket s = _connect_websocket_without_reset s /\
  (exists tr : list event,
      history (snd (_connect_websocket s)) = history s ++ tr /\
      sleeps_of tr = delay_sequence (failed_attempts tr)) /\
  (exists tr1 tr2 : list event,
      history (snd ((_connect_websocket ;; _connect_websocket)%sys s))
        = history s ++ tr1 ++ tr2 /\
      sleeps_of tr1 = delay_sequence (failed_attempts tr1) /\
      sleeps_of tr2 = delay_sequence (failed_attempts tr2)) /\
  delay_sequence 9 = [1; 2; 2; 4; 4; 8; 8; 10; 10].
Proof.
  split; [|split; [|split]].
  - unfold _connect_websocket, _connect_websocket_without_reset, bind.
    destruct (connect_loop_reset_unobservable
                (S (List.length (creates (env s)))) 0 s) as [Hsnd Hfst].
    destruct (connect_loop _ 0 s) as [[a|] s1];
      destruct (connect_loop_without_reset _ 0 s) as [[b|] s2];
      cbn [fst snd] in *; subst; try reflexivity.
    + destruct Hfst as [_ H]. discriminate H. reflexivity.
    + destruct Hfst as [H _]. discriminate H. reflexivity.
  - destruct (connect_websocket_history s) as (tr & Hh & Hs & _).
    exists tr. rewrite Hs, backoff_delays_sequence. auto.
  - destruct (connect_websocket_history s) as (tr1 & Hh1 & Hs1 & _).
    unfold bind at 1.
    destruct (_connect_websocket s) as [[[]|] s1] eqn:Hrun; cbn [snd] in *.
    + destruct (connect_websocket_history s1) as (tr2 & Hh2 & Hs2 & _).
      exists tr1, tr2. rewrite Hh2, Hh1, app_assoc.
      rewrite Hs1, Hs2, !backoff_delays_sequence. auto.
    + exists tr1, []. rewrite Hh1, app_nil_r.
      rewrite Hs1, backoff_delays_sequence. auto.
  - reflexivity.
Qed.

(** ** The sender never reuses a handle that failed *)

Lemma created_since_failures_cons (h : handle) (ev : event) (l : list event) :
  created_since_failures h l ->
  (forall hf p, ev <> EvSend hf p false) ->
  created_since_failures h (ev :: l).
Proof.
  intros Hc Hev l2 hf p l1 Heq.
  destruct l2 as [|ev' l2]; cbn [app] in Heq.
  - injection Heq as Heq _. exfalso. exact (Hev _ _ Heq).
  - injection Heq as -> Heq.
    destruct (Hc _ _ _ _ Heq) as [Hne Hin].
    split; [exact Hne|right; exact Hin].
Qed.

Lemma created_since_failures_fresh (n : handle) (l : list event) :
  sends_below n l ->
  created_since_failures n (EvCreate (Some n) :: l).
Proof.
  intros Hb l2 hf p l1 Heq.
  destruct l2 as [|ev' l2]; cbn [app] in Heq; [discriminate|].
  injection Heq as <- Heq. split; [|left; reflexivity].
  assert (hf < n)%nat; [|lia].
  apply (Hb hf p false). rewrite Heq. apply in_elt.
Qed.

Lemma no_stale_send_cons_quiet (ev : event) (l : list event) :
  no_stale_send l -> is_send ev = false -> no_stale_send (ev :: l).
Proof.
  intros Hn Hev l3 h' p' ok l2 h p l1 Heq.
  destruct l3 as [|ev' l3]; cbn [app] in Heq.
  - injection Heq as -> _. discriminate Hev.
  - injection Heq as _ Heq. exact (Hn _ _ _ _ _ _ _ _ Heq).
Qed.

Lemma no_stale_send_cons_send (h' : handle) (p' : string) (ok : bool) (l : list event) :
  no_stale_send l ->
  created_since_failures h' l ->
  no_stale_send (EvSend h' p' ok :: l).
Proof.
  intros Hn Hc l3 h1 p1 ok1 l2 h p l1 Heq.
  destruct l3 as [|ev' l3]; cbn [app] in Heq.
  - injection Heq as <- <- <- Heq. exact (Hc _ _ _ _ Heq).
  - injection Heq as _ Heq. exact (Hn _ _ _ _ _ _ _ _ Heq).
Qed.

Lemma sends_below_cons_quiet (n : handle) (ev : event) (l : list event) :
  sends_below n l -> is_send ev = false -> sends_below n (ev :: l).
Proof.
  intros Hb Hev h p ok [->|Hin]; [discriminate Hev|exact (Hb _ _ _ Hin)].
Qed.

Lemma sends_below_mono (n m : handle) (l : list event) :
  sends_below n l -> (n <= m)%nat -> sends_below m l.
Proof. intros Hb Hnm h p ok Hin. specialize (Hb _ _ _ Hin). lia. Qed.

Lemma handle_invariant_quiet n w ev l :
  handle_invariant n w l -> is_send ev = false -> handle_invariant n w (ev :: l).
Proof.
  intros (Hb & Hn & Hw) Hev. split; [|split].
  - apply sends_below_cons_quiet; assumption.
  - apply no_stale_send_cons_quiet; assumption.
  - intros h Hh. destruct (Hw h Hh) as [Hlt Hc]. split; [exact Hlt|].
    apply created_since_failures_cons; [exact Hc|].
    intros hf p ->. discriminate Hev.
Qed.

Lemma handle_invariant_clear n w l :
  handle_invariant n w l -> handle_invariant n None l.
Proof.
  intros (Hb & Hn & _). split; [exact Hb|split; [exact Hn|]].
  intros h Hh. discriminate Hh.
Qed.

Lemma handle_invariant_send_ok n h p l :
  handle_invariant n (Some h) l ->
  handle_invariant n (Some h) (EvSend h p true :: l).
Proof.
  intros (Hb & Hn & Hw). destruct (Hw h eq_refl) as [Hlt Hc].
  split; [|split].
  - intros h1 p1 ok1 [Heq|Hin]; [injection Heq as <- _ _; exact Hlt|exact (Hb _ _ _ Hin)].
  - apply no_stale_send_cons_send; assumption.
  - intros h1 Hh1. injection Hh1 as <-. split; [exact Hlt|].
    apply created_since_failures_cons; [exact Hc|]. intros hf p0 Heq. discriminate Heq.
Qed.

Lemma handle_invariant_send_failed n h p l :
  handle_invariant n (Some h) l ->
  handle_invariant n None (EvSend h p false :: l).
Proof.
  intros (Hb & Hn & Hw). destruct (Hw h eq_refl) as [Hlt Hc].
  split; [|split].
  - intros h1 p1 ok1 [Heq|Hin]; [injection Heq as <- _ _; exact Hlt|exact (Hb _ _ _ Hin)].
  - apply no_stale_send_cons_send; assumption.
  - intros h1 Hh1. discriminate Hh1.
Qed.

Lemma handle_invariant_create n w ok l :
  handle_invariant n w l ->
  handle_invariant (S n) (Some n) (EvSetTimeout n ok :: EvCreate (Some n) :: l).
Proof.
  intros (Hb & Hn & _). split; [|split].
  - apply sends_below_cons_quiet; [|reflexivity].
    apply sends_below_cons_quiet; [|reflexivity].
    apply sends_below_mono with n; [exact Hb|lia].
  - apply no_stale_send_cons_quiet; [|reflexivity].
    apply no_stale_send_cons_quiet; [|reflexivity]. exact Hn.
  - intros h Hh. injection Hh as <-. split; [lia|].
    apply created_since_failures_cons; [|intros hf p Heq; discriminate Heq].
    apply created_since_failures_fresh. exact Hb.
Qed.


(** *** Triples of the primitives *)

Lemma hoare_ret {A : Type} (P : sys -> Prop) (a : A) :
  hoare P (ret a) (fun _ s => P s).
Proof. intros s Hs. exact Hs. Qed.

Lemma hoare_bind {A B : Type} (P : sys -> Prop) (Q : A -> sys -> Prop)
      (R : B -> sys -> Prop) (c : M A) (k : A -> M B) :
  hoare P c Q -> (forall a, hoare (Q a) (k a) R) -> hoare P (bind c k) R.
Proof.
  intros Hc Hk s Hs. unfold bind. specialize (Hc s Hs).
  destruct (c s) as [[a|] s1]; [exact (Hk a s1 Hc)|exact Hc].
Qed.

Lemma hoare_weaken {A : Type} (P P' : sys -> Prop) (Q Q' : A -> sys -> Prop) (c : M A) :
  hoare P' c Q' -> (forall s, P s -> P' s) -> (forall a s, Q' a s -> Q a s) ->
  hoare P c Q.
Proof.
  intros Hc HP HQ s Hs. specialize (Hc s (HP s Hs)).
  destruct (c s) as [[a|] s1]; [exact (HQ a s1 Hc)|exact Hc].
Qed.

Lemma hoare_read {A : Type} (P : sys -> Prop) (f : sys -> A) :
  hoare P (read f) (fun a s => P s /\ a = f s).
Proof. intros s Hs. cbn. auto. Qed.

Lemma hoare_emit_sender (ev : event) :
  is_send ev = false ->
  hoare sender_invariant (emit ev) (fun _ => sender_invariant).
Proof. intros Hev s Hs. apply handle_invariant_quiet; assumption. Qed.

Lemma hoare_emit_log (ev : event) :
  is_send ev = false ->
  hoare log_invariant (emit ev) (fun _ => log_invariant).
Proof. intros Hev s Hs. apply handle_invariant_quiet; assumption. Qed.

Lemma hoare_clear_ws :
  hoare log_invariant clear_ws (fun _ => sender_invariant).
Proof. intros s Hs. apply handle_invariant_quiet; [exact Hs|reflexivity]. Qed.

Lemma hoare_wait (ev : event) :
  is_send ev = false ->
  hoare sender_invariant (wait ev) (fun _ => sender_invariant).
Proof. intros Hev s Hs. apply handle_invariant_quiet; assumption. Qed.

Lemma hoare_ws_send (payload : string) :
  hoare sender_invariant (ws_send payload)
        (fun ok s => if ok then sender_invariant s else log_invariant s).
Proof.
  intros s Hs. unfold ws_send, sender_invariant in *.
  destruct (ws (self s)) as [h|] eqn:Hws; [|exact Hs].
  destruct (sends (env s)) as [|[|still] rest]; [rewrite Hws; exact Hs| |].
  - cbn. rewrite Hws. apply handle_invariant_send_ok. exact Hs.
  - apply handle_invariant_send_failed. exact Hs.
Qed.

Lemma hoare_create_connection :
  hoare sender_invariant create_connection (fun _ => sender_invariant).
Proof.
  intros s Hs. unfold create_connection, sender_invariant in *.
  destruct (creates (env s)) as [|[| |] rest]; [exact Hs| | |].
  - exact (handle_invariant_create _ _ true _ Hs).
  - apply handle_invariant_quiet; [exact Hs|reflexivity].
  - exact (handle_invariant_create _ _ false _ Hs).
Qed.

Lemma hoare_connect_loop (fuel : nat) (attempt : Z) :
  hoare sender_invariant (connect_loop fuel attempt) (fun _ => sender_invariant).
Proof.
  revert attempt; induction fuel as [|fuel IH]; intros attempt.
  - intros s Hs. exact Hs.
  - cbn [connect_loop].
    eapply hoare_bind; [apply hoare_read|]. intros stop.
    destruct stop.
    { intros s [Hs _]. exact Hs. }
    eapply hoare_bind.
    { eapply hoare_weaken; [apply (hoare_emit_sender EvLock); reflexivity| |].
      - intros s [Hs _]. exact Hs.
      - intros a s Hs. exact Hs. }
    intros ?. eapply hoare_bind; [apply hoare_create_connection|]. intros ok.
    eapply hoare_bind; [apply (hoare_emit_sender EvUnlock); reflexivity|]. intros ?.
    destruct ok.
    { intros s Hs. exact Hs. }
    eapply hoare_bind; [apply hoare_wait; reflexivity|]. intros ?. apply IH.
Qed.

Lemma hoare_connect_websocket :
  hoare sender_invariant _connect_websocket (fun _ => sender_invariant).
Proof.
  intros s Hs. unfold _connect_websocket.
  pose proof (hoare_bind sender_invariant (fun _ => sender_invariant)
                (fun _ => sender_invariant)
                (connect_loop (S (List.length (creates (env s)))) 0)
                (fun _ => ret tt) (hoare_connect_loop _ _)
                (fun _ => hoare_ret _ tt) s Hs) as H.
  exact H.
Qed.

Lemma hoare_send_message (message : json) :
  hoare sender_invariant (_send_message message) (fun _ => sender_invariant).
Proof.
  unfold _send_message.
  eapply hoare_bind; [apply hoare_read|]. intros unusable.
  eapply hoare_bind with (Q := fun _ => sender_invariant).
  { destruct unusable.
    - eapply hoare_bind.
      { eapply hoare_weaken; [apply hoare_connect_websocket| |].
        - intros s [Hs _]. exact Hs.
        - intros a s Hs. exact Hs. }
      intros ?. eapply hoare_bind; [apply hoare_read|]. intros b.
      intros s [Hs _]. exact Hs.
    - intros s [Hs _]. exact Hs. }
  intros proceed. destruct (negb proceed).
  { intros s Hs. exact Hs. }
  eapply hoare_bind; [apply (hoare_emit_sender EvLock); reflexivity|]. intros ?.
  eapply hoare_bind; [apply hoare_ws_send|]. intros ok. destruct ok.
  - eapply hoare_bind; [apply (hoare_emit_sender EvUnlock); reflexivity|]. intros ?.
    intros s Hs. exact Hs.
  - eapply hoare_bind; [apply (hoare_emit_log EvUnlock); reflexivity|]. intros ?.
    eapply hoare_bind; [apply (hoare_emit_log EvLock); reflexivity|]. intros ?.
    eapply hoare_bind; [apply hoare_clear_ws|]. intros ?.
    eapply hoare_bind; [apply (hoare_emit_sender EvUnlock); reflexivity|]. intros ?.
    apply hoare_connect_websocket.
Qed.

Lemma hoare_queue_get :
  hoare sender_invariant queue_get (fun _ => sender_invariant).
Proof.
  intros s Hs. unfold queue_get.
  destruct (message_queue (self s)) as [|m rest].
  - apply handle_invariant_quiet; [exact Hs|reflexivity].
  - exact Hs.
Qed.

Lemma hoare_process_messages (rounds : nat) :
  hoare sender_invariant (_process_messages rounds) (fun _ => sender_invariant).
Proof.
  induction rounds as [|rounds IH].
  - intros s Hs. exact Hs.
  - cbn [_process_messages].
    eapply hoare_bind; [apply hoare_read|]. intros stop. destruct stop.
    { intros s [Hs _]. exact Hs. }
    eapply hoare_bind.
    { eapply hoare_weaken; [apply hoare_queue_get| |].
      - intros s [Hs _]. exact Hs.
      - intros a s Hs. exact Hs. }
    intros [message|]; [|exact IH].
    eapply hoare_bind; [apply hoare_send_message|]. intros ?. exact IH.
Qed.

Lemma sender_invariant_initially (s : sys) :
  log s = [] ->
  (forall h, ws (self s) = Some h -> (h < next_handle s)%nat) ->
  sender_invariant s.
Proof.
  intros Hlog Hws. unfold sender_invariant, handle_invariant. rewrite Hlog.
  split; [|split].
  - intros h p ok [].
  - intros l3 h' p' ok l2 h p l1 Heq. destruct l3; discriminate Heq.
  - intros h Hh. split; [exact (Hws h Hh)|].
    intros l2 hf p l1 Heq. destruct l2; discriminate Heq.
Qed.

Ltac run_thread :=
  unfold bind, read, ret, running, emit, clear_ws, ws_send, sleep, wait,
    ws_unusable, with_log, with_env, with_self, set_connected;
  cbn.

(** ** The two threads together *)

(** *** A thread run alone is the method of the sequential model *)

Lemma bind_ext {A B : Type} (c : M A) (k k' : A -> M B) (s : sys) :
  (forall a s', k a s' = k' a s') -> bind c k s = bind c k' s.
Proof. intros H. unfold bind. destruct (c s) as [[a|] s']; [apply H|reflexivity]. Qed.

Lemma bind_cong {A B : Type} (c c' : M A) (k k' : A -> M B) (s : sys) :
  c s = c' s -> (forall a s', k a s' = k' a s') -> bind c k s = bind c' k' s.
Proof. intros Hc Hk. unfold bind. rewrite Hc. destruct (c' s) as [[a|] s']; [apply Hk|reflexivity]. Qed.

Lemma bind_assoc {A B C : Type} (c : M A) (k : A -> M B) (k' : B -> M C) (s : sys) :
  bind (bind c k) k' s = bind c (fun a => bind (k a) k') s.
Proof. unfold bind. destruct (c s) as [[a|] s']; reflexivity. Qed.

Lemma bind_ret {A : Type} (c : M A) (s : sys) : bind c (fun a => ret a) s = c s.
Proof. unfold bind, ret. destruct (c s) as [[a|] s']; reflexivity. Qed.

Lemma run_tbind {A B : Type} (t : thread A) (f : A -> thread B) (s : sys) :
  run (tbind t f) s = bind (run t) (fun a => run (f a)) s.
Proof.
  revert s; induction t as [a|C c k IH|k IH|k IH]; intros s; cbn [tbind run].
  - reflexivity.
  - rewrite bind_assoc. apply bind_ext. intros b s'. apply IH.
  - rewrite bind_assoc. apply bind_ext. intros b s'. apply IH.
  - rewrite bind_assoc. apply bind_ext. intros b s'. apply IH.
Qed.

Lemma run_one {A : Type} (c : M A) (s : sys) : run (one c) s = c s.
Proof. unfold one. cbn [run]. apply bind_ret. Qed.

Lemma bind_one {A B : Type} (c : M A) (f : A -> thread B) (k : A -> M B) (s : sys) :
  (forall a s', run (f a) s' = k a s') ->
  run (tbind (one c) f) s = bind c k s.
Proof. intros H. cbn [one tbind run]. apply bind_ext. exact H. Qed.

Lemma bind_acquire {B : Type} (t : thread B) (k : M B) (s : sys) :
  (forall s', run t s' = k s') ->
  run (tbind acquire (fun _ => t)) s = bind (emit EvLock) (fun _ => k) s.
Proof. intros H. cbn [acquire tbind run]. apply bind_ext. intros _. exact H. Qed.

Lemma bind_release {B : Type} (t : thread B) (k : M B) (s : sys) :
  (forall s', run t s' = k s') ->
  run (tbind release (fun _ => t)) s = bind (emit EvUnlock) (fun _ => k) s.
Proof. intros H. cbn [release tbind run]. apply bind_ext. intros _. exact H. Qed.

Lemma run_connect_loop_steps (fuel : nat) (attempt : Z) (s : sys) :
  run (connect_loop_steps fuel attempt) s = connect_loop fuel attempt s.
Proof.
  revert attempt s; induction fuel as [|fuel IH]; intros attempt s;
    cbn [connect_loop_steps connect_loop].
  - apply run_one.
  - apply bind_one. intros stop s1. destruct stop; [reflexivity|].
    apply bind_acquire. intros s2. apply bind_one. intros ok s3.
    apply bind_release. intros s4. destruct ok; [reflexivity|].
    apply bind_one. intros _ s5. apply IH.
Qed.

Lemma run_connect_websocket_steps (s : sys) :
  run _connect_websocket_steps s = _connect_websocket s.
Proof.
  unfold _connect_websocket_steps, _connect_websocket.
  cbn [one tbind run]. unfold bind at 1, read.
  rewrite run_tbind. apply bind_cong; [apply run_connect_loop_steps|].
  intros a s'. reflexivity.
Qed.

Lemma run_send_heartbeat_steps (s : sys) :
  run _send_heartbeat_steps s = _send_heartbeat s.
Proof.
  unfold _send_heartbeat_steps, _send_heartbeat.
  apply bind_one. intros unusable s1. destruct unusable; [reflexivity|].
  apply bind_acquire. intros s2. apply bind_one. intros ok s3.
  apply bind_release. intros s4. destruct ok; [reflexivity|].
  apply bind_acquire. intros s5. apply bind_one. intros _ s6. reflexivity.
Qed.

Lemma run_manage_tick_steps (s : sys) : run manage_tick_steps s = manage_tick s.
Proof.
  unfold manage_tick_steps, manage_tick.
  apply bind_one. intros unusable s1. rewrite run_tbind. apply bind_cong.
  - destruct unusable;
      [apply run_connect_websocket_steps|apply run_send_heartbeat_steps].
  - intros _ s2. apply run_one.
Qed.

Lemma run_manage_websocket_steps (ticks : nat) (s : sys) :
  run (_manage_websocket_steps ticks) s = _manage_websocket ticks s.
Proof.
  revert s; induction ticks as [|ticks IH]; intros s;
    cbn [_manage_websocket_steps _manage_websocket].
  - apply run_one.
  - apply bind_one. intros stop s1. destruct stop; [reflexivity|].
    rewrite run_tbind. apply bind_cong; [apply run_manage_tick_steps|].
    intros _ s2. apply IH.
Qed.

Lemma run_send_message_steps (message : json) (s : sys) :
  run (_send_message_steps message) s = _send_message message s.
Proof.
  unfold _send_message_steps, _send_message.
  apply bind_one. intros unusable s1.
  rewrite run_tbind.
  assert (Hfirst : forall s',
             run (if unusable
                  then tbind _connect_websocket_steps
                         (fun _ => tbind (one (read ws_unusable))
                                     (fun still_unusable => Done (negb still_unusable)))
                  else Done true) s'
             = (if unusable
                then bind _connect_websocket
                       (fun _ => bind (read ws_unusable)
                                   (fun still_unusable => ret (negb still_unusable)))
                else ret true) s').
  { intros s'. destruct unusable; [|reflexivity].
    rewrite run_tbind. apply bind_cong; [apply run_connect_websocket_steps|].
    intros _ s''. reflexivity. }
  apply bind_cong; [apply Hfirst|]. intros proceed s2.
  destruct (negb proceed); [reflexivity|].
  apply bind_acquire. intros s3. apply bind_one. intros ok s4.
  apply bind_release. intros s5. destruct ok; [reflexivity|].
  apply bind_acquire. intros s6. apply bind_one. intros _ s7.
  apply bind_release. intros s8. apply run_connect_websocket_steps.
Qed.

Lemma run_process_messages_steps (rounds : nat) (s : sys) :
  run (_process_messages_steps rounds) s = _process_messages rounds s.
Proof.
  revert s; induction rounds as [|rounds IH]; intros s;
    cbn [_process_messages_steps _process_messages].
  - apply run_one.
  - apply bind_one. intros stop s1. destruct stop; [reflexivity|].
    apply bind_one. intros got s2. destruct got as [message|]; [|apply IH].
    rewrite run_tbind. apply bind_cong; [apply run_send_message_steps|].
    intros _ s3. apply IH.
Qed.

(** *** The assertions of the sender thread *)

Lemma app_split_before {A : Type} (evs l l2 l1 : list A) (x : A) :
  evs ++ l = l2 ++ x :: l1 -> ~ In x evs ->
  exists l2', l2 = evs ++ l2' /\ l = l2' ++ x :: l1.
Proof.
  revert l2; induction evs as [|e evs IH]; intros l2 Heq Hnot.
  - exists l2. auto.
  - destruct l2 as [|b l2]; cbn in Heq; injection Heq as Hhead Htail.
    + contradiction Hnot. left. exact Hhead.
    + subst b. destruct (IH l2 Htail) as (l2' & -> & Hl).
      * intros Hin. apply Hnot. right. exact Hin.
      * exists l2'. auto.
Qed.

Lemma new_events_app (s s' : sys) (evs : list event) :
  log s' = evs ++ log s -> new_events s s' = evs.
Proof.
  unfold new_events. intros ->. rewrite length_app.
  replace (List.length evs + List.length (log s) - List.length (log s))%nat
    with (List.length evs) by lia.
  rewrite firstn_app, firstn_all, Nat.sub_diag, firstn_O. apply app_nil_r.
Qed.

Lemma no_stale_extend (tevs l : list (bool * event)) :
  quiet_events tevs -> no_stale_data_send l -> no_stale_data_send (tevs ++ l).
Proof.
  intros Hq Hl l3 h' p' ok l2 h p l1 Heq.
  destruct (app_split_before _ _ _ _ _ Heq (Hq _ _ _)) as (l3' & -> & Hl').
  exact (Hl _ _ _ _ _ _ _ _ Hl').
Qed.

Lemma created_extend (tevs l : list (bool * event)) (h : handle) :
  (forall hf p, ~ In (false, EvSend hf p false) tevs) ->
  created_since_data_failures h l -> created_since_data_failures h (tevs ++ l).
Proof.
  intros Hq Hl l2 hf p l1 Heq.
  destruct (app_split_before _ _ _ _ _ Heq (Hq _ _)) as (l2' & -> & Hl').
  destruct (Hl _ _ _ _ Hl') as [Hne (who & Hin)].
  split; [exact Hne|]. exists who. apply in_or_app. right. exact Hin.
Qed.

Lemma below_extend (tevs l : list (bool * event)) (n m : handle) :
  quiet_events tevs -> (n <= m)%nat ->
  data_sends_below n l -> data_sends_below m (tevs ++ l).
Proof.
  intros Hq Hnm Hl h p ok Hin. apply in_app_or in Hin.
  destruct Hin as [Hin|Hin]; [contradiction (Hq _ _ _ Hin)|].
  specialize (Hl _ _ _ Hin). lia.
Qed.

Lemma assertion_weaken (steady : bool) (s : sys) (l : list (bool * event)) :
  sender_assertion true s l -> sender_assertion steady s l.
Proof.
  intros (Hb & Hs & Hw). split; [exact Hb|]. split; [exact Hs|].
  intros _. apply Hw. reflexivity.
Qed.

(** Events other than the sender's sends, with the handle as it was. *)
Lemma assertion_extend (steady : bool) (s s' : sys) (l tevs : list (bool * event)) :
  quiet_events tevs ->
  next_handle s' = next_handle s ->
  ws (self s') = ws (self s) ->
  sender_assertion steady s l -> sender_assertion steady s' (tevs ++ l).
Proof.
  intros Hq Hn Hws (Hb & Hs & Hw). unfold sender_assertion. rewrite Hn, Hws. split; [|split].
  - apply (below_extend _ _ (next_handle s)); auto.
  - apply no_stale_extend; assumption.
  - intros Hsteady h Hh. destruct (Hw Hsteady h Hh) as [Hlt Hc].
    split; [exact Hlt|]. apply created_extend; [|exact Hc].
    intros hf p. apply Hq.
Qed.

(** The handle is cleared. *)
Lemma assertion_cleared (steady : bool) (s s' : sys) (l tevs : list (bool * event)) :
  quiet_events tevs ->
  next_handle s' = next_handle s ->
  ws (self s') = None ->
  sender_assertion steady s l -> sender_assertion true s' (tevs ++ l).
Proof.
  intros Hq Hn Hws (Hb & Hs & _). unfold sender_assertion. rewrite Hn, Hws. split; [|split].
  - apply (below_extend _ _ (next_handle s)); auto.
  - apply no_stale_extend; assumption.
  - intros _ h Hh. discriminate Hh.
Qed.

(** A new connection is assigned. *)
Lemma assertion_created (who steady ok : bool) (s s' : sys) (l : list (bool * event)) :
  next_handle s' = S (next_handle s) ->
  ws (self s') = Some (next_handle s) ->
  sender_assertion steady s l ->
  sender_assertion true s'
    ((who, EvSetTimeout (next_handle s) ok)
       :: (who, EvCreate (Some (next_handle s))) :: l).
Proof.
  intros Hn Hws (Hb & Hs & _).
  assert (Hq : quiet_events [(who, EvSetTimeout (next_handle s) ok);
                             (who, EvCreate (Some (next_handle s)))]).
  { intros h p ok' [H|[H|[]]]; discriminate H. }
  unfold sender_assertion. rewrite Hn, Hws. split; [|split].
  - apply (below_extend [_; _] _ (next_handle s)); auto.
  - apply (no_stale_extend [_; _]); assumption.
  - intros _ h Hh. injection Hh as <-. split; [lia|].
    intros l2 hf p l1 Heq.
    destruct (app_split_before [_; _] _ _ _ _ Heq (Hq _ _ _)) as (l2' & -> & Hl).
    split.
    + assert (Hlt : (hf < next_handle s)%nat).
      { apply (Hb hf p false). rewrite Hl. apply in_or_app. right. left. reflexivity. }
      lia.
    + exists who. right. left. reflexivity.
Qed.

(** The sender sends over the current handle. *)
Lemma assertion_sent (ok : bool) (s s' : sys) (l : list (bool * event))
      (h : handle) (p : string) :
  ws (self s) = Some h ->
  next_handle s' = next_handle s ->
  ws (self s') = ws (self s) ->
  sender_assertion true s l ->
  sender_assertion ok s' ((false, EvSend h p ok) :: l).
Proof.
  intros Hh Hn Hws (Hb & Hs & Hw). destruct (Hw eq_refl h Hh) as [Hlt Hc].
  unfold sender_assertion. rewrite Hn, Hws. split; [|split].
  - intros h0 p0 ok0 [Heq|Hin]; [injection Heq as <- _ _; exact Hlt|].
    exact (Hb _ _ _ Hin).
  - intros l3 h' p' ok' l2 hf pf l1 Heq. destruct l3 as [|e l3]; cbn in Heq.
    + injection Heq as <- _ _ Hl. exact (Hc _ _ _ _ Hl).
    + injection Heq as _ Hl. exact (Hs _ _ _ _ _ _ _ _ Hl).
  - intros -> h0 Hh0. rewrite Hh in Hh0. injection Hh0 as <-.
    split; [exact Hlt|].
    apply (created_extend [(false, EvSend h p true)]); [|exact Hc].
    intros h1 p1 [H|[]]. discriminate H.
Qed.

(** *** The statements, one by one *)

Lemma preserves_read {A : Type} (who : bool) (f : sys -> A) (pre : bool) :
  preserves who (read f) pre (fun _ => pre).
Proof.
  intros s l Hs. unfold read. rewrite (new_events_app s s []) by reflexivity.
  exact Hs.
Qed.

Lemma preserves_running {A : Type} (who : bool) (pre : bool) (post : A -> bool) :
  preserves who (@running A) pre post.
Proof.
  intros s l Hs. unfold running. rewrite (new_events_app s s []) by reflexivity.
  exact Hs.
Qed.

Lemma preserves_wait (who : bool) (ev : event) (pre : bool) :
  (forall h p ok, ev <> EvSend h p ok) ->
  preserves who (wait ev) pre (fun _ => pre).
Proof.
  intros Hev s l Hs. unfold wait.
  rewrite (new_events_app s _ [ev]) by reflexivity.
  apply (assertion_extend pre s _ l [(who, ev)]); try reflexivity; [|exact Hs].
  intros h p ok [H|[]]. injection H as _ H. exact (Hev _ _ _ H).
Qed.

Lemma preserves_sleep (who : bool) (seconds : Z) (pre : bool) :
  preserves who (sleep seconds) pre (fun _ => pre).
Proof. apply preserves_wait. discriminate. Qed.

Lemma preserves_queue_get (who : bool) (pre : bool) :
  preserves who queue_get pre (fun _ => pre).
Proof.
  intros s l Hs. unfold queue_get.
  destruct (message_queue (self s)) as [|m rest].
  - pose proof (preserves_wait who EvQueueWait pre ltac:(discriminate) s l Hs) as H.
    unfold bind, ret. destruct (wait EvQueueWait s) as [[[]|] s'] eqn:Hw;
      [exact H|discriminate Hw].
  - rewrite (new_events_app s _ []) by reflexivity.
    apply (assertion_extend pre s _ l []); try reflexivity; [|exact Hs].
    intros h p ok [].
Qed.

Lemma preserves_clear (who : bool) (pre : bool) :
  preserves who clear_ws pre (fun _ => true).
Proof.
  intros s l Hs. unfold clear_ws.
  rewrite (new_events_app s _ [EvClear]) by reflexivity.
  apply (assertion_cleared pre s _ l [(who, EvClear)]); try reflexivity; [|exact Hs].
  intros h p ok [H|[]]. discriminate H.
Qed.

Lemma preserves_create (who : bool) (pre : bool) :
  preserves who create_connection pre (fun _ => pre).
Proof.
  intros s l Hs. unfold create_connection.
  destruct (creates (env s)) as [|r rest].
  - rewrite (new_events_app s s []) by reflexivity. exact Hs.
  - destruct r.
    + rewrite (new_events_app s _ [EvSetTimeout (next_handle s) true;
                                   EvCreate (Some (next_handle s))]) by reflexivity.
      apply assertion_weaken.
      apply (assertion_created who pre true s _ l); try reflexivity. exact Hs.
    + rewrite (new_events_app s _ [EvCreate None]) by reflexivity.
      apply (assertion_extend pre s _ l [(who, EvCreate None)]); try reflexivity;
        [|exact Hs].
      intros h p ok [H|[]]. discriminate H.
    + rewrite (new_events_app s _ [EvSetTimeout (next_handle s) false;
                                   EvCreate (Some (next_handle s))]) by reflexivity.
      apply assertion_weaken.
      apply (assertion_created who pre false s _ l); try reflexivity. exact Hs.
Qed.

(** A send of the sender thread: from a steady place only, and steady
    afterwards exactly when the send went through. *)
Lemma preserves_data_send (payload : string) :
  preserves false (ws_send payload) true (fun ok => ok).
Proof.
  intros s l Hs. unfold ws_send.
  destruct (ws (self s)) as [h|] eqn:Hws.
  2:{ rewrite (new_events_app s s []) by reflexivity.
      apply assertion_weaken. exact Hs. }
  destruct (sends (env s)) as [|r rest].
  - rewrite (new_events_app s s []) by reflexivity. exact Hs.
  - destruct r as [|still].
    + rewrite (new_events_app s _ [EvSend h payload true]) by reflexivity.
      apply (assertion_sent true s _ l h payload Hws); try reflexivity. exact Hs.
    + rewrite (new_events_app s _ [EvSend h payload false]) by reflexivity.
      apply (assertion_sent false s _ l h payload Hws); try reflexivity. exact Hs.
Qed.

(** A send of the supervisory thread. *)
Lemma preserves_heartbeat_send (payload : string) (pre : bool) :
  preserves true (ws_send payload) pre (fun _ => pre).
Proof.
  intros s l Hs. unfold ws_send.
  destruct (ws (self s)) as [h|] eqn:Hws.
  2:{ rewrite (new_events_app s s []) by reflexivity. exact Hs. }
  destruct (sends (env s)) as [|r rest].
  - rewrite (new_events_app s s []) by reflexivity. exact Hs.
  - destruct r as [|still].
    + rewrite (new_events_app s _ [EvSend h payload true]) by reflexivity.
      apply (assertion_extend pre s _ l [(true, EvSend h payload true)]);
        try reflexivity; [|exact Hs].
      intros h0 p0 ok0 [H|[]]. discriminate H.
    + rewrite (new_events_app s _ [EvSend h payload false]) by reflexivity.
      apply (assertion_extend pre s _ l [(true, EvSend h payload false)]);
        try reflexivity; [|exact Hs].
      intros h0 p0 ok0 [H|[]]. discriminate H.
Qed.

(** *** The sender thread *)

Lemma covers_tbind {A B : Type} (t : thread A) (f : A -> thread B)
      (steady : bool) (mid : A -> bool) (final : B -> bool) :
  covers t steady mid -> (forall a, covers (f a) (mid a) final) ->
  covers (tbind t f) steady final.
Proof.
  revert steady; induction t as [a|C c k IH|k IH|k IH]; intros steady Ht Hf;
    cbn [tbind covers] in *.
  - subst steady. apply Hf.
  - destruct Ht as (post & Hc & Hk). exists post. split; [exact Hc|].
    intros b. apply IH; [apply Hk|exact Hf].
  - apply IH; assumption.
  - apply IH; assumption.
Qed.

Lemma covers_one {A : Type} (c : M A) (steady : bool) (post : A -> bool) :
  preserves false c steady post -> covers (one c) steady post.
Proof. intros Hc. exists post. split; [exact Hc|]. intros b. reflexivity. Qed.

Lemma covers_acquire (steady : bool) : covers acquire steady (fun _ => steady).
Proof. reflexivity. Qed.

Lemma covers_release (steady : bool) : covers release steady (fun _ => steady).
Proof. reflexivity. Qed.

Ltac cover :=
  repeat first
    [ apply covers_tbind with (mid := fun _ => true); [|intros ?]
    | apply covers_acquire
    | apply covers_release
    | apply covers_one; first
        [ apply preserves_read | apply preserves_running | apply preserves_sleep
        | apply preserves_queue_get | apply preserves_clear
        | apply preserves_create ]
    | reflexivity ].

Lemma covers_connect_loop (fuel : nat) (attempt : Z) :
  covers (connect_loop_steps fuel attempt) true (fun _ => true).
Proof.
  revert attempt; induction fuel as [|fuel IH]; intros attempt;
    cbn [connect_loop_steps].
  - cover.
  - apply covers_tbind with (mid := fun _ => true); [cover|]. intros stop.
    destruct stop; [reflexivity|].
    apply covers_tbind with (mid := fun _ => true); [cover|]. intros _.
    apply covers_tbind with (mid := fun _ => true); [cover|]. intros ok.
    apply covers_tbind with (mid := fun _ => true); [cover|]. intros _.
    destruct ok; [reflexivity|].
    apply covers_tbind with (mid := fun _ => true); [cover|]. intros _. apply IH.
Qed.

Lemma covers_connect_websocket :
  covers _connect_websocket_steps true (fun _ => true).
Proof.
  unfold _connect_websocket_steps.
  apply covers_tbind with (mid := fun _ => true); [cover|]. intros fuel.
  apply covers_tbind with (mid := fun _ => true); [apply covers_connect_loop|].
  intros _. reflexivity.
Qed.

Lemma covers_send_message (message : json) :
  covers (_send_message_steps message) true (fun _ => true).
Proof.
  unfold _send_message_steps.
  apply covers_tbind with (mid := fun _ => true); [cover|]. intros unusable.
  apply covers_tbind with (mid := fun _ => true).
  { destruct unusable; [|reflexivity].
    apply covers_tbind with (mid := fun _ => true); [apply covers_connect_websocket|].
    intros _. apply covers_tbind with (mid := fun _ => true); [cover|].
    intros still. reflexivity. }
  intros proceed. destruct (negb proceed); [reflexivity|].
  apply covers_tbind with (mid := fun _ => true); [cover|]. intros _.
  apply covers_tbind with (mid := fun ok : bool => ok).
  { apply covers_one, preserves_data_send. }
  intros ok.
  apply covers_tbind with (mid := fun _ => ok); [apply covers_release|]. intros _.
  destruct ok; [reflexivity|].
  apply covers_tbind with (mid := fun _ => false); [apply covers_acquire|]. intros _.
  apply covers_tbind with (mid := fun _ => true);
    [apply covers_one, preserves_clear|]. intros _.
  apply covers_tbind with (mid := fun _ => true); [apply covers_release|]. intros _.
  apply covers_connect_websocket.
Qed.

Lemma covers_process_messages (rounds : nat) :
  covers (_process_messages_steps rounds) true (fun _ => true).
Proof.
  induction rounds as [|rounds IH]; cbn [_process_messages_steps].
  - cover.
  - apply covers_tbind with (mid := fun _ => true); [cover|]. intros stop.
    destruct stop; [reflexivity|].
    apply covers_tbind with (mid := fun _ => true); [cover|]. intros got.
    destruct got as [message|]; [|exact IH].
    apply covers_tbind with (mid := fun _ => true); [apply covers_send_message|].
    intros _. exact IH.
Qed.

(** *** The supervisory thread *)

Lemma benign_tbind {A B : Type} (t : thread A) (f : A -> thread B) :
  benign t -> (forall a, benign (f a)) -> benign (tbind t f).
Proof.
  induction t as [a|C c k IH|k IH|k IH]; intros Ht Hf; cbn [tbind benign] in *.
  - apply Hf.
  - destruct Ht as [Hc Hk]. split; [exact Hc|]. intros b. apply IH; [apply Hk|exact Hf].
  - apply IH; assumption.
  - apply IH; assumption.
Qed.

Lemma benign_one {A : Type} (c : M A) :
  (forall steady, preserves true c steady (fun _ => steady)) -> benign (one c).
Proof. intros Hc. split; [exact Hc|]. intros b. exact I. Qed.

Lemma preserves_supervisor_clear (pre : bool) :
  preserves true clear_ws pre (fun _ => pre).
Proof.
  intros s l Hs. pose proof (preserves_clear true pre s l Hs) as H.
  destruct (clear_ws s) as [[[]|] s']; [apply assertion_weaken; exact H|exact H].
Qed.

Ltac harmless :=
  repeat first
    [ apply benign_tbind; [|intros ?]
    | apply benign_one; intros ?; first
        [ apply preserves_read | apply preserves_running | apply preserves_sleep
        | apply preserves_create | apply preserves_heartbeat_send
        | apply preserves_supervisor_clear ]
    | exact I ].

Lemma benign_connect_loop (fuel : nat) (attempt : Z) :
  benign (connect_loop_steps fuel attempt).
Proof.
  revert attempt; induction fuel as [|fuel IH]; intros attempt;
    cbn [connect_loop_steps].
  - harmless.
  - apply benign_tbind; [harmless|]. intros stop. destruct stop; [exact I|].
    apply benign_tbind; [exact I|]. intros _.
    apply benign_tbind; [harmless|]. intros ok.
    apply benign_tbind; [exact I|]. intros _. destruct ok; [exact I|].
    apply benign_tbind; [harmless|]. intros _. apply IH.
Qed.

Lemma benign_connect_websocket : benign _connect_websocket_steps.
Proof.
  unfold _connect_websocket_steps. apply benign_tbind; [harmless|]. intros fuel.
  apply benign_tbind; [apply benign_connect_loop|]. intros _. exact I.
Qed.

Lemma benign_send_heartbeat : benign _send_heartbeat_steps.
Proof.
  unfold _send_heartbeat_steps. apply benign_tbind; [harmless|]. intros unusable.
  destruct unusable; [exact I|].
  apply benign_tbind; [exact I|]. intros _.
  apply benign_tbind; [harmless|]. intros ok.
  apply benign_tbind; [exact I|]. intros _. destruct ok; [exact I|].
  apply benign_tbind; [exact I|]. intros _.
  apply benign_tbind; [harmless|]. intros _. exact I.
Qed.

Lemma benign_manage_websocket (ticks : nat) : benign (_manage_websocket_steps ticks).
Proof.
  induction ticks as [|ticks IH]; cbn [_manage_websocket_steps].
  - harmless.
  - apply benign_tbind; [harmless|]. intros stop. destruct stop; [exact I|].
    apply benign_tbind; [|intros _; exact IH].
    unfold manage_tick_steps. apply benign_tbind; [harmless|]. intros unusable.
    apply benign_tbind; [|intros _; harmless].
    destruct unusable; [apply benign_connect_websocket|apply benign_send_heartbeat].
Qed.

(** *** Every interleaving *)

Lemma threads_initially (rounds ticks : nat) (s : sys) :
  (forall h, ws (self s) = Some h -> (h < next_handle s)%nat) ->
  threads_invariant (threads_initial rounds ticks s).
Proof.
  intros Hws. split; [|apply benign_manage_websocket].
  exists true. split; [|apply covers_process_messages].
  split; [|split].
  - intros h p ok [].
  - intros l3 h' p' ok l2 h p l1 Heq. destruct l3; discriminate Heq.
  - intros _ h Hh. split; [exact (Hws h Hh)|].
    intros l2 hf p l1 Heq. destruct l2; discriminate Heq.
Qed.

Lemma assertion_lock_event (who steady : bool) (ev : event) (s : sys)
      (l : list (bool * event)) :
  (forall h p ok, ev <> EvSend h p ok) ->
  sender_assertion steady s l ->
  sender_assertion steady (snd (emit ev s))
    (map (pair who) (new_events s (snd (emit ev s))) ++ l).
Proof.
  intros Hev Hs. unfold emit. cbn [snd].
  rewrite (new_events_app s _ [ev]) by reflexivity.
  apply (assertion_extend steady s _ l [(who, ev)]); try reflexivity; [|exact Hs].
  intros h p ok [H|[]]. injection H as _ H. exact (Hev _ _ _ H).
Qed.

Lemma threads_step_invariant (p : threads) (who : bool) :
  threads_invariant p -> threads_invariant (threads_step p who).
Proof.
  intros [(steady & Hs & Hcov) Hben]. unfold threads_step.
  destruct who.
  - (* the supervisory thread *)
    destruct (supervisor_thread p) as [a|B c k|k|k] eqn:Ht; cbn [thread_step].
    + split; [|exact I]. exists steady. cbn.
      rewrite (new_events_app _ _ []) by reflexivity. auto.
    + cbn [benign] in Hben. destruct Hben as [Hc Hk].
      pose proof (Hc steady _ _ Hs) as Hstep.
      destruct (c (world p)) as [[b|] s'] eqn:Hcs.
      * split; [|apply Hk]. exists steady. cbn. auto.
      * split; [|split; assumption]. exists steady. cbn. auto.
    + destruct (lock_holder p).
      * split; [|exact Hben]. exists steady. cbn.
        rewrite (new_events_app _ _ []) by reflexivity. auto.
      * split; [|exact Hben]. exists steady. cbn [world trail sender_thread].
        split; [|exact Hcov]. apply assertion_lock_event; [discriminate|exact Hs].
    + split; [|exact Hben]. exists steady. cbn [world trail sender_thread].
      split; [|exact Hcov]. apply assertion_lock_event; [discriminate|exact Hs].
  - (* the sender thread *)
    destruct (sender_thread p) as [a|B c k|k|k] eqn:Ht; cbn [thread_step].
    + split; [|exact Hben]. exists steady. cbn.
      rewrite (new_events_app _ _ []) by reflexivity. auto.
    + cbn [covers] in Hcov. destruct Hcov as (post & Hc & Hk).
      pose proof (Hc _ _ Hs) as Hstep.
      destruct (c (world p)) as [[b|] s'] eqn:Hcs.
      * split; [|exact Hben]. exists (post b). cbn. auto.
      * split; [|exact Hben]. exists steady. cbn. split; [exact Hstep|].
        exists post. auto.
    + destruct (lock_holder p).
      * split; [|exact Hben]. exists steady. cbn.
        rewrite (new_events_app _ _ []) by reflexivity. auto.
      * split; [|exact Hben]. exists steady. cbn [world trail sender_thread].
        split; [|exact Hcov]. apply assertion_lock_event; [discriminate|exact Hs].
    + split; [|exact Hben]. exists steady. cbn [world trail sender_thread].
      split; [|exact Hcov]. apply assertion_lock_event; [discriminate|exact Hs].
Qed.

Lemma run_threads_invariant (schedule : list bool) (p : threads) :
  threads_invariant p -> threads_invariant (run_threads schedule p).
Proof.
  revert p; induction schedule as [|who schedule IH]; intros p Hp; [exact Hp|].
  cbn [run_threads fold_left]. apply IH, threads_step_invariant, Hp.
Qed.

(** *** The trail is the log *)

Lemma appends_when {B : Type} (c : M B) :
  (forall s, exists evs, log (snd (c s)) = evs ++ log s) -> appends c.
Proof.
  intros H s. destruct (H s) as (evs & Hevs).
  rewrite (new_events_app s _ evs Hevs). exact Hevs.
Qed.

Ltac adds_events :=
  first [ exists []; reflexivity
        | eexists [_]; reflexivity
        | eexists [_; _]; reflexivity ].

Lemma appends_read {A : Type} (f : sys -> A) : appends (read f).
Proof. apply appends_when. intros s. adds_events. Qed.

Lemma appends_running {A : Type} : appends (@running A).
Proof. apply appends_when. intros s. adds_events. Qed.

Lemma appends_sleep (seconds : Z) : appends (sleep seconds).
Proof. apply appends_when. intros s. adds_events. Qed.

Lemma appends_clear : appends clear_ws.
Proof. apply appends_when. intros s. adds_events. Qed.

Lemma appends_queue_get : appends queue_get.
Proof.
  apply appends_when. intros s. unfold queue_get.
  destruct (message_queue (self s)); adds_events.
Qed.

Lemma appends_create : appends create_connection.
Proof.
  apply appends_when. intros s. unfold create_connection.
  destruct (creates (env s)) as [|[| |] rest]; adds_events.
Qed.

Lemma appends_send (payload : string) : appends (ws_send payload).
Proof.
  apply appends_when. intros s. unfold ws_send.
  destruct (ws (self s)); [|adds_events].
  destruct (sends (env s)) as [|[|still] rest]; adds_events.
Qed.

Lemma logging_tbind {A B : Type} (t : thread A) (f : A -> thread B) :
  logging t -> (forall a, logging (f a)) -> logging (tbind t f).
Proof.
  induction t as [a|C c k IH|k IH|k IH]; intros Ht Hf; cbn [tbind logging] in *.
  - apply Hf.
  - destruct Ht as [Hc Hk]. split; [exact Hc|]. intros b. apply IH; [apply Hk|exact Hf].
  - apply IH; assumption.
  - apply IH; assumption.
Qed.

Ltac logs :=
  repeat first
    [ apply logging_tbind; [|intros ?]
    | exact I
    | split; [first [ apply appends_read | apply appends_running | apply appends_sleep
                    | apply appends_clear | apply appends_queue_get
                    | apply appends_create | apply appends_send ]
             |intros ?] ].

Lemma logging_connect_loop (fuel : nat) (attempt : Z) :
  logging (connect_loop_steps fuel attempt).
Proof.
  revert attempt; induction fuel as [|fuel IH]; intros attempt;
    cbn [connect_loop_steps]; [logs|].
  apply logging_tbind; [logs|]. intros stop. destruct stop; [exact I|].
  apply logging_tbind; [logs|]. intros _.
  apply logging_tbind; [logs|]. intros ok.
  apply logging_tbind; [logs|]. intros _. destruct ok; [exact I|].
  apply logging_tbind; [logs|]. intros _. apply IH.
Qed.

Lemma logging_connect_websocket : logging _connect_websocket_steps.
Proof.
  unfold _connect_websocket_steps. apply logging_tbind; [logs|]. intros fuel.
  apply logging_tbind; [apply logging_connect_loop|]. intros _. exact I.
Qed.

Lemma logging_send_heartbeat : logging _send_heartbeat_steps.
Proof.
  unfold _send_heartbeat_steps. apply logging_tbind; [logs|]. intros unusable.
  destruct unusable; [exact I|].
  apply logging_tbind; [logs|]. intros _.
  apply logging_tbind; [logs|]. intros ok.
  apply logging_tbind; [logs|]. intros _. destruct ok; [exact I|]. logs.
Qed.

Lemma logging_manage_websocket (ticks : nat) : logging (_manage_websocket_steps ticks).
Proof.
  induction ticks as [|ticks IH]; cbn [_manage_websocket_steps]; [logs|].
  apply logging_tbind; [logs|]. intros stop. destruct stop; [exact I|].
  apply logging_tbind; [|intros _; exact IH].
  unfold manage_tick_steps. apply logging_tbind; [logs|]. intros unusable.
  apply logging_tbind; [|intros _; logs].
  destruct unusable; [apply logging_connect_websocket|apply logging_send_heartbeat].
Qed.

Lemma logging_send_message (message : json) : logging (_send_message_steps message).
Proof.
  unfold _send_message_steps. apply logging_tbind; [logs|]. intros unusable.
  apply logging_tbind.
  { destruct unusable; [|exact I].
    apply logging_tbind; [apply logging_connect_websocket|]. intros _. logs. }
  intros proceed. destruct (negb proceed); [exact I|].
  apply logging_tbind; [logs|]. intros _.
  apply logging_tbind; [logs|]. intros ok.
  apply logging_tbind; [logs|]. intros _. destruct ok; [exact I|].
  apply logging_tbind; [logs|]. intros _.
  apply logging_tbind; [logs|]. intros _.
  apply logging_tbind; [logs|]. intros _. apply logging_connect_websocket.
Qed.

Lemma logging_process_messages (rounds : nat) :
  logging (_process_messages_steps rounds).
Proof.
  induction rounds as [|rounds IH]; cbn [_process_messages_steps]; [logs|].
  apply logging_tbind; [logs|]. intros stop. destruct stop; [exact I|].
  apply logging_tbind; [logs|]. intros got. destruct got as [message|]; [|exact IH].
  apply logging_tbind; [apply logging_send_message|]. intros _. exact IH.
Qed.

Lemma thread_step_logs (who : bool) (t : thread unit) (holder : option bool)
      (s : sys) :
  logging t ->
  let '(t', _, s') := thread_step who t holder s in
  log s' = new_events s s' ++ log s /\ logging t'.
Proof.
  intros Ht. destruct t as [a|B c k|k|k]; cbn [thread_step logging] in *.
  - rewrite (new_events_app s s []) by reflexivity. auto.
  - destruct Ht as [Hc Hk]. pose proof (Hc s) as Hs.
    destruct (c s) as [[b|] s']; cbn [snd] in Hs; [auto|].
    split; [exact Hs|]. split; assumption.
  - destruct holder.
    + rewrite (new_events_app s s []) by reflexivity. auto.
    + rewrite (new_events_app s _ [EvLock]) by reflexivity. auto.
  - rewrite (new_events_app s _ [EvUnlock]) by reflexivity. auto.
Qed.

Lemma threads_step_logs (base : list event) (p : threads) (who : bool) :
  trail_is_log base p -> trail_is_log base (threads_step p who).
Proof.
  intros (Hlog & Hsender & Hsupervisor). unfold threads_step.
  pose proof (thread_step_logs who (if who then supervisor_thread p else sender_thread p)
                (lock_holder p) (world p)) as Hstep.
  destruct (thread_step who _ (lock_holder p) (world p)) as [[t' holder] s'].
  destruct Hstep as [Hs' Ht']; [destruct who; assumption|].
  split; [|destruct who; split; assumption].
  cbn [trail world]. rewrite map_app, map_map. cbn [snd]. rewrite map_id.
  rewrite <- app_assoc, Hlog. symmetry. exact Hs'.
Qed.

Lemma run_threads_logs (base : list event) (schedule : list bool) (p : threads) :
  trail_is_log base p -> trail_is_log base (run_threads schedule p).
Proof.
  revert p; induction schedule as [|who schedule IH]; intros p Hp; [exact Hp|].
  cbn [run_threads fold_left]. apply IH, threads_step_logs, Hp.
Qed.




(** ** The heartbeat *)

Lemma dumps_heartbeat : dumps heartbeat = heartbeat_payload.
Proof. reflexivity. Qed.



(** ** The grid normalisation *)

Lemma all_from_spec (f : Z -> bool) (n : nat) (lo z : Z) :
  all_from lo n f = true -> lo <= z <= lo + Z.of_nat n -> f z = true.
Proof.
  revert lo; induction n as [|n IH]; intros lo Hall Hz; cbn [all_from] in Hall.
  - replace z with lo by lia. exact Hall.
  - apply andb_true_iff in Hall. destruct Hall as [Hlo Hrest].
    destruct (Z.eq_dec z lo) as [->|Hne]; [exact Hlo|].
    apply (IH (lo + 1)); [exact Hrest|lia].
Qed.

Lemma spec_float_eqb_eq (f g : spec_float) : spec_float_eqb f g = true -> f = g.
Proof.
  destruct f as [s|s| |s m e], g as [t|t| |t n d]; cbn; try discriminate;
    try reflexivity.
  - intros H. apply Bool.eqb_prop in H. now subst.
  - intros H. apply Bool.eqb_prop in H. now subst.
  - intros H. apply andb_true_iff in H. destruct H as [H He].
    apply andb_true_iff in H. destruct H as [Hs Hm].
    apply Bool.eqb_prop in Hs. apply Pos.eqb_eq in Hm. apply Z.eqb_eq in He.
    now subst.
Qed.

(** The normalisation of the specification, as an integer formula. *)
Lemma spec_grid_axis_exact (pos size : Z) :
  spec_grid_axis pos size 640 = Z.min 300 (Z.max 0 ((2 * pos + size) * 300 / 1280)).
Proof.
  unfold spec_grid_axis, GRID_SIZE.
  set (scaled := ((inject_Z pos + inject_Z size / inject_Z 2)
                  / inject_Z 640 * inject_Z 300)%Q).
  assert (Hnum : Qnum scaled = (2 * pos + size) * 300)
    by (unfold scaled, Qdiv, Qmult, Qplus, Qinv, inject_Z;
        cbn [Qnum Qden Pos.mul]; lia).
  assert (Hden : Qden scaled = 1280%positive) by reflexivity.
  destruct scaled as [N D]. cbn [Qnum Qden] in Hnum, Hden. subst D.
  rewrite <- Hnum. clear Hnum.
  unfold Qmin, Qmax, GenericMinMax.gmin, GenericMinMax.gmax, Qcompare, Qtruncate.
  cbn [inject_Z Qnum Qden].
  destruct (Z.compare_spec (N * 1) (0 * 1280)) as [H0|H0|H0]; cbn [Qnum Qden].
  - replace N with 0 by lia. reflexivity.
  - assert (N / 1280 < 0) by (apply Z.div_lt_upper_bound; lia).
    change (0 = Z.min 300 (Z.max 0 (N / 1280))). lia.
  - destruct (Z.compare_spec (N * 1) (300 * 1280)) as [H1|H1|H1]; cbn [Qnum Qden].
    + replace N with (300 * 1280) by lia. reflexivity.
    + rewrite Z.quot_div_nonneg by lia.
      assert (0 <= N / 1280) by (apply Z.div_pos; lia).
      assert (N / 1280 < 300) by (apply Z.div_lt_upper_bound; lia). lia.
    + assert (300 <= N / 1280) by (apply Z.div_le_lower_bound; lia).
      change (300 = Z.min 300 (Z.max 0 (N / 1280))). lia.
Qed.

(** *** Doubles that are never NaN *)

Lemma shr_1_nonneg (r : shr_record) : 0 <= shr_m r -> 0 <= shr_m (shr_1 r).
Proof.
  destruct r as [m b c]. cbn [shr_m]. intros Hm.
  destruct m as [|[p|p|]|p]; cbn; lia.
Qed.

Lemma iter_pos_shr_1_nonneg (p : positive) (r : shr_record) :
  0 <= shr_m r -> 0 <= shr_m (iter_pos shr_1 p r).
Proof.
  revert r; induction p as [p IH|p IH|]; intros r Hr; cbn [iter_pos].
  - apply IH, IH, shr_1_nonneg, Hr.
  - apply IH, IH, Hr.
  - apply shr_1_nonneg, Hr.
Qed.

Lemma shr_fexp_nonneg (m e : Z) (l : location) :
  0 <= m -> 0 <= shr_m (fst (shr_fexp prec emax m e l)).
Proof.
  intros Hm. unfold shr_fexp, shr.
  assert (H0 : 0 <= shr_m (shr_record_of_loc m l))
    by (destruct l as [|[| |]]; exact Hm).
  destruct (fexp prec emax (Zdigits2 m + e) - e) as [|p|p]; cbn [fst];
    [exact H0| |exact H0].
  apply iter_pos_shr_1_nonneg, H0.
Qed.

Lemma round_nearest_even_nonneg (m : Z) (l : location) :
  0 <= m -> 0 <= round_nearest_even m l.
Proof.
  intros Hm. unfold round_nearest_even.
  destruct l as [|[| |]]; try destruct (Z.even m); lia.
Qed.

Lemma binary_round_aux_not_nan (sx : bool) (mx ex : Z) (lx : location) :
  0 <= mx -> binary_round_aux prec emax sx mx ex lx <> S754_nan.
Proof.
  intros Hm. unfold binary_round_aux.
  pose proof (shr_fexp_nonneg mx ex lx Hm) as H1.
  destruct (shr_fexp prec emax mx ex lx) as [mrs' e']. cbn [fst] in H1.
  pose proof (shr_fexp_nonneg _ e' loc_Exact
                (round_nearest_even_nonneg _ (loc_of_shr_record mrs') H1)) as H2.
  destruct (shr_fexp prec emax _ e' loc_Exact) as [mrs'' e'']. cbn [fst] in H2.
  destruct (shr_m mrs'') as [|m|m]; [discriminate| |lia].
  destruct (e'' <=? emax - prec); discriminate.
Qed.

Lemma binary_normalize_not_nan (m e : Z) (s : bool) :
  binary_normalize prec emax m e s <> S754_nan.
Proof.
  unfold binary_normalize, binary_round.
  destruct m as [|p|p]; [discriminate| |];
    destruct (shl_align _ _ _) as [mz ez]; apply binary_round_aux_not_nan; lia.
Qed.

Lemma float_of_int_finite (z : Z) (f : spec_float) :
  float_of_int z = Ok f -> is_finite f = true.
Proof.
  unfold float_of_int. pose proof (binary_normalize_not_nan z 0 false) as Hn.
  destruct (binary_normalize prec emax z 0 false); intros H;
    try discriminate H; try (injection H as <-; reflexivity).
  contradiction Hn; reflexivity.
Qed.

Lemma SFdiv_core_binary_nonneg (m1 e1 m2 e2 : Z) :
  0 <= m1 -> 0 < m2 ->
  0 <= fst (fst (SFdiv_core_binary prec emax m1 e1 m2 e2)).
Proof.
  intros H1 H2. unfold SFdiv_core_binary.
  set (s := e1 - e2 - _).
  set (m' := match s with Z.pos _ => Z.shiftl m1 s | 0 => m1 | Z.neg _ => 0 end).
  assert (Hm' : 0 <= m').
  { unfold m'. destruct s; [exact H1| |lia]. apply Z.shiftl_nonneg. exact H1. }
  pose proof (Z_div_mod m' m2 ltac:(lia)) as Hdm.
  destruct (Z.div_eucl m' m2) as [q r]. cbn [fst].
  destruct Hdm as [Heq Hr]. nia.
Qed.

Lemma rounded_quotient_finite (s : bool) (m1 m2 : Z) (f : spec_float) :
  0 <= m1 -> 0 < m2 ->
  (let '(mz, ez, lz) := SFdiv_core_binary prec emax m1 0 m2 0 in
   match binary_round_aux prec emax s mz ez lz with
   | S754_infinity _ => Raise OverflowError
   | g => Ok g
   end) = Ok f ->
  is_finite f = true.
Proof.
  intros H1 H2.
  pose proof (SFdiv_core_binary_nonneg m1 0 m2 0 H1 H2) as Hq.
  destruct (SFdiv_core_binary prec emax m1 0 m2 0) as [[mz ez] lz].
  cbn [fst] in Hq.
  pose proof (binary_round_aux_not_nan s mz ez lz Hq) as Hn.
  destruct (binary_round_aux prec emax s mz ez lz); intros H;
    try discriminate H; try (injection H as <-; reflexivity).
  contradiction Hn; reflexivity.
Qed.

Lemma int_truediv_finite (a b : Z) (f : spec_float) :
  int_truediv a b = Ok f -> is_finite f = true.
Proof.
  unfold int_truediv.
  destruct b as [|pb|pb]; [destruct a; discriminate| |];
    (destruct a as [|pa|pa]; [intros H; injection H as <-; reflexivity| |]);
    apply rounded_quotient_finite; cbn; lia.
Qed.

Lemma SFadd_finite_not_nan (f g : spec_float) :
  is_finite f = true -> is_finite g = true -> SFadd prec emax f g <> S754_nan.
Proof.
  destruct f as [s|s| |s m e], g as [t|t| |t n d]; try discriminate; intros _ _.
  - cbn. destruct s, t; discriminate.
  - cbn [SFadd]. apply binary_normalize_not_nan.
Qed.

Lemma SFdiv_finite_not_nan (f : spec_float) (s : bool) (m : positive) (e : Z) :
  f <> S754_nan -> SFdiv prec emax f (S754_finite s m e) <> S754_nan.
Proof.
  intros Hf. destruct f as [t|t| |t n d]; cbn [SFdiv]; try discriminate;
    [contradiction Hf; reflexivity|].
  pose proof (SFdiv_core_binary_nonneg (Zpos n) d (Zpos m) e ltac:(lia) ltac:(lia)) as Hq.
  destruct (SFdiv_core_binary prec emax (Zpos n) d (Zpos m) e) as [[mz ez] lz].
  apply binary_round_aux_not_nan. exact Hq.
Qed.

Lemma SFmul_finite_not_nan (f : spec_float) (s : bool) (m : positive) (e : Z) :
  f <> S754_nan -> SFmul prec emax f (S754_finite s m e) <> S754_nan.
Proof.
  intros Hf. destruct f as [t|t| |t n d]; cbn [SFmul]; try discriminate;
    [contradiction Hf; reflexivity|]. apply binary_round_aux_not_nan. lia.
Qed.

(** *** The clamp keeps every axis in the grid *)

Lemma float_of_int_640 :
  float_of_int 640 = Ok (S754_finite false 5629499534213120 (-43)).
Proof. vm_compute. reflexivity. Qed.

Lemma float_of_int_300 :
  float_of_int 300 = Ok (S754_finite false 5277655813324800 (-44)).
Proof. vm_compute. reflexivity. Qed.

Lemma float_of_int_2 :
  float_of_int 2 = Ok (S754_finite false 4503599627370496 (-51)).
Proof. vm_compute. reflexivity. Qed.

Lemma SFadd_not_nan (f g : spec_float) :
  is_finite f = true -> g <> S754_nan -> SFadd prec emax f g <> S754_nan.
Proof.
  intros Hf Hg. destruct g as [t|t| |t n d].
  - apply SFadd_finite_not_nan; [exact Hf|reflexivity].
  - destruct f; try discriminate Hf; cbn; discriminate.
  - contradiction Hg; reflexivity.
  - apply SFadd_finite_not_nan; [exact Hf|reflexivity].
Qed.

Lemma nan_or_not (f : spec_float) : f = S754_nan \/ f <> S754_nan.
Proof. destruct f; [right|right|left|right]; congruence. Qed.

(** [size / 2] (lines 141-142): a double, NaN only for NaN. *)
Lemma half_of_number (size : pynum) :
  match py_truediv size (PyInt 2) with
  | Ok half =>
      exists g, half = PyFloat g /\
                (g = S754_nan -> size = PyFloat S754_nan)
  | Raise e => e = OverflowError /\ exists z, size = PyInt z /\ halves_to_float z = false
  end.
Proof.
  destruct size as [z|f]; unfold py_truediv.
  - destruct (int_truediv z 2) as [g|e] eqn:Hz; cbn [rbind].
    + exists g. split; [reflexivity|]. intros ->.
      apply int_truediv_finite in Hz. discriminate Hz.
    + split.
      * unfold int_truediv in Hz.
        destruct z as [|p|p]; [discriminate Hz| |];
          destruct (SFdiv_core_binary prec emax _ 0 _ 0) as [[mz ez] lz];
          destruct (binary_round_aux prec emax _ mz ez lz); congruence.
      * exists z. split; [reflexivity|]. unfold halves_to_float. now rewrite Hz.
  - rewrite float_of_int_2. cbn [rbind]. unfold float_truediv.
    cbn [is_float_zero rbind]. eexists. split; [reflexivity|].
    intros Hnan. destruct f as [s|s| |s m e]; try reflexivity; exfalso;
      revert Hnan; apply SFdiv_finite_not_nan; discriminate.
Qed.

(** Lines 141-142 on any two numbers: the result, when there is one, is
    a double; it is NaN only when the position is NaN or an infinity, or
    the size is NaN; and only an integer too large for a double makes the
    expression raise. *)
Lemma normalized_center_cases (pos size : pynum) :
  match normalized_center pos size 640 with
  | Ok c =>
      exists f, c = PyFloat f /\
                (f = S754_nan -> non_finite pos \/ size = PyFloat S754_nan)
  | Raise e =>
      e = OverflowError /\
      ((exists z, pos = PyInt z /\ fits_float z = false) \/
       (exists z, size = PyInt z /\ halves_to_float z = false))
  end.
Proof.
  unfold normalized_center.
  pose proof (half_of_number size) as Hhalf.
  destruct (py_truediv size (PyInt 2)) as [half|e]; cbn [rbind].
  - destruct Hhalf as (g & -> & Hg).
    assert (Hdiv : forall sum : spec_float,
               py_truediv (PyFloat sum) (PyInt 640)
               = Ok (PyFloat (SFdiv prec emax sum (S754_finite false 5629499534213120 (-43))))).
    { intros sum. unfold py_truediv. rewrite float_of_int_640. reflexivity. }
    assert (Hsum : forall fpos : spec_float,
               is_finite fpos = true ->
               SFdiv prec emax (SFadd prec emax fpos g)
                 (S754_finite false 5629499534213120 (-43)) = S754_nan ->
               size = PyFloat S754_nan).
    { intros fpos Hfin Hnan. destruct (nan_or_not g) as [Hgn|Hgn]; [exact (Hg Hgn)|].
      exfalso. revert Hnan. apply SFdiv_finite_not_nan, SFadd_not_nan; assumption. }
    destruct pos as [z|f]; unfold py_add.
    + destruct (float_of_int z) as [fz|e] eqn:Hz; cbn [rbind].
      * rewrite Hdiv. eexists. split; [reflexivity|]. intros Hnan. right.
        exact (Hsum fz (float_of_int_finite _ _ Hz) Hnan).
      * split.
        -- unfold float_of_int in Hz.
           destruct (binary_normalize prec emax z 0 false); congruence.
        -- left. exists z. split; [reflexivity|]. unfold fits_float. now rewrite Hz.
    + cbn [rbind]. rewrite Hdiv. eexists. split; [reflexivity|].
      cbn [non_finite]. intros Hnan.
      destruct (is_finite f) eqn:Hf; [right; exact (Hsum f Hf Hnan)|left; reflexivity].
  - destruct Hhalf as (-> & Hz). split; [reflexivity|]. right. exact Hz.
Qed.

Lemma number_halves_not_nan (size : pynum) :
  number_halves size = true -> size <> PyFloat S754_nan.
Proof. intros H ->. discriminate H. Qed.

Lemma normalized_center_total (pos size : pynum) :
  number_fits pos = true -> number_halves size = true ->
  exists f, normalized_center pos size 640 = Ok (PyFloat f) /\ f <> S754_nan.
Proof.
  intros Hpos Hsize. pose proof (normalized_center_cases pos size) as Hc.
  destruct (normalized_center pos size 640) as [c|e].
  - destruct Hc as (f & -> & Hf). exists f. split; [reflexivity|].
    intros Hnan. destruct (Hf Hnan) as [Hbad|Hbad].
    + destruct pos as [z|g]; [exact Hbad|]. cbn in Hbad, Hpos. congruence.
    + exact (number_halves_not_nan size Hsize Hbad).
  - exfalso. destruct Hc as (_ & [(z & -> & Hz)|(z & -> & Hz)]);
      cbn [number_fits number_halves] in *; congruence.
Qed.

Lemma shiftl_truncates (m : positive) (e bound : Z) :
  0 <= bound ->
  match e with
  | Zneg p => Zpos m ?= bound * 2 ^ Zpos p
  | _ => Zpos m * 2 ^ e ?= bound
  end <> Gt ->
  0 <= Z.shiftl (Zpos m) e <= bound.
Proof.
  intros Hb Hcmp. destruct e as [|p|p].
  - rewrite Z.shiftl_0_r. rewrite Z.pow_0_r, Z.mul_1_r in Hcmp.
    assert (Hle : Zpos m <= bound) by exact Hcmp. lia.
  - rewrite Z.shiftl_mul_pow2 by lia.
    assert (Hle : Zpos m * 2 ^ Zpos p <= bound) by exact Hcmp.
    pose proof (Z.pow_pos_nonneg 2 (Zpos p) ltac:(lia) ltac:(lia)). nia.
  - change (Z.shiftl (Zpos m) (Zneg p)) with (Z.shiftr (Zpos m) (Zpos p)).
    rewrite Z.shiftr_div_pow2 by lia.
    assert (Hle : Zpos m <= bound * 2 ^ Zpos p) by exact Hcmp.
    pose proof (Z.pow_pos_nonneg 2 (Zpos p) ltac:(lia) ltac:(lia)) as Hpow.
    split; [apply Z.div_pos; lia|].
    apply Z.div_le_upper_bound; lia.
Qed.

Lemma negative_float_below_zero (m : positive) (e : Z) :
  float_compare_int (S754_finite true m e) 0 = Some Lt.
Proof.
  unfold float_compare_int. cbn [cond_Zopp]. f_equal.
  destruct e as [|p|p]; apply Z.compare_lt_iff.
  - lia.
  - pose proof (Z.pow_pos_nonneg 2 (Zpos p) ltac:(lia) ltac:(lia)). nia.
  - lia.
Qed.

Lemma positive_float_above_zero (m : positive) (e : Z) :
  float_compare_int (S754_finite false m e) 0 = Some Gt.
Proof.
  unfold float_compare_int. cbn [cond_Zopp]. f_equal.
  destruct e as [|p|p]; apply Z.compare_gt_iff.
  - lia.
  - pose proof (Z.pow_pos_nonneg 2 (Zpos p) ltac:(lia) ltac:(lia)). nia.
  - lia.
Qed.

Lemma clamp_range (v : spec_float) :
  v <> S754_nan ->
  exists z,
    py_int (py_min (py_max (PyFloat v) (PyInt 0)) (PyInt GRID_SIZE)) = Ok z /\
    0 <= z <= 300.
Proof.
  intros Hv. unfold GRID_SIZE.
  destruct v as [s|s| |s m e]; [| | contradiction Hv; reflexivity|].
  - exists 0. split; [reflexivity|lia].
  - destruct s; [exists 0|exists 300]; (split; [reflexivity|lia]).
  - destruct s.
    + exists 0. split; [|lia].
      unfold py_max, py_gt, py_lt, py_compare.
      rewrite negative_float_below_zero. reflexivity.
    + assert (Hmax : py_max (PyFloat (S754_finite false m e)) (PyInt 0)
                     = PyFloat (S754_finite false m e)).
      { unfold py_max, py_gt, py_lt, py_compare.
        rewrite positive_float_above_zero. reflexivity. }
      rewrite Hmax. unfold py_min, py_lt, py_compare, option_map, float_compare_int.
      cbn [cond_Zopp].
      set (cmp := match e with
                  | Zneg p => Zpos m ?= 300 * 2 ^ Zpos p
                  | _ => Zpos m * 2 ^ e ?= 300
                  end).
      destruct cmp eqn:Hcmp; cbn [CompOpp].
      * eexists. split; [reflexivity|].
        apply shiftl_truncates; [lia|]. fold cmp. rewrite Hcmp. discriminate.
      * eexists. split; [reflexivity|].
        apply shiftl_truncates; [lia|]. fold cmp. rewrite Hcmp. discriminate.
      * exists 300. split; [reflexivity|lia].
Qed.

Lemma to_grid_range (f : spec_float) :
  f <> S754_nan ->
  exists g z, to_grid (PyFloat f) = Ok g /\ py_int g = Ok z /\ 0 <= z <= 300.
Proof.
  intros Hf. unfold to_grid, py_mul, GRID_SIZE at 1.
  rewrite float_of_int_300. cbn [rbind].
  destruct (clamp_range (SFmul prec emax f (S754_finite false 5277655813324800 (-44))))
    as (z & Hz & Hrange); [apply SFmul_finite_not_nan; exact Hf|].
  eexists. exists z. split; [reflexivity|]. split; [exact Hz|exact Hrange].
Qed.

(** One axis, from the centre on: a coordinate of the grid, or NaN and
    [ValueError]. *)
Lemma axis_of_center (f : spec_float) :
  exists g,
    to_grid (PyFloat f) = Ok g /\
    ((f = S754_nan /\ py_int g = Raise ValueError) \/
     (f <> S754_nan /\ exists z, py_int g = Ok z /\ 0 <= z <= 300)).
Proof.
  destruct (nan_or_not f) as [->|Hf].
  - exists (PyFloat S754_nan). split; [reflexivity|]. left. split; reflexivity.
  - destruct (to_grid_range f Hf) as (g & z & Hg & Hz & Hrange).
    exists g. split; [exact Hg|]. right. split; [exact Hf|]. exists z. auto.
Qed.

Lemma grid_axis_range (pos size : pynum) (z : Z) :
  grid_axis pos size 640 = Ok z -> 0 <= z <= 300.
Proof.
  unfold grid_axis. pose proof (normalized_center_cases pos size) as Hc.
  destruct (normalized_center pos size 640) as [c|e]; [|discriminate].
  destruct Hc as (f & -> & _). cbn [rbind].
  destruct (axis_of_center f) as (g & Hg & Hcase). rewrite Hg. cbn [rbind].
  destruct Hcase as [[_ ->]|(_ & z' & -> & Hrange)]; [discriminate|].
  intros H. injection H as <-. exact Hrange.
Qed.

Lemma grid_axis_total (pos size : pynum) :
  number_fits pos = true -> number_halves size = true ->
  exists z, grid_axis pos size 640 = Ok z.
Proof.
  intros Hpos Hsize. unfold grid_axis.
  destruct (normalized_center_total pos size Hpos Hsize) as (f & -> & Hf).
  cbn [rbind].
  destruct (axis_of_center f) as (g & Hg & [[Hnan _]|(_ & z & Hz & _)]);
    [contradiction|].
  rewrite Hg. cbn [rbind]. exists z. exact Hz.
Qed.

Lemma grid_point_axes (x y w h : pynum) (px py : Z) :
  grid_point x y w h = Ok (px, py) <->
  grid_axis x w 640 = Ok px /\ grid_axis y h 640 = Ok py.
Proof.
  unfold grid_point, region_dot, truncate_dot, grid_axis,
    PROCESSING_WIDTH, PROCESSING_HEIGHT.
  destruct (normalized_center x w 640) as [cx|e1]; cbn [rbind];
    [|split; [discriminate|intros [H _]; discriminate H]].
  destruct (normalized_center y h 640) as [cy|e2]; cbn [rbind];
    [|split; [discriminate|intros [_ H]; discriminate H]].
  destruct (to_grid cx) as [gx|e3]; cbn [rbind];
    [|split; [discriminate|intros [H _]; discriminate H]].
  destruct (to_grid cy) as [gy|e4]; cbn [rbind fst snd];
    [|split; [discriminate|intros [_ H]; discriminate H]].
  destruct (py_int gx) as [ix|e5]; cbn [rbind];
    [|split; [discriminate|intros [H _]; discriminate H]].
  destruct (py_int gy) as [iy|e6]; cbn [rbind];
    [|split; [discriminate|intros [_ H]; discriminate H]].
  split.
  - intros H. injection H as <- <-. split; reflexivity.
  - intros [H1 H2]. injection H1 as <-. injection H2 as <-. reflexivity.
Qed.

(** *** Integers below 2^1023 convert without overflow *)

Lemma digits2_pos_size (p : positive) : digits2_pos p = Pos.size p.
Proof. induction p as [p IH|p IH|]; cbn; now rewrite ?IH. Qed.

Lemma Zdigits2_log2 (m : Z) : 0 < m -> Zdigits2 m = Z.log2 m + 1.
Proof.
  destruct m as [|p|p]; try lia. intros _. cbn [Zdigits2].
  rewrite digits2_pos_size. destruct p as [p|p|]; cbn; lia.
Qed.

Lemma Zdigits2_nonneg (m : Z) : 0 <= Zdigits2 m.
Proof. destruct m; cbn; lia. Qed.

Lemma Zdigits2_mono (a b : Z) : 0 <= a <= b -> Zdigits2 a <= Zdigits2 b.
Proof.
  intros [Ha Hab]. destruct (Z.eq_dec a 0) as [->|Hne].
  - apply Zdigits2_nonneg.
  - rewrite !Zdigits2_log2 by lia. pose proof (Z.log2_le_mono a b Hab). lia.
Qed.

Lemma Zdigits2_bound (m k : Z) : 0 <= k -> 0 <= m < 2 ^ k -> Zdigits2 m <= k.
Proof.
  intros Hk [Hm Hlt]. destruct (Z.eq_dec m 0) as [->|Hne]; [exact Hk|].
  rewrite Zdigits2_log2 by lia.
  assert (Z.log2 m < k) by (apply Z.log2_lt_pow2; lia). lia.
Qed.

Lemma Zdigits2_succ (m : Z) : 0 <= m -> Zdigits2 (m + 1) <= Zdigits2 m + 1.
Proof.
  intros Hm. destruct (Z.eq_dec m 0) as [->|Hne]; [cbn; lia|].
  rewrite !Zdigits2_log2 by lia.
  pose proof (Z.log2_succ_le m). unfold Z.succ in *. lia.
Qed.

Lemma digits2_pos_iter_xO (m d : positive) :
  Zpos (digits2_pos (Pos.iter xO m d)) = Zpos (digits2_pos m) + Zpos d.
Proof.
  induction d as [|d IH] using Pos.peano_ind.
  - cbn. lia.
  - rewrite Pos.iter_succ. cbn [digits2_pos]. lia.
Qed.

Lemma shr_1_digits (r : shr_record) :
  0 <= shr_m r ->
  Zdigits2 (shr_m (shr_1 r)) = Z.max 0 (Zdigits2 (shr_m r) - 1).
Proof.
  destruct r as [m b c]. cbn [shr_m]. intros Hm.
  destruct m as [|[p|p|]|p]; cbn [shr_1 shr_m Zdigits2 digits2_pos]; lia.
Qed.

Lemma iter_pos_shr_1_digits (p : positive) (r : shr_record) :
  0 <= shr_m r ->
  Zdigits2 (shr_m (iter_pos shr_1 p r)) = Z.max 0 (Zdigits2 (shr_m r) - Zpos p).
Proof.
  revert r; induction p as [p IH|p IH|]; intros r Hr; cbn [iter_pos].
  - rewrite IH by (apply iter_pos_shr_1_nonneg, shr_1_nonneg, Hr).
    rewrite IH by (apply shr_1_nonneg, Hr).
    rewrite shr_1_digits by exact Hr. lia.
  - rewrite IH by (apply iter_pos_shr_1_nonneg, Hr).
    rewrite IH by exact Hr. lia.
  - apply shr_1_digits, Hr.
Qed.

Lemma fexp_mono (a b : Z) : a <= b -> fexp prec emax a <= fexp prec emax b.
Proof. unfold fexp. lia. Qed.

Lemma fexp_bound (a : Z) : a <= 1024 -> fexp prec emax a <= emax - prec.
Proof. unfold fexp, emin, prec, emax. lia. Qed.

(** After one [shr_fexp] on an aligned mantissa: the mantissa is still
    non-negative, the exponent is within range, and the number of digits
    plus the exponent has not grown. *)
Lemma shr_fexp_aligned (m e : Z) (l : location) :
  0 <= m ->
  e <= fexp prec emax (Zdigits2 m + e) ->
  Zdigits2 m + e <= 1024 ->
  let '(mrs, e') := shr_fexp prec emax m e l in
  0 <= shr_m mrs /\
  e' <= emax - prec /\
  Zdigits2 (shr_m mrs) + e' = Z.max (Zdigits2 m + e) e' /\
  e' = fexp prec emax (Zdigits2 m + e).
Proof.
  intros Hm Halign Hd.
  pose proof (shr_fexp_nonneg m e l Hm) as Hnn.
  pose proof (fexp_bound _ Hd) as Hfb.
  unfold shr_fexp, shr in *.
  assert (Hr : shr_m (shr_record_of_loc m l) = m) by (destruct l as [|[| |]]; reflexivity).
  destruct (fexp prec emax (Zdigits2 m + e) - e) as [|p|p] eqn:Hn; cbn [fst] in Hnn.
  - rewrite Hr. pose proof (Zdigits2_nonneg m). repeat split; lia.
  - rewrite iter_pos_shr_1_digits by (rewrite Hr; exact Hm). rewrite Hr.
    repeat split; try exact Hnn; lia.
  - lia.
Qed.

Lemma round_nearest_even_cases (m : Z) (l : location) :
  round_nearest_even m l = m \/ round_nearest_even m l = m + 1.
Proof.
  unfold round_nearest_even.
  destruct l as [|[| |]]; try destruct (Z.even m); auto.
Qed.

(** Rounding an aligned mantissa of fewer than 1024 binary digits (exponent
    included) never overflows. *)
Lemma binary_round_aux_finite (sx : bool) (mx ex : Z) (lx : location) :
  0 <= mx ->
  ex <= fexp prec emax (Zdigits2 mx + ex) ->
  Zdigits2 mx + ex <= 1023 ->
  is_finite (binary_round_aux prec emax sx mx ex lx) = true.
Proof.
  intros Hm Halign Hd. unfold binary_round_aux.
  pose proof (shr_fexp_aligned mx ex lx Hm Halign ltac:(lia)) as H1.
  destruct (shr_fexp prec emax mx ex lx) as [mrs' e'].
  destruct H1 as (Hnn1 & He1 & Hdig1 & Hfexp1).
  set (m1r := round_nearest_even (shr_m mrs') (loc_of_shr_record mrs')).
  assert (Hround : 0 <= m1r /\ Zdigits2 (shr_m mrs') <= Zdigits2 m1r
                   /\ Zdigits2 m1r <= Zdigits2 (shr_m mrs') + 1).
  { unfold m1r.
    destruct (round_nearest_even_cases (shr_m mrs') (loc_of_shr_record mrs')) as [->| ->].
    - lia.
    - split; [lia|]. split; [apply Zdigits2_mono; lia|apply Zdigits2_succ; exact Hnn1]. }
  destruct Hround as (Hnn2 & Hlow & Hup).
  assert (Halign2 : e' <= fexp prec emax (Zdigits2 m1r + e')).
  { rewrite Hfexp1 at 1. apply fexp_mono. lia. }
  assert (He1' : e' <= emax - prec) by exact He1.
  unfold emax, prec in He1'.
  pose proof (shr_fexp_aligned m1r e' loc_Exact Hnn2 Halign2 ltac:(lia)) as H2.
  destruct (shr_fexp prec emax m1r e' loc_Exact) as [mrs'' e''].
  destruct H2 as (Hnn3 & He2 & _ & _).
  destruct (shr_m mrs'') as [|m|m]; [reflexivity| |lia].
  apply Z.leb_le in He2. rewrite He2. reflexivity.
Qed.

Lemma shl_align_aligned (m : positive) (e : Z) :
  let '(mz, ez) := shl_align m e (fexp prec emax (Zpos (digits2_pos m) + e)) in
  ez <= fexp prec emax (Zdigits2 (Zpos mz) + ez) /\
  Zdigits2 (Zpos mz) + ez = Zpos (digits2_pos m) + e.
Proof.
  unfold shl_align.
  destruct (fexp prec emax (Zpos (digits2_pos m) + e) - e) as [|d|d] eqn:Hn;
    cbn [Zdigits2].
  - split; lia.
  - split; lia.
  - rewrite digits2_pos_iter_xO.
    replace (Zpos (digits2_pos m) + Zpos d
             + fexp prec emax (Zpos (digits2_pos m) + e))
      with (Zpos (digits2_pos m) + e) by lia.
    split; lia.
Qed.

Lemma binary_normalize_finite (z e : Z) :
  Zdigits2 z + e <= 1023 ->
  is_finite (binary_normalize prec emax z e false) = true.
Proof.
  intros Hd. unfold binary_normalize, binary_round.
  destruct z as [|m|m]; [reflexivity| |];
    pose proof (shl_align_aligned m e) as Hal;
    destruct (shl_align m e _) as [mz ez]; destruct Hal as [Hal Hdig];
    apply binary_round_aux_finite; cbn [Zdigits2] in *; lia.
Qed.

Lemma Zdigits2_abs_bound (z : Z) : Z.abs z < 2 ^ 1023 -> Zdigits2 z <= 1023.
Proof.
  intros Hz. destruct z as [|p|p]; cbn [Zdigits2]; [lia| |];
    apply (Zdigits2_bound (Zpos p) 1023); cbn [Z.abs] in Hz; lia.
Qed.

Lemma fits_float_bounded (z : Z) : Z.abs z < 2 ^ 1023 -> fits_float z = true.
Proof.
  intros Hz. unfold fits_float, float_of_int.
  pose proof (binary_normalize_finite z 0) as Hfin.
  rewrite Z.add_0_r in Hfin. specialize (Hfin (Zdigits2_abs_bound z Hz)).
  destruct (binary_normalize prec emax z 0 false); try reflexivity; discriminate Hfin.
Qed.


Lemma Zdigits2_div2 (a : Z) :
  0 <= a -> Zdigits2 (a / 2) = Z.max 0 (Zdigits2 a - 1).
Proof.
  intros Ha. rewrite <- Z.div2_div.
  destruct a as [|[p|p|]|p]; cbn [Z.div2 Pos.div2 Zdigits2 digits2_pos]; lia.
Qed.

Lemma Zdigits2_shiftl (a n : Z) :
  0 < a -> 0 <= n -> Zdigits2 (Z.shiftl a n) = Zdigits2 a + n.
Proof.
  intros Ha Hn.
  assert (0 < Z.shiftl a n).
  { rewrite Z.shiftl_mul_pow2 by exact Hn.
    pose proof (Z.pow_pos_nonneg 2 n ltac:(lia) Hn). nia. }
  rewrite !Zdigits2_log2 by assumption.
  rewrite Z.log2_shiftl by lia. lia.
Qed.

Lemma SFdiv_core_binary_by_2 (m1 : Z) :
  0 < m1 ->
  let '(q, e', l) := SFdiv_core_binary prec emax m1 0 2 0 in
  0 <= q /\ e' <= fexp prec emax (Zdigits2 q + e') /\
  Zdigits2 q + e' = Zdigits2 m1 - 1.
Proof.
  intros Hm1. unfold SFdiv_core_binary.
  change (Zdigits2 2) with 2.
  set (e' := Z.min (fexp prec emax (Zdigits2 m1 + 0 - (2 + 0))) (0 - 0)).
  set (s := 0 - 0 - e').
  set (m' := match s with Z.pos _ => Z.shiftl m1 s | 0 => m1 | Z.neg _ => 0 end).
  assert (Hs : 0 <= s) by (unfold s, e'; lia).
  assert (Hm' : m' = Z.shiftl m1 s).
  { unfold m'. destruct s; [now rewrite Z.shiftl_0_r|reflexivity|lia]. }
  assert (Hd1 : 1 <= Zdigits2 m1) by (rewrite Zdigits2_log2 by exact Hm1;
                                     pose proof (Z.log2_nonneg m1); lia).
  assert (Hdm' : Zdigits2 m' = Zdigits2 m1 + s)
    by (rewrite Hm'; apply Zdigits2_shiftl; assumption).
  assert (Hm'pos : 0 <= m').
  { rewrite Hm'. apply Z.shiftl_nonneg. lia. }
  pose proof (Zdigits2_div2 m' Hm'pos) as Hq.
  pose proof (Z.div_pos m' 2 Hm'pos ltac:(lia)) as Hqpos.
  unfold Z.div in Hq, Hqpos.
  destruct (Z.div_eucl m' 2) as [q r]. cbn [fst] in Hq, Hqpos.
  split; [exact Hqpos|].
  assert (Hsum : Zdigits2 q + e' = Zdigits2 m1 - 1) by (unfold s in *; lia).
  split; [|exact Hsum].
  rewrite Hsum. unfold e'.
  pose proof (fexp_mono (Zdigits2 m1 + 0 - (2 + 0)) (Zdigits2 m1 - 1) ltac:(lia)).
  lia.
Qed.

Lemma rounded_half_finite (s : bool) (m : Z) :
  0 < m -> Zdigits2 m <= 1023 ->
  (let '(mz, ez, lz) := SFdiv_core_binary prec emax m 0 2 0 in
   match binary_round_aux prec emax s mz ez lz with
   | S754_infinity _ => @Raise spec_float OverflowError
   | g => Ok g
   end) <> Raise OverflowError.
Proof.
  intros Hm Hd.
  pose proof (SFdiv_core_binary_by_2 m Hm) as Hcore.
  destruct (SFdiv_core_binary prec emax m 0 2 0) as [[mz ez] lz].
  destruct Hcore as (Hq & Hal & Hdig).
  pose proof (binary_round_aux_finite s mz ez lz Hq Hal ltac:(lia)) as Hfin.
  destruct (binary_round_aux prec emax s mz ez lz); discriminate.
Qed.

Lemma halves_to_float_bounded (w : Z) :
  Z.abs w < 2 ^ 1023 -> halves_to_float w = true.
Proof.
  intros Hw. unfold halves_to_float.
  pose proof (Zdigits2_abs_bound w Hw) as Hd.
  destruct (int_truediv w 2) as [f|e] eqn:Hdiv; [reflexivity|]. exfalso.
  unfold int_truediv in Hdiv.
  destruct w as [|p|p]; [discriminate Hdiv| |]; cbn [Z.abs Z.ltb Z.compare xorb] in Hdiv.
  - assert (He : e = OverflowError).
    { destruct (SFdiv_core_binary prec emax (Z.pos p) 0 2 0) as [[mz ez] lz].
      destruct (binary_round_aux prec emax false mz ez lz); congruence. }
    subst e. revert Hdiv. apply rounded_half_finite; [lia|exact Hd].
  - assert (He : e = OverflowError).
    { destruct (SFdiv_core_binary prec emax (Z.pos p) 0 2 0) as [[mz ez] lz].
      destruct (binary_round_aux prec emax true mz ez lz); congruence. }
    subst e. revert Hdiv. apply rounded_half_finite; [lia|exact Hd].
Qed.

(** Plain numbers conform. *)
Lemma plain_number_fits (n : pynum) : plain_number n -> number_fits n = true.
Proof. destruct n as [z|f]; [apply fits_float_bounded|intros H; exact H]. Qed.

Lemma plain_number_halves (n : pynum) : plain_number n -> number_halves n = true.
Proof. destruct n as [z|f]; [apply halves_to_float_bounded|intros H; exact H]. Qed.

Lemma plain_region_conforms (r : roi) : plain_region r -> conforming_roi r = true.
Proof.
  intros (x & y & w & h & Hrect & Hnum). unfold conforming_roi. rewrite Hrect.
  destruct (has_id r); [|reflexivity].
  destruct (Hnum eq_refl) as (Hx & Hy & Hw & Hh).
  rewrite !plain_number_fits, !plain_number_halves by assumption. reflexivity.
Qed.

Lemma plain_frame_conforms (f : frame) : plain_frame f -> conforming f = true.
Proof.
  intros Hf. unfold conforming. apply forallb_forall. intros r Hr.
  unfold plain_frame in Hf. rewrite Forall_forall in Hf.
  exact (plain_region_conforms r (Hf r Hr)).
Qed.

(** Rectangles of integers below 2^1023 in magnitude are plain. *)
Lemma interface_frame_plain (f : frame) : interface_frame f -> plain_frame f.
Proof.
  apply Forall_impl. intros r (x & y & w & h & Hrect & Hx & Hy & Hw & Hh).
  exists (PyInt x), (PyInt y), (PyInt w), (PyInt h). split; [exact Hrect|].
  intros _. cbn [plain_number]. auto.
Qed.

Lemma interface_frame_conforms (f : frame) :
  interface_frame f -> conforming f = true.
Proof. intros Hf. apply plain_frame_conforms, interface_frame_plain, Hf. Qed.

(** *** Rectangles inside the processing frame: the doubles are exact *)

Lemma float_of_small_int (x : Z) :
  0 <= x <= 640 -> float_of_int x = Ok (small_float x 0).
Proof.
  intros Hx.
  assert (H : all_from 0 640
                (fun x => match float_of_int x with
                          | Ok f => spec_float_eqb f (small_float x 0)
                          | Raise _ => false
                          end) = true) by (vm_compute; reflexivity).
  apply (all_from_spec _ _ _ x) in H; [|simpl; lia].
  cbv beta in H. destruct (float_of_int x) as [f|e]; [|discriminate H].
  apply spec_float_eqb_eq in H. now subst.
Qed.

Lemma half_of_small_int (w : Z) :
  0 <= w <= 640 -> int_truediv w 2 = Ok (small_float w (-1)).
Proof.
  intros Hw.
  assert (H : all_from 0 640
                (fun w => match int_truediv w 2 with
                          | Ok f => spec_float_eqb f (small_float w (-1))
                          | Raise _ => false
                          end) = true) by (vm_compute; reflexivity).
  apply (all_from_spec _ _ _ w) in H; [|simpl; lia].
  cbv beta in H. destruct (int_truediv w 2) as [f|e]; [|discriminate H].
  apply spec_float_eqb_eq in H. now subst.
Qed.

Lemma iter_xO_pow2 (m d : positive) :
  Zpos (Pos.iter xO m d) = Zpos m * 2 ^ Zpos d.
Proof.
  induction d as [|d IH] using Pos.peano_ind.
  - cbn. lia.
  - rewrite Pos.iter_succ, Pos2Z.inj_succ, Z.pow_succ_r by lia.
    rewrite Pos2Z.inj_xO, IH. lia.
Qed.

Lemma shl_align_fst (m : positive) (e ez : Z) :
  ez <= e -> Zpos (fst (shl_align m e ez)) = Zpos m * 2 ^ (e - ez).
Proof.
  intros Hle. unfold shl_align.
  destruct (ez - e) as [|d|d] eqn:Hd; cbn [fst].
  - replace (e - ez) with 0 by lia. lia.
  - lia.
  - rewrite iter_xO_pow2. replace (e - ez) with (Zpos d) by lia. reflexivity.
Qed.

(** The doubles of half-integers below 1921, under every alignment the
    addition of two small doubles can produce. *)
Lemma normalize_half_integer (k j : Z) :
  1 <= k <= 1920 -> 42 <= j <= 53 ->
  binary_normalize prec emax (k * 2 ^ j) (- 1 - j) false = small_float k (-1).
Proof.
  intros Hk Hj.
  assert (H : all_from 1 1919
                (fun k => all_from 42 11
                   (fun j => spec_float_eqb
                               (binary_normalize prec emax (k * 2 ^ j) (- 1 - j) false)
                               (small_float k (-1)))) = true)
    by (vm_compute; reflexivity).
  apply (all_from_spec _ _ _ k) in H; [|simpl; lia].
  cbv beta in H.
  apply (all_from_spec _ _ _ j) in H; [|simpl; lia].
  cbv beta in H.
  apply spec_float_eqb_eq in H. exact H.
Qed.

Lemma small_float_double (x : Z) :
  0 <= x <= 640 -> small_float x 0 = small_float (2 * x) (-1).
Proof.
  intros Hx.
  assert (H : all_from 0 640
                (fun x => spec_float_eqb (small_float x 0) (small_float (2 * x) (-1)))
              = true) by (vm_compute; reflexivity).
  apply (all_from_spec _ _ _ x) in H; [|simpl; lia].
  cbv beta in H. apply spec_float_eqb_eq in H. exact H.
Qed.

Lemma add_small_floats (x w : Z) :
  0 <= x <= 640 -> 0 <= w <= 640 ->
  SFadd prec emax (small_float x 0) (small_float w (-1))
  = small_float (2 * x + w) (-1).
Proof.
  intros Hx Hw.
  destruct w as [|pw|pw]; [|  |lia].
  { rewrite Z.add_0_r, <- small_float_double by exact Hx.
    destruct x as [|px|px]; [reflexivity|reflexivity|lia]. }
  destruct x as [|px|px]; [reflexivity| |lia].
  unfold small_float at 1 2. cbn [SFadd cond_Zopp].
  set (dx := Zpos (digits2_pos px)). set (dw := Zpos (digits2_pos pw)).
  assert (Hdx : 1 <= dx <= 10).
  { unfold dx. pose proof (Zdigits2_bound (Zpos px) 10 ltac:(lia) ltac:(lia)) as Hb.
    cbn [Zdigits2] in Hb. lia. }
  assert (Hdw : 1 <= dw <= 10).
  { unfold dw. pose proof (Zdigits2_bound (Zpos pw) 10 ltac:(lia) ltac:(lia)) as Hb.
    cbn [Zdigits2] in Hb. lia. }
  unfold prec.
  set (ez := Z.min (0 - (53 - dx)) (-1 - (53 - dw))).
  rewrite !shl_align_fst by (unfold ez; lia).
  assert (Hsx : 0 < Z.shiftl (Zpos px) (53 - dx)).
  { rewrite Z.shiftl_mul_pow2 by lia.
    pose proof (Z.pow_pos_nonneg 2 (53 - dx) ltac:(lia) ltac:(lia)). nia. }
  assert (Hsw : 0 < Z.shiftl (Zpos pw) (53 - dw)).
  { rewrite Z.shiftl_mul_pow2 by lia.
    pose proof (Z.pow_pos_nonneg 2 (53 - dw) ltac:(lia) ltac:(lia)). nia. }
  rewrite !Z2Pos.id by assumption.
  rewrite !Z.shiftl_mul_pow2 by lia.
  rewrite <- !Z.mul_assoc, <- !Z.pow_add_r by (unfold ez; lia).
  replace (53 - dx + (0 - (53 - dx) - ez)) with (1 + (- 1 - ez)) by lia.
  replace (53 - dw + (-1 - (53 - dw) - ez)) with (- 1 - ez) by lia.
  rewrite Z.pow_add_r by (unfold ez; lia).
  replace (Zpos px * (2 ^ 1 * 2 ^ (- 1 - ez)) + Zpos pw * 2 ^ (- 1 - ez))
    with ((2 * Zpos px + Zpos pw) * 2 ^ (- 1 - ez)) by ring.
  replace ez with (- 1 - (- 1 - ez)) at 2 by lia.
  apply normalize_half_integer; unfold ez; lia.
Qed.

Lemma grid_of_half_integer (k : Z) :
  0 <= k <= 1920 ->
  (c <- py_truediv (PyFloat (small_float k (-1))) (PyInt 640) ;;
   g <- to_grid c ;;
   py_int g)%result
  = Ok (Z.min 300 (Z.max 0 (k * 300 / 1280))).
Proof.
  intros Hk.
  assert (H : all_from 0 1920
                (fun k => match (c <- py_truediv (PyFloat (small_float k (-1))) (PyInt 640) ;;
                                 g <- to_grid c ;;
                                 py_int g)%result with
                          | Ok v => v =? Z.min 300 (Z.max 0 (k * 300 / 1280))
                          | Raise _ => false
                          end) = true) by (vm_compute; reflexivity).
  apply (all_from_spec _ _ _ k) in H; [|simpl; lia].
  cbv beta in H. destruct (rbind _ _) as [v|e]; [|discriminate H].
  apply Z.eqb_eq in H. now subst.
Qed.

Lemma grid_axis_in_frame (pos size : Z) :
  0 <= pos <= 640 -> 0 <= size <= 640 ->
  grid_axis pos size 640 = Ok (spec_grid_axis pos size 640).
Proof.
  intros Hpos Hsize.
  rewrite spec_grid_axis_exact, <- (grid_of_half_integer (2 * pos + size)) by lia.
  unfold grid_axis, normalized_center, py_truediv at 1, py_add.
  rewrite half_of_small_int, float_of_small_int by assumption.
  cbn [rbind]. rewrite add_small_floats by assumption. reflexivity.
Qed.

(** ** Frame intake *)

(** One region, lines 141-146 and 157: its payload point, in the grid;
    or NaN on an axis, and [ValueError] from [int()]. *)
Lemma region_dot_cases (x y w h : pynum) (dot : pynum * pynum) :
  region_dot x y w h = Ok dot ->
  (truncate_dot dot = Raise ValueError /\ grid_point x y w h = Raise ValueError) \/
  (exists p, truncate_dot dot = Ok p /\ grid_point x y w h = Ok p /\ in_grid p).
Proof.
  intros Hdot. unfold grid_point. rewrite Hdot. cbn [rbind].
  revert Hdot. unfold region_dot, PROCESSING_WIDTH, PROCESSING_HEIGHT.
  pose proof (normalized_center_cases x w) as Hx.
  pose proof (normalized_center_cases y h) as Hy.
  destruct (normalized_center x w 640) as [cx|e]; [|discriminate].
  destruct (normalized_center y h 640) as [cy|e]; [|discriminate].
  destruct Hx as (fx & -> & _). destruct Hy as (fy & -> & _). cbn [rbind].
  destruct (axis_of_center fx) as (gx & Hx & Hgx).
  destruct (axis_of_center fy) as (gy & Hy & Hgy).
  rewrite Hx, Hy. cbn [rbind]. intros H. injection H as <-. unfold truncate_dot. cbn [fst snd].
  destruct Hgx as [[_ ->]|(_ & zx & -> & Hrx)]; cbn [rbind]; [left; auto|].
  destruct Hgy as [[_ ->]|(_ & zy & -> & Hry)]; cbn [rbind]; [left; auto|].
  right. exists (zx, zy). repeat split; cbn [fst snd]; unfold GRID_SIZE; lia.
Qed.

(** On numbers that conform, the region has a payload point. *)
Lemma region_dot_total (x y w h : pynum) :
  number_fits x = true -> number_fits y = true ->
  number_halves w = true -> number_halves h = true ->
  exists dot p, region_dot x y w h = Ok dot /\ truncate_dot dot = Ok p.
Proof.
  intros Hx Hy Hw Hh. unfold region_dot, PROCESSING_WIDTH, PROCESSING_HEIGHT.
  destruct (normalized_center_total x w Hx Hw) as (fx & -> & Hfx).
  destruct (normalized_center_total y h Hy Hh) as (fy & -> & Hfy).
  cbn [rbind].
  destruct (axis_of_center fx) as (gx & Hgx & [[Hnan _]|(_ & zx & Hzx & _)]);
    [contradiction|].
  destruct (axis_of_center fy) as (gy & Hgy & [[Hnan _]|(_ & zy & Hzy & _)]);
    [contradiction|].
  rewrite Hgx, Hgy. cbn [rbind]. exists (gx, gy), (zx, zy). split; [reflexivity|].
  unfold truncate_dot. cbn [fst snd]. rewrite Hzx, Hzy. reflexivity.
Qed.

(** The accumulator of the loop only grows at its end. *)
Lemma collect_dots_acc (f : frame) (acc : list (pynum * pynum)) :
  collect_dots f acc = rbind (collect_dots f []) (fun new => Ok (acc ++ new)).
Proof.
  revert acc; induction f as [|r rest IH]; intros acc; cbn [collect_dots rbind].
  - now rewrite app_nil_r.
  - destruct (rect r) as [[[[x y] w] h]|]; [|reflexivity].
    destruct (has_id r); [|apply IH].
    destruct (region_dot x y w h) as [dot|e]; [|reflexivity]. cbn [rbind app].
    rewrite (IH (acc ++ [dot])), (IH [dot]).
    destruct (collect_dots rest []) as [new|e]; [|reflexivity].
    cbn [rbind app]. now rewrite <- app_assoc.
Qed.

Lemma collect_dots_app (pre post : frame) (acc : list (pynum * pynum)) :
  collect_dots (pre ++ post) acc
  = rbind (collect_dots pre acc) (fun dots => collect_dots post dots).
Proof.
  revert acc; induction pre as [|r rest IH]; intros acc; cbn [app collect_dots rbind].
  - reflexivity.
  - destruct (rect r) as [[[[x y] w] h]|]; [|reflexivity].
    destruct (has_id r); [|apply IH].
    destruct (region_dot x y w h) as [dot|e]; [|reflexivity]. cbn [rbind]. apply IH.
Qed.

Lemma conforming_roi_numbers (r : roi) :
  conforming_roi r = true ->
  exists x y w h,
    rect r = Some (x, y, w, h) /\
    (has_id r = true ->
     number_fits x = true /\ number_fits y = true /\
     number_halves w = true /\ number_halves h = true).
Proof.
  unfold conforming_roi. destruct (rect r) as [[[[x y] w] h]|]; [|discriminate].
  intros Hr. exists x, y, w, h. split; [reflexivity|]. intros Hid.
  rewrite Hid in Hr. cbn [negb orb] in Hr.
  apply andb_true_iff in Hr. destruct Hr as [Hr Hh].
  apply andb_true_iff in Hr. destruct Hr as [Hr Hw].
  apply andb_true_iff in Hr. destruct Hr as [Hx Hy]. auto.
Qed.

Lemma collect_dots_total (f : frame) (acc : list (pynum * pynum)) :
  conforming f = true -> exists dots, collect_dots f acc = Ok dots.
Proof.
  revert acc; induction f as [|r rest IH]; intros acc Hf; cbn [collect_dots].
  - eexists; reflexivity.
  - cbn [conforming forallb] in Hf. apply andb_true_iff in Hf. destruct Hf as [Hr Hrest].
    destruct (conforming_roi_numbers r Hr) as (x & y & w & h & -> & Hnum).
    destruct (has_id r); [|apply IH; exact Hrest].
    destruct (Hnum eq_refl) as (Hx & Hy & Hw & Hh).
    destruct (region_dot_total x y w h Hx Hy Hw Hh) as (dot & p & -> & _).
    cbn [rbind]. apply IH. exact Hrest.
Qed.

(** What the loop and the comprehension produce together: one pair per
    region that has an identifier; and either [int()] raises on a NaN, or
    there is one payload point per such region, in order. *)
Lemma frame_points (f : frame) (dots : list (pynum * pynum)) :
  collect_dots f [] = Ok dots ->
  List.length dots = List.length (filter has_id f) /\
  (truncate_dots dots = Raise ValueError \/
   exists points,
     truncate_dots dots = Ok points /\
     Forall2 region_point (filter has_id f) points /\
     Forall in_grid points /\
     List.length dots = List.length points).
Proof.
  revert dots; induction f as [|r rest IH]; intros dots; cbn [collect_dots filter].
  - intros H. injection H as <-. split; [reflexivity|]. right. exists []. cbn. auto.
  - destruct (rect r) as [[[[x y] w] h]|] eqn:Hrect; [|discriminate].
    destruct (has_id r); [|apply IH].
    destruct (region_dot x y w h) as [dot|e] eqn:Hdot; [|discriminate].
    cbn [rbind app]. rewrite collect_dots_acc.
    destruct (collect_dots rest []) as [new|e]; [|discriminate].
    cbn [rbind app]. intros H. injection H as <-.
    destruct (IH new eq_refl) as (Hcount & Hnew).
    split; [cbn [List.length]; now rewrite Hcount|].
    cbn [truncate_dots].
    destruct (region_dot_cases _ _ _ _ _ Hdot) as [[-> _]|(p & -> & Hgp & Hin)];
      [left; reflexivity|].
    cbn [rbind].
    destruct Hnew as [->|(points & -> & Hall & Hgrid & Hlen)]; [left; reflexivity|].
    right. exists (p :: points). cbn [rbind]. split; [reflexivity|]. split; [|split].
    + constructor; [|exact Hall]. exists x, y, w, h. auto.
    + constructor; assumption.
    + cbn [List.length]. now rewrite Hlen.
Qed.

(** On a frame that conforms, the comprehension of line 157 goes
    through. *)
Lemma conforming_truncates (f : frame) (dots : list (pynum * pynum)) :
  conforming f = true -> collect_dots f [] = Ok dots ->
  exists points, truncate_dots dots = Ok points.
Proof.
  revert dots; induction f as [|r rest IH]; intros dots Hf; cbn [collect_dots].
  - intros H. injection H as <-. exists []. reflexivity.
  - cbn [conforming forallb] in Hf. apply andb_true_iff in Hf. destruct Hf as [Hr Hrest].
    destruct (conforming_roi_numbers r Hr) as (x & y & w & h & -> & Hnum).
    destruct (has_id r); [|apply IH; exact Hrest].
    destruct (Hnum eq_refl) as (Hx & Hy & Hw & Hh).
    destruct (region_dot_total x y w h Hx Hy Hw Hh) as (dot & p & -> & Hp).
    cbn [rbind app]. rewrite collect_dots_acc.
    destruct (collect_dots rest []) as [new|e] eqn:Hnew; [|discriminate].
    cbn [rbind app]. intros H. injection H as <-.
    destruct (IH new Hrest eq_refl) as (points & Hpoints).
    exists (p :: points). cbn [truncate_dots]. rewrite Hp, Hpoints. reflexivity.
Qed.

Lemma frame_message_cases (camera : Z) (f : frame) :
  match collect_dots f [] with
  | Raise e => frame_message camera f = Raise e
  | Ok [] => frame_message camera f = Ok None /\ filter has_id f = []
  | Ok (_ :: _) =>
      filter has_id f <> [] /\
      (frame_message camera f = Raise ValueError \/
       exists points,
         points <> [] /\
         frame_message camera f = Ok (Some (detection_batch camera points)) /\
         Forall2 region_point (filter has_id f) points /\
         Forall in_grid points)
  end.
Proof.
  unfold frame_message.
  destruct (collect_dots f []) as [dots|e] eqn:Hdots; cbn [rbind]; [|reflexivity].
  destruct (frame_points f dots Hdots) as (Hcount & Hpoints).
  destruct dots as [|dot dots].
  - split; [reflexivity|]. destruct (filter has_id f); [reflexivity|discriminate Hcount].
  - split; [intros Hnone; rewrite Hnone in Hcount; discriminate Hcount|].
    cbn [build_message].
    destruct Hpoints as [->|(points & -> & Hall & Hgrid & Hlen)]; [left; reflexivity|].
    right. exists points. cbn [rbind]. split; [|auto].
    intros ->. discriminate Hlen.
Qed.

(** A message is built from the payload points of the regions that have
    an identifier, of which there is at least one. *)
Lemma frame_message_some (camera : Z) (f : frame) (m : json) :
  frame_message camera f = Ok (Some m) ->
  exists points,
    points <> [] /\ m = detection_batch camera points /\
    Forall2 region_point (filter has_id f) points /\
    Forall in_grid points.
Proof.
  intros Hm. pose proof (frame_message_cases camera f) as Hc.
  destruct (collect_dots f []) as [[|dot dots]|e].
  - destruct Hc as [Hc _]. rewrite Hm in Hc. discriminate Hc.
  - destruct Hc as (_ & [Hc|(points & Hne & Hc & Hall & Hgrid)]);
      rewrite Hm in Hc; [discriminate Hc|].
    injection Hc as ->. exists points. auto.
  - rewrite Hm in Hc. discriminate Hc.
Qed.

Lemma has_valid_region_filter (f : frame) :
  has_valid_region f <-> filter has_id f <> [].
Proof.
  unfold has_valid_region. split.
  - intros (r & Hin & Hid) Hnone.
    assert (Hr : In r (filter has_id f)) by (apply filter_In; auto).
    rewrite Hnone in Hr. contradiction Hr.
  - intros Hne. destruct (filter has_id f) as [|r rest] eqn:Hf;
      [contradiction Hne; reflexivity|].
    exists r. apply filter_In. rewrite Hf. left. reflexivity.
Qed.

(** No message without a region that has an identifier, and no return
    without a message when there is one. *)
Lemma frame_message_valid (camera : Z) (f : frame) :
  match frame_message camera f with
  | Ok (Some _) => filter has_id f <> []
  | Ok None => filter has_id f = []
  | Raise _ => True
  end.
Proof.
  pose proof (frame_message_cases camera f) as Hc.
  destruct (collect_dots f []) as [[|dot dots]|e].
  - destruct Hc as [-> Hnone]. exact Hnone.
  - destruct Hc as (Hne & [->|(points & _ & -> & _)]); [exact I|exact Hne].
  - rewrite Hc. exact I.
Qed.

Lemma frame_message_total (camera : Z) (f : frame) :
  conforming f = true -> exists m, frame_message camera f = Ok m.
Proof.
  intros Hf. unfold frame_message.
  destruct (collect_dots_total f [] Hf) as (dots & Hdots). rewrite Hdots.
  cbn [rbind]. destruct (conforming_truncates f dots Hf Hdots) as (points & Hp).
  destruct dots as [|dot dots]; cbn [build_message]; [eexists; reflexivity|].
  rewrite Hp. eexists. reflexivity.
Qed.

Lemma process_frame_returns (d : WebSocketDetector) (f : frame) :
  conforming f = true -> fst (process_frame d f) = Ok true.
Proof.
  intros Hf. unfold process_frame.
  destruct (frame_message_total (stream_id d) f Hf) as ([m|] & ->); [|reflexivity].
  destruct (put_nowait (message_queue d) m); reflexivity.
Qed.

Lemma process_frame_queue (d : WebSocketDetector) (f : frame) :
  process_frame d f =
  match frame_message (stream_id d) f with
  | Raise e => (Raise e, d)
  | Ok None => (Ok true, d)
  | Ok (Some m) =>
      if (maxsize <=? List.length (message_queue d))%nat then (Ok true, d)
      else (Ok true, set_message_queue (message_queue d ++ [m]) d)
  end.
Proof.
  unfold process_frame, put_nowait.
  destruct (frame_message (stream_id d) f) as [[m|]|e]; try reflexivity.
  destruct (maxsize <=? List.length (message_queue d))%nat; reflexivity.
Qed.

(** C6, as amended.  On a frame whose regions all expose a rectangle,
    with plain numbers (integers below 2^1023 in magnitude, or finite
    floats) where the region has an identifier, [process_frame] returns
    [True]: no exception reaches the caller; when no region is valid, or
    when the queue is full, the detector is left as it was and the result
    is still [True]. *)
Theorem intake_reports_success (d : WebSocketDetector) (f : frame) :
  plain_frame f ->
  fst (process_frame d f) = Ok true /\
  (filter has_id f = [] -> snd (process_frame d f) = d) /\
  ((maxsize <= List.length (message_queue d))%nat -> snd (process_frame d f) = d).
Proof.
  intros Hf. apply plain_frame_conforms in Hf. rewrite process_frame_queue.
  destruct (frame_message_total (stream_id d) f Hf) as (m & Hm).
  pose proof (frame_message_valid (stream_id d) f) as Hvalid. rewrite Hm in *.
  destruct m as [m|]; [|cbn [fst snd]; auto].
  destruct (maxsize <=? List.length (message_queue d))%nat eqn:Hfull; cbn [fst snd].
  - split; [reflexivity|]. split; [|reflexivity]. intros Hn. contradiction.
  - split; [reflexivity|]. split.
    + intros Hn. contradiction.
    + intros Hle. apply Nat.leb_gt in Hfull. lia.
Qed.

Lemma intake_reports_success_witness :
  let d := {| stream_id := 3; ws := None; stop_processing := false;
              message_queue := [] |} in
  let f := [{| rect := Some (PyInt 100, PyInt 100, PyInt 50, PyInt 50);
               object_id := IdReturns 7 |};
            {| rect := Some (PyFloat (S754_finite false 5629499534213120 (-43)),
                             PyInt 0, PyInt 2000, PyFloat (S754_zero false));
               object_id := IdReturns 8 |};
            {| rect := Some (PyFloat S754_nan, PyInt 0, PyInt (2 ^ 2000), PyInt 10);
               object_id := IdMissing |}] in
  fst (process_frame d f) = Ok true /\
  (filter has_id f = [] -> snd (process_frame d f) = d) /\
  ((maxsize <= List.length (message_queue d))%nat -> snd (process_frame d f) = d).
Proof.
  cbn zeta. apply intake_reports_success.
  repeat constructor; do 4 eexists; (split; [reflexivity|]); intros Hid;
    try discriminate Hid; cbn [plain_number]; repeat split; reflexivity.
Defined.

(** C6, the claim as stated, fails: on frames whose regions all expose
    the rectangle accessor and an identifier, [process_frame] raises
    instead of returning [True]: [OverflowError] for a width of 2^1025,
    [ValueError] for a NaN coordinate; the exception reaches the
    caller. *)
Lemma intake_raises_with_every_accessor :
  let d := {| stream_id := 0; ws := None; stop_processing := false;
              message_queue := [] |} in
  let wide := [{| rect := Some (PyInt 0, PyInt 0, PyInt (2 ^ 1025), PyInt 10);
                  object_id := IdReturns 1 |}] in
  let nan := [{| rect := Some (PyFloat S754_nan, PyInt 0, PyInt 10, PyInt 10);
                 object_id := IdReturns 1 |}] in
  (exposes_accessors wide /\ process_frame d wide = (Raise OverflowError, d)) /\
  (exposes_accessors nan /\ process_frame d nan = (Raise ValueError, d)).
Proof.
  cbn zeta.
  split; (split; [apply Forall_cons; [discriminate|apply Forall_nil]
                 |vm_compute; reflexivity]).
Qed.

Lemma app_one_neq {A : Type} (l : list A) (a : A) : l <> l ++ [a].
Proof.
  intros H. apply (f_equal (@List.length A)) in H.
  rewrite length_app in H. cbn in H. lia.
Qed.

(** C5, as amended.  [process_frame] puts a detection batch on the queue
    if and only if it returns (raises nothing), the frame has at least one
    region with a resolvable identifier, and the queue holds fewer than
    100 messages; on a frame of plain numbers it always returns, so there
    the last two conditions decide.  Every batch put on the queue has at
    least one point, one for each region with an identifier, in order; a
    frame whose regions all lack a resolvable identifier leaves the queue
    as it was; a call that raises leaves the detector as it was; the queue
    never changes in another way; and every batch that is built, queued
    or not, has at least one point. *)
Theorem batch_enqueued_iff_points_and_room (d : WebSocketDetector) (f : frame) :
  let d' := snd (process_frame d f) in
  ((exists m, message_queue d' = message_queue d ++ [m]) <->
   fst (process_frame d f) = Ok true /\ has_valid_region f /\
   (List.length (message_queue d) < maxsize)%nat) /\
  (plain_frame f ->
   ((exists m, message_queue d' = message_queue d ++ [m]) <->
    has_valid_region f /\ (List.length (message_queue d) < maxsize)%nat)) /\
  (forall m, message_queue d' = message_queue d ++ [m] ->
     exists points,
       points <> [] /\ m = detection_batch (stream_id d) points /\
       Forall2 region_point (filter has_id f) points) /\
  (filter has_id f = [] -> message_queue d' = message_queue d) /\
  (fst (process_frame d f) <> Ok true -> d' = d) /\
  (message_queue d' = message_queue d \/
   exists m, message_queue d' = message_queue d ++ [m]) /\
  (forall m, frame_message (stream_id d) f = Ok (Some m) ->
     exists points, points <> [] /\ m = detection_batch (stream_id d) points).
Proof.
  cbn zeta.
  assert (Hbuilt : forall m, frame_message (stream_id d) f = Ok (Some m) ->
            exists points,
              points <> [] /\ m = detection_batch (stream_id d) points /\
              Forall2 region_point (filter has_id f) points).
  { intros m Hm. destruct (frame_message_some _ _ _ Hm) as (points & Hne & Heq & Hall & _).
    exists points. auto. }
  assert (Hfirst :
            (exists m, message_queue (snd (process_frame d f)) = message_queue d ++ [m]) <->
            fst (process_frame d f) = Ok true /\ has_valid_region f /\
            (List.length (message_queue d) < maxsize)%nat).
  { rewrite process_frame_queue, has_valid_region_filter.
    pose proof (frame_message_valid (stream_id d) f) as Hvalid.
    destruct (frame_message (stream_id d) f) as [[m|]|e]; cbn [fst snd].
    - destruct (maxsize <=? List.length (message_queue d))%nat eqn:Hfull; cbn [fst snd].
      + apply Nat.leb_le in Hfull. split.
        * intros (m' & Hm'). exfalso. exact (app_one_neq _ _ Hm').
        * intros (_ & _ & Hlt). lia.
      + apply Nat.leb_gt in Hfull. cbn [set_message_queue message_queue]. split.
        * intros _. auto.
        * intros _. exists m. reflexivity.
    - split.
      + intros (m' & Hm'). exfalso. exact (app_one_neq _ _ Hm').
      + intros (_ & Hv & _). contradiction.
    - split.
      + intros (m' & Hm'). exfalso. exact (app_one_neq _ _ Hm').
      + intros (H & _). discriminate H. }
  split; [exact Hfirst|]. split; [|split; [|split; [|split; [|split]]]].
  - intros Hplain. rewrite Hfirst.
    pose proof (process_frame_returns d f (plain_frame_conforms f Hplain)) as Hret.
    split; [intros (_ & H); exact H|intros H; split; [exact Hret|exact H]].
  - intros m Hm. revert Hm. rewrite process_frame_queue.
    destruct (frame_message (stream_id d) f) as [[m0|]|e] eqn:Hmsg; cbn [snd];
      try (intros Hm; exfalso; exact (app_one_neq _ _ Hm)).
    destruct (maxsize <=? List.length (message_queue d))%nat; cbn [snd];
      [intros Hm; exfalso; exact (app_one_neq _ _ Hm)|].
    cbn [set_message_queue message_queue]. intros Hm.
    apply app_inv_head in Hm. injection Hm as <-. exact (Hbuilt m0 eq_refl).
  - intros Hnone. rewrite process_frame_queue.
    pose proof (frame_message_valid (stream_id d) f) as Hvalid.
    destruct (frame_message (stream_id d) f) as [[m|]|e]; cbn [snd]; try reflexivity.
    contradiction.
  - rewrite process_frame_queue.
    destruct (frame_message (stream_id d) f) as [[m|]|e]; cbn [fst snd];
      intros H; try reflexivity.
    destruct (maxsize <=? List.length (message_queue d))%nat; cbn [fst snd] in *;
      contradiction H; reflexivity.
  - rewrite process_frame_queue.
    destruct (frame_message (stream_id d) f) as [[m|]|e]; cbn [snd];
      try (left; reflexivity).
    destruct (maxsize <=? List.length (message_queue d))%nat; cbn [snd];
      [left; reflexivity|right; exists m; reflexivity].
  - intros m Hm. destruct (Hbuilt m Hm) as (points & Hne & Heq & _).
    exists points. auto.
Qed.

(** C5, the claim as stated, fails in three ways, each on a frame with a
    region that has an identifier and with nothing put on the queue: the
    queue is full; a later region has no rectangle accessor and
    [process_frame] raises [AttributeError]; a coordinate is NaN and
    [int()] raises [ValueError] after the loop. *)
Lemma batch_not_always_enqueued :
  let valid := {| rect := Some (PyInt 100, PyInt 100, PyInt 50, PyInt 50);
                  object_id := IdReturns 1 |} in
  let broken := {| rect := None; object_id := IdReturns 2 |} in
  let nan := {| rect := Some (PyFloat S754_nan, PyInt 100, PyInt 50, PyInt 50);
                object_id := IdReturns 3 |} in
  let empty := {| stream_id := 0; ws := None; stop_processing := false;
                  message_queue := [] |} in
  let full := {| stream_id := 0; ws := None; stop_processing := false;
                 message_queue := repeat (detection_batch 0 [(58, 58)]) 100 |} in
  ~ ((exists m, message_queue (snd (process_frame full [valid]))
                = message_queue full ++ [m])
     <-> has_valid_region [valid]) /\
  ~ ((exists m, message_queue (snd (process_frame empty [valid; broken]))
                = message_queue empty ++ [m])
     <-> has_valid_region [valid; broken]) /\
  ~ ((exists m, message_queue (snd (process_frame empty [nan]))
                = message_queue empty ++ [m])
     <-> has_valid_region [nan]).
Proof.
  cbn zeta. split; [|split]; intros [_ H]; destruct H as (m & Hm);
    try (eexists; split; [left; reflexivity|reflexivity]);
    apply (f_equal (@List.length json)) in Hm; rewrite length_app in Hm;
    vm_compute in Hm; discriminate Hm.
Qed.

(** Frames that each carry a message, fed while nothing is dequeued: the
    queue takes them in order until it holds [maxsize] messages. *)
Lemma process_frames_fill (fs : list frame) (ms : list json) (d : WebSocketDetector) :
  Forall2 (fun f m => frame_message (stream_id d) f = Ok (Some m)) fs ms ->
  process_frames d fs =
  (Ok (repeat true (List.length fs)),
   set_message_queue
     (message_queue d
        ++ firstn (maxsize - List.length (message_queue d)) ms) d).
Proof.
  intros Hall. revert d Hall. revert ms.
  induction fs as [|f fs IH]; intros ms d Hall; inversion Hall as [|f' m fs' ms' Hm Hrest]; subst.
  - cbn. rewrite firstn_nil, app_nil_r. destruct d; reflexivity.
  - cbn [process_frames List.length repeat]. rewrite process_frame_queue, Hm.
    destruct (maxsize <=? List.length (message_queue d))%nat eqn:Hfull.
    + apply Nat.leb_le in Hfull. rewrite (IH ms' d Hrest).
      replace (maxsize - List.length (message_queue d))%nat with O by lia.
      reflexivity.
    + apply Nat.leb_gt in Hfull.
      rewrite (IH ms' (set_message_queue (message_queue d ++ [m]) d) Hrest).
      cbn [set_message_queue message_queue stream_id ws stop_processing].
      rewrite length_app. cbn [List.length].
      replace (maxsize - List.length (message_queue d))%nat
        with (S (maxsize - (List.length (message_queue d) + 1)))%nat by lia.
      cbn [firstn]. rewrite <- app_assoc. reflexivity.
Qed.

Lemma Forall2_firstn {A B : Type} (R : A -> B -> Prop) (n : nat)
      (l1 : list A) (l2 : list B) :
  Forall2 R l1 l2 -> Forall2 R (firstn n l1) (firstn n l2).
Proof.
  intros H. revert n; induction H as [|a b l1 l2 Hab H IH]; intros [|n]; cbn;
    constructor; auto.
Qed.

Lemma Forall2_same_length {A B : Type} (R : A -> B -> Prop) (l1 : list A) (l2 : list B) :
  Forall2 R l1 l2 -> List.length l1 = List.length l2.
Proof. induction 1; cbn; congruence. Qed.

(** The consumer alone, on a queue that holds at least [n] messages:
    [n] calls of [get] take the [n] oldest, oldest first. *)
Lemma run_queue_takes (n : nat) (s : sys) :
  (n <= List.length (message_queue (self s)))%nat ->
  fst (run_queue (repeat Take n) s) = firstn n (message_queue (self s)) /\
  message_queue (self (snd (run_queue (repeat Take n) s)))
  = skipn n (message_queue (self s)).
Proof.
  revert s; induction n as [|n IH]; intros s Hn; cbn [repeat run_queue].
  - split; reflexivity.
  - unfold queue_get. destruct (message_queue (self s)) as [|m q] eqn:Hq;
      [cbn in Hn; lia|].
    destruct (IH (with_self (set_message_queue q) s)) as [Htaken Hleft];
      [cbn in *; lia|].
    destruct (run_queue (repeat Take n) (with_self (set_message_queue q) s))
      as [taken s'] eqn:Hrun.
    cbn [fst snd] in *. cbn [with_self self set_message_queue message_queue] in *.
    split; [cbn [firstn]; now rewrite Htaken|exact Hleft].
Qed.

(** C3.  The queue holds 100 messages and no more, first in, first out.
    Of 101 frames that each carry a message, fed to an empty queue while
    the consumer takes nothing, every call of [process_frame] returns
    [True]; afterwards the queue holds exactly the messages of the first
    100 frames, in their order; the 100th was still accepted, and the
    101st call left the detector as the first 100 calls had left it: its
    message is discarded.  The consumer then takes the queued messages
    oldest first. *)
Theorem queue_keeps_first_hundred (s : sys) (fs : list frame) (ms : list json) :
  message_queue (self s) = [] ->
  List.length fs = 101%nat ->
  Forall2 (fun f m => frame_message (stream_id (self s)) f = Ok (Some m)) fs ms ->
  let d' := snd (process_frames (self s) fs) in
  fst (process_frames (self s) fs) = Ok (repeat true 101) /\
  message_queue d' = firstn 100 ms /\
  List.length (message_queue d') = 100%nat /\
  message_queue (snd (process_frames (self s) (firstn 99 fs))) = firstn 99 ms /\
  d' = snd (process_frames (self s) (firstn 100 fs)) /\
  forall n, (n <= 100)%nat ->
    let consumed := run_queue (repeat Take n) (with_self (fun _ => d') s) in
    fst consumed = firstn n ms /\
    message_queue (self (snd consumed)) = skipn n (firstn 100 ms).
Proof.
  intros Hq Hlen Hall. cbn zeta.
  pose proof (Forall2_same_length _ _ _ Hall) as Hms.
  assert (Hfill : forall n,
             process_frames (self s) (firstn n fs)
             = (Ok (repeat true (List.length (firstn n fs))),
                set_message_queue (firstn 100 (firstn n ms)) (self s))).
  { intros n. rewrite (process_frames_fill _ _ _ (Forall2_firstn _ n _ _ Hall)), Hq.
    reflexivity. }
  pose proof (Hfill 101%nat) as Hall101. pose proof (Hfill 100%nat) as Hall100.
  pose proof (Hfill 99%nat) as Hall99.
  rewrite (firstn_all2 (n := 101%nat) fs) in Hall101 by lia.
  rewrite (firstn_all2 (n := 101%nat) ms) in Hall101 by lia.
  rewrite Hall101, Hall100, Hall99, Hlen.
  cbn [fst snd set_message_queue message_queue].
  rewrite !firstn_firstn. cbn [Nat.min].
  replace (Nat.min 100 100) with 100%nat by reflexivity.
  replace (Nat.min 100 99) with 99%nat by reflexivity.
  assert (Hlen100 : List.length (firstn 100 ms) = 100%nat)
    by (rewrite length_firstn; lia).
  do 5 (split; [reflexivity || exact Hlen100|]).
  intros n Hn.
  destruct (run_queue_takes n
              (with_self (fun _ => set_message_queue (firstn 100 ms) (self s)) s))
    as [Htaken Hleft].
  { cbn [with_self self set_message_queue message_queue]. rewrite Hlen100. exact Hn. }
  rewrite Htaken, Hleft. cbn [with_self self set_message_queue message_queue].
  rewrite firstn_firstn. split; [f_equal; lia|reflexivity].
Qed.

Lemma Forall2_repeat {A B : Type} (R : A -> B -> Prop) (a : A) (b : B) (n : nat) :
  R a b -> Forall2 R (repeat a n) (repeat b n).
Proof. intros H. induction n; cbn; constructor; assumption. Qed.

Lemma queue_keeps_first_hundred_witness :
  let s := sys_initial
             {| stream_id := 0; ws := None; stop_processing := false;
                message_queue := [] |}
             {| creates := []; sends := []; stops := [] |} in
  let f := [{| rect := Some (PyInt 100, PyInt 100, PyInt 50, PyInt 50);
               object_id := IdReturns 1 |}] in
  let m := detection_batch 0 [(58, 58)] in
  let d' := snd (process_frames (self s) (repeat f 101)) in
  fst (process_frames (self s) (repeat f 101)) = Ok (repeat true 101) /\
  message_queue d' = firstn 100 (repeat m 101) /\
  List.length (message_queue d') = 100%nat /\
  message_queue (snd (process_frames (self s) (firstn 99 (repeat f 101))))
  = firstn 99 (repeat m 101) /\
  d' = snd (process_frames (self s) (firstn 100 (repeat f 101))) /\
  forall n, (n <= 100)%nat ->
    let consumed := run_queue (repeat Take n) (with_self (fun _ => d') s) in
    fst consumed = firstn n (repeat m 101) /\
    message_queue (self (snd consumed)) = skipn n (firstn 100 (repeat m 101)).
Proof.
  cbn zeta.
  apply (queue_keeps_first_hundred
           (sys_initial
              {| stream_id := 0; ws := None; stop_processing := false;
                 message_queue := [] |}
              {| creates := []; sends := []; stops := [] |})
           (repeat [{| rect := Some (PyInt 100, PyInt 100, PyInt 50, PyInt 50);
                       object_id := IdReturns 1 |}] 101)
           (repeat (detection_batch 0 [(58, 58)]) 101)).
  - reflexivity.
  - reflexivity.
  - apply Forall2_repeat. vm_compute. reflexivity.
Defined.

(** ** The payload point *)



(** ** The rectangle is read first *)

(** C10.  The loop calls [roi.rect()] before it looks at the identifier:
    after regions that conform, a region without a rectangle accessor
    makes [process_frame] raise [AttributeError] and leaves the detector
    untouched, whether or not it has an identifier; a region with a
    rectangle and no identifier is skipped as if it were not there. *)
Theorem rect_is_read_before_identifier
        (d : WebSocketDetector) (pre post : frame) (r : roi) :
  interface_frame pre ->
  (rect r = None ->
     process_frame d (pre ++ r :: post) = (Raise AttributeError, d)) /\
  (rect r <> None -> has_id r = false ->
     process_frame d (pre ++ r :: post) = process_frame d (pre ++ post)).
Proof.
  intros Hpre. apply interface_frame_conforms in Hpre.
  destruct (collect_dots_total pre [] Hpre) as (dots & Hdots).
  split.
  - intros Hrect. unfold process_frame, frame_message.
    rewrite collect_dots_app, Hdots. cbn [rbind collect_dots].
    rewrite Hrect. reflexivity.
  - intros Hrect Hid. unfold process_frame, frame_message.
    rewrite !collect_dots_app, Hdots. cbn [rbind collect_dots].
    destruct (rect r) as [[[[x y] w] h]|]; [|contradiction Hrect; reflexivity].
    rewrite Hid. reflexivity.
Qed.

Lemma rect_is_read_before_identifier_witness :
  let d := {| stream_id := 0; ws := None; stop_processing := false;
              message_queue := [] |} in
  let pre := [{| rect := Some (PyInt 100, PyInt 100, PyInt 50, PyInt 50); object_id := IdReturns 1 |}] in
  let skipped := {| rect := Some (PyInt 1, PyInt 2, PyInt 3, PyInt 4); object_id := IdMissing |} in
  let broken := {| rect := None; object_id := IdMissing |} in
  process_frame d (pre ++ broken :: []) = (Raise AttributeError, d) /\
  process_frame d (pre ++ skipped :: []) = process_frame d (pre ++ []).
Proof.
  cbn zeta. split.
  - refine (proj1 (rect_is_read_before_identifier _ [_] [] _ _) _);
      [|reflexivity].
    repeat constructor; do 4 eexists; (split; [reflexivity|]);
      repeat split; reflexivity.
  - refine (proj2 (rect_is_read_before_identifier _ [_] [] _ _) _ _);
      [|discriminate|reflexivity].
    repeat constructor; do 4 eexists; (split; [reflexivity|]);
      repeat split; reflexivity.
Defined.

(** ** Rules for triples *)

Lemma triple_ret {A : Type} (I P : sys -> Prop) (a : A) :
  triple I P (ret a) (fun _ s => P s).
Proof. intros s Hs. exact Hs. Qed.

Lemma triple_bind {A B : Type} (I P : sys -> Prop) (Q : A -> sys -> Prop)
      (R : B -> sys -> Prop) (c : M A) (k : A -> M B) :
  triple I P c Q -> (forall a, triple I (Q a) (k a) R) -> triple I P (bind c k) R.
Proof.
  intros Hc Hk s Hs. unfold bind. specialize (Hc s Hs).
  destruct (c s) as [[a|] s1]; [exact (Hk a s1 Hc)|exact Hc].
Qed.

Lemma triple_weaken {A : Type} (I P P' : sys -> Prop) (Q Q' : A -> sys -> Prop) (c : M A) :
  triple I P' c Q' -> (forall s, P s -> P' s) -> (forall a s, Q' a s -> Q a s) ->
  triple I P c Q.
Proof.
  intros Hc HP HQ s Hs. specialize (Hc s (HP s Hs)).
  destruct (c s) as [[a|] s1]; [exact (HQ a s1 Hc)|exact Hc].
Qed.

Lemma triple_read {A : Type} (I P : sys -> Prop) (f : sys -> A) :
  triple I P (read f) (fun _ s => P s).
Proof. intros s Hs. exact Hs. Qed.

Lemma triple_running {A : Type} (I P : sys -> Prop) (Q : A -> sys -> Prop) :
  (forall s, P s -> I s) -> triple I P running Q.
Proof. intros H s Hs. exact (H s Hs). Qed.

(** ** The lock discipline *)

Lemma lock_free_respected (s : sys) : lock_free s -> lock_respected s.
Proof. unfold lock_free, lock_respected. intros ->. discriminate. Qed.

Lemma lock_held_respected (s : sys) : lock_held s -> lock_respected s.
Proof. unfold lock_held, lock_respected. intros ->. discriminate. Qed.

Lemma lock_acquire :
  triple lock_respected lock_free (emit EvLock) (fun _ => lock_held).
Proof. intros s Hs. unfold lock_held, lock_free in *. cbn. rewrite Hs. reflexivity. Qed.

Lemma lock_release :
  triple lock_respected lock_held (emit EvUnlock) (fun _ => lock_free).
Proof. intros s Hs. unfold lock_held, lock_free in *. cbn. rewrite Hs. reflexivity. Qed.

Lemma lock_create_connection :
  triple lock_respected lock_held create_connection (fun _ => lock_held).
Proof.
  intros s Hs. unfold create_connection, lock_held in *.
  destruct (creates (env s)) as [|[| |] rest];
    [apply lock_held_respected; exact Hs| | |]; cbn; rewrite Hs; reflexivity.
Qed.

Lemma lock_ws_send (payload : string) :
  triple lock_respected lock_held (ws_send payload) (fun _ => lock_held).
Proof.
  intros s Hs. unfold ws_send, lock_held in *.
  destruct (ws (self s)) as [h|]; [|exact Hs].
  destruct (sends (env s)) as [|[|still] rest];
    [apply lock_held_respected; exact Hs| |]; cbn; rewrite Hs; reflexivity.
Qed.

Lemma lock_clear_ws :
  triple lock_respected lock_held clear_ws (fun _ => lock_held).
Proof. intros s Hs. unfold lock_held in *. cbn. rewrite Hs. reflexivity. Qed.

Lemma lock_ws_close (h : handle) :
  triple lock_respected lock_held (ws_close h) (fun _ => lock_held).
Proof. intros s Hs. unfold lock_held in *. cbn. rewrite Hs. reflexivity. Qed.

Lemma lock_sleep (seconds : Z) :
  triple lock_respected lock_free (sleep seconds) (fun _ => lock_free).
Proof. intros s Hs. unfold lock_free in *. cbn. rewrite Hs. reflexivity. Qed.

Lemma lock_queue_get :
  triple lock_respected lock_free queue_get (fun _ => lock_free).
Proof.
  intros s Hs. unfold queue_get, lock_free in *.
  destruct (message_queue (self s)) as [|m rest]; cbn; [rewrite Hs; reflexivity|exact Hs].
Qed.

Lemma lock_modify_self (f : WebSocketDetector -> WebSocketDetector) :
  triple lock_respected lock_free (modify_self f) (fun _ => lock_free).
Proof. intros s Hs. exact Hs. Qed.

Create HintDb lock discriminated.
#[local] Hint Resolve lock_acquire lock_release lock_create_connection lock_ws_send
  lock_clear_ws lock_ws_close lock_sleep lock_queue_get lock_modify_self
  triple_read triple_ret : lock.

(** One statement of a method: its triple comes from the database. *)
Ltac lock_next := eapply triple_bind; [solve [eauto with lock]|intros ?].

Lemma lock_connect_loop (fuel : nat) (attempt : Z) :
  triple lock_respected lock_free (connect_loop fuel attempt) (fun _ => lock_free).
Proof.
  revert attempt; induction fuel as [|fuel IH]; intros attempt.
  - apply triple_running, lock_free_respected.
  - cbn [connect_loop]. lock_next.
    match goal with b : bool |- _ => destruct b end; [apply triple_ret|].
    lock_next. eapply triple_bind; [apply lock_create_connection|]. intros ok.
    lock_next. destruct ok; [apply triple_ret|].
    lock_next. apply IH.
Qed.

Lemma lock_connect_websocket :
  triple lock_respected lock_free _connect_websocket (fun _ => lock_free).
Proof.
  intros s Hs. unfold _connect_websocket.
  exact (triple_bind _ _ _ _ _ _ (lock_connect_loop _ _)
           (fun _ => triple_ret _ _ tt) s Hs).
Qed.

#[local] Hint Resolve lock_connect_websocket : lock.

Lemma lock_send_heartbeat :
  triple lock_respected lock_free _send_heartbeat (fun _ => lock_free).
Proof.
  unfold _send_heartbeat. lock_next.
  match goal with b : bool |- _ => destruct b end; [apply triple_ret|].
  lock_next. eapply triple_bind; [apply lock_ws_send|]. intros ok.
  lock_next. destruct ok; [apply triple_ret|].
  lock_next. lock_next. apply lock_release.
Qed.

#[local] Hint Resolve lock_send_heartbeat : lock.

Lemma lock_manage_tick :
  triple lock_respected lock_free manage_tick (fun _ => lock_free).
Proof.
  unfold manage_tick. lock_next.
  match goal with b : bool |- _ => destruct b end; lock_next; apply lock_sleep.
Qed.

Lemma lock_manage_websocket (ticks : nat) :
  triple lock_respected lock_free (_manage_websocket ticks) (fun _ => lock_free).
Proof.
  induction ticks as [|ticks IH].
  - apply triple_running, lock_free_respected.
  - cbn [_manage_websocket]. lock_next.
    match goal with b : bool |- _ => destruct b end; [apply triple_ret|].
    eapply triple_bind; [apply lock_manage_tick|]. intros ?. exact IH.
Qed.

Lemma lock_send_message (message : json) :
  triple lock_respected lock_free (_send_message message) (fun _ => lock_free).
Proof.
  unfold _send_message. lock_next.
  eapply triple_bind with (Q := fun _ => lock_free).
  { match goal with b : bool |- _ => destruct b end; [|apply triple_ret].
    lock_next. lock_next. apply triple_ret. }
  intros proceed. destruct (negb proceed); [apply triple_ret|].
  lock_next. eapply triple_bind; [apply lock_ws_send|]. intros ok.
  lock_next. destruct ok; [apply triple_ret|].
  lock_next. lock_next. lock_next. apply lock_connect_websocket.
Qed.

Lemma lock_process_messages (rounds : nat) :
  triple lock_respected lock_free (_process_messages rounds) (fun _ => lock_free).
Proof.
  induction rounds as [|rounds IH].
  - apply triple_running, lock_free_respected.
  - cbn [_process_messages]. lock_next.
    match goal with b : bool |- _ => destruct b end; [apply triple_ret|].
    eapply triple_bind; [apply lock_queue_get|]. intros [message|]; [|exact IH].
    eapply triple_bind; [apply lock_send_message|]. intros ?. exact IH.
Qed.

Lemma lock_del :
  triple lock_respected lock_free __del__ (fun _ => lock_free).
Proof.
  unfold __del__. lock_next. eapply triple_bind; [apply triple_read|].
  intros [h|]; [|apply triple_ret].
  lock_next. lock_next. apply lock_release.
Qed.

Lemma triple_outcome {A : Type} (I P : sys -> Prop) (Q : A -> sys -> Prop)
      (c : M A) (s : sys) :
  triple I P c Q -> P s ->
  (forall a, fst (c s) = Ret a -> Q a (snd (c s))) /\
  (fst (c s) = Running -> I (snd (c s))).
Proof.
  intros Hc Hs. specialize (Hc s Hs). destruct (c s) as [[a|] s']; cbn [fst snd].
  - split; [intros a' Ha; injection Ha as <-; exact Hc|discriminate].
  - split; [discriminate|intros _; exact Hc].
Qed.

(** X1.  Every method that touches the connection keeps the lock
    discipline: started with [ws_lock] free, the supervisory loop, the
    sender loop, [_send_message] and [__del__] only call
    [create_connection], [settimeout], [send] and [close] and assign
    [self.ws] while holding the lock, never acquire it twice, never sleep
    or wait on the queue while holding it, and have released it whenever
    they return. *)
Theorem lock_discipline (s : sys) :
  lock_after (log s) = Some false ->
  (forall ticks : nat,
      let r := _manage_websocket ticks s in
      lock_after (log (snd r)) <> None /\
      (fst r = Ret tt -> lock_after (log (snd r)) = Some false)) /\
  (forall rounds : nat,
      let r := _process_messages rounds s in
      lock_after (log (snd r)) <> None /\
      (fst r = Ret tt -> lock_after (log (snd r)) = Some false)) /\
  (forall message : json,
      let r := _send_message message s in
      lock_after (log (snd r)) <> None /\
      (fst r = Ret tt -> lock_after (log (snd r)) = Some false)) /\
  (fst (__del__ s) = Ret tt /\ lock_after (log (snd (__del__ s))) = Some false).
Proof.
  intros Hs.
  assert (Hgen : forall c : M unit,
             triple lock_respected lock_free c (fun _ => lock_free) ->
             lock_after (log (snd (c s))) <> None /\
             (fst (c s) = Ret tt -> lock_after (log (snd (c s))) = Some false)).
  { intros c Hc. destruct (triple_outcome _ _ _ c s Hc Hs) as [Hret Hrun].
    split; [|exact (Hret tt)].
    destruct (fst (c s)) as [[]|] eqn:Hfst.
    - apply lock_free_respected. exact (Hret tt eq_refl).
    - exact (Hrun eq_refl). }
  split; [|split; [|split]].
  - intros ticks. apply Hgen, lock_manage_websocket.
  - intros rounds. apply Hgen, lock_process_messages.
  - intros message. apply Hgen, lock_send_message.
  - split; [|apply (Hgen __del__ lock_del)].
    + unfold __del__. run_thread. destruct (ws (self s)); reflexivity.
    + unfold __del__. run_thread. destruct (ws (self s)); reflexivity.
Qed.

Lemma lock_discipline_witness :
  let s := sys_initial
             {| stream_id := 0; ws := None; stop_processing := false;
                message_queue := [detection_batch 0 [(58, 58)]] |}
             {| creates := [CreateRaises; CreateOk];
                sends := [SendRaises false]; stops := [] |} in
  lock_after (log (snd (_process_messages 2 s))) <> None /\
  lock_after (log (snd (_manage_websocket 2 s))) <> None /\
  lock_after (log (snd (__del__ s))) = Some false.
Proof.
  cbn zeta. split; [|split].
  - match goal with |- context [_process_messages 2 ?s] =>
      apply (proj1 (proj2 (lock_discipline s eq_refl)) 2%nat) end.
  - match goal with |- context [_manage_websocket 2 ?s] =>
      apply (proj1 (lock_discipline s eq_refl) 2%nat) end.
  - match goal with |- context [__del__ ?s] =>
      apply (proj2 (proj2 (proj2 (lock_discipline s eq_refl)))) end.
Defined.

(** ** Invariants of the two loops *)

Lemma keeps_ret {A : Type} (Inv : sys -> Prop) (a : A) : keeps Inv (ret a).
Proof. intros s Hs. exact Hs. Qed.

Lemma keeps_read {A : Type} (Inv : sys -> Prop) (f : sys -> A) : keeps Inv (read f).
Proof. intros s Hs. exact Hs. Qed.

Lemma keeps_running {A : Type} (Inv : sys -> Prop) : keeps Inv (@running A).
Proof. intros s Hs. exact Hs. Qed.

Lemma keeps_bind {A B : Type} (Inv : sys -> Prop) (c : M A) (k : A -> M B) :
  keeps Inv c -> (forall a, keeps Inv (k a)) -> keeps Inv (bind c k).
Proof.
  intros Hc Hk s Hs. unfold bind. specialize (Hc s Hs).
  destruct (c s) as [[a|] s1]; [exact (Hk a s1 Hc)|exact Hc].
Qed.

Section Invariants.

Variable Inv : sys -> Prop.
Variable sendable : string -> Prop.

Hypothesis I_lock : keeps Inv (emit EvLock).
Hypothesis I_unlock : keeps Inv (emit EvUnlock).
Hypothesis I_create : keeps Inv create_connection.
Hypothesis I_clear : keeps Inv clear_ws.
Hypothesis I_sleep : forall seconds, keeps Inv (sleep seconds).
Hypothesis I_send : forall payload, sendable payload -> keeps Inv (ws_send payload).

Ltac keep :=
  repeat first
    [ apply keeps_ret | apply keeps_read | apply keeps_running
    | apply I_lock | apply I_unlock | apply I_create | apply I_clear
    | apply I_sleep | apply I_send; assumption
    | assumption
    | match goal with |- keeps _ (bind _ _) => apply keeps_bind; [|intros ?] end
    | match goal with |- keeps _ (if ?b then _ else _) => destruct b end ].

Lemma keeps_connect_loop (fuel : nat) (attempt : Z) : keeps Inv (connect_loop fuel attempt).
Proof.
  revert attempt; induction fuel as [|fuel IH]; intros attempt; cbn [connect_loop]; keep.
  apply IH.
Qed.

Lemma keeps_connect_websocket : keeps Inv _connect_websocket.
Proof.
  intros s Hs. unfold _connect_websocket.
  apply (keeps_bind Inv (connect_loop _ 0) (fun _ => ret tt)); [|keep|exact Hs].
  apply keeps_connect_loop.
Qed.

Lemma keeps_send_heartbeat : sendable (dumps heartbeat) -> keeps Inv _send_heartbeat.
Proof. intros Hhb. unfold _send_heartbeat. keep. Qed.

Lemma keeps_manage_tick : sendable (dumps heartbeat) -> keeps Inv manage_tick.
Proof.
  intros Hhb. unfold manage_tick. keep.
  - apply keeps_connect_websocket.
  - apply keeps_send_heartbeat, Hhb.
Qed.

Lemma keeps_manage_websocket (ticks : nat) :
  sendable (dumps heartbeat) -> keeps Inv (_manage_websocket ticks).
Proof.
  intros Hhb. induction ticks as [|ticks IH]; cbn [_manage_websocket]; keep.
  apply keeps_manage_tick, Hhb.
Qed.

Lemma keeps_send_message (message : json) :
  sendable (dumps message) -> keeps Inv (_send_message message).
Proof.
  intros Hm. unfold _send_message. keep; apply keeps_connect_websocket.
Qed.

Hypothesis I_queue_get : keeps Inv queue_get.
Hypothesis I_sendable : forall payload, sendable payload.

Lemma keeps_process_messages (rounds : nat) : keeps Inv (_process_messages rounds).
Proof.
  induction rounds as [|rounds IH]; cbn [_process_messages]; keep.
  match goal with a : option json |- _ => destruct a as [message|] end; keep.
  apply keeps_send_message, I_sendable.
Qed.

End Invariants.

(** *** The events of each thread *)

Lemma emitted_only_refl (allowed : event -> bool) (s : sys) : emitted_only allowed s s.
Proof. exists []. rewrite app_nil_r. auto. Qed.

Lemma emitted_only_more (allowed : event -> bool) (s0 s s' : sys) (evs : list event) :
  emitted_only allowed s0 s ->
  history s' = history s ++ evs ->
  forallb allowed evs = true ->
  emitted_only allowed s0 s'.
Proof.
  intros (tr & Htr & Hall) Hh Hevs. exists (tr ++ evs).
  rewrite Hh, Htr, app_assoc, forallb_app, Hall, Hevs. auto.
Qed.

Section Alphabet.

Variable allowed : event -> bool.
Variable s0 : sys.
Hypothesis allowed_connect : forall ev, connect_event ev = true -> allowed ev = true.

Lemma only_emit (ev : event) :
  allowed ev = true -> keeps (emitted_only allowed s0) (emit ev).
Proof.
  intros Hev s Hs. apply (emitted_only_more allowed s0 s _ [ev] Hs); [reflexivity|].
  cbn. rewrite Hev. reflexivity.
Qed.

Lemma only_create_connection : keeps (emitted_only allowed s0) create_connection.
Proof.
  intros s Hs. unfold create_connection.
  destruct (creates (env s)) as [|r rest]; [exact Hs|].
  destruct r; cbn [snd].
  - apply (emitted_only_more allowed s0 s _
             [EvCreate (Some (next_handle s)); EvSetTimeout (next_handle s) true] Hs).
    + unfold history. cbn. rewrite <- app_assoc. reflexivity.
    + cbn. rewrite !allowed_connect by reflexivity. reflexivity.
  - apply (emitted_only_more allowed s0 s _ [EvCreate None] Hs); [reflexivity|].
    cbn. rewrite allowed_connect by reflexivity. reflexivity.
  - apply (emitted_only_more allowed s0 s _
             [EvCreate (Some (next_handle s)); EvSetTimeout (next_handle s) false] Hs).
    + unfold history. cbn. rewrite <- app_assoc. reflexivity.
    + cbn. rewrite !allowed_connect by reflexivity. reflexivity.
Qed.

Lemma only_wait (ev : event) :
  allowed ev = true -> keeps (emitted_only allowed s0) (wait ev).
Proof.
  intros Hev s Hs. apply (emitted_only_more allowed s0 s _ [ev] Hs); [reflexivity|].
  cbn. rewrite Hev. reflexivity.
Qed.

Lemma only_clear_ws :
  allowed EvClear = true -> keeps (emitted_only allowed s0) clear_ws.
Proof.
  intros Hev s Hs. apply (emitted_only_more allowed s0 s _ [EvClear] Hs); [reflexivity|].
  cbn. rewrite Hev. reflexivity.
Qed.

Lemma only_ws_send (payload : string) :
  (forall h ok, allowed (EvSend h payload ok) = true) ->
  keeps (emitted_only allowed s0) (ws_send payload).
Proof.
  intros Hev s Hs. unfold ws_send.
  destruct (ws (self s)) as [h|]; [|exact Hs].
  destruct (sends (env s)) as [|[|still] rest]; [exact Hs| |]; cbn [snd].
  - apply (emitted_only_more allowed s0 s _ [EvSend h payload true] Hs); [reflexivity|].
    cbn. rewrite Hev. reflexivity.
  - apply (emitted_only_more allowed s0 s _ [EvSend h payload false] Hs); [reflexivity|].
    cbn. rewrite Hev. reflexivity.
Qed.

Lemma only_queue_get :
  allowed EvQueueWait = true -> keeps (emitted_only allowed s0) queue_get.
Proof.
  intros Hev s Hs. unfold queue_get.
  destruct (message_queue (self s)) as [|m rest]; [|exact Hs].
  apply (only_wait EvQueueWait Hev s Hs).
Qed.

End Alphabet.

Lemma same_queue_create_connection (s0 : sys) : keeps (same_queue s0) create_connection.
Proof.
  intros s Hs. unfold create_connection.
  destruct (creates (env s)) as [|[| |] rest]; exact Hs.
Qed.

Lemma same_queue_ws_send (s0 : sys) (payload : string) :
  keeps (same_queue s0) (ws_send payload).
Proof.
  intros s Hs. unfold ws_send.
  destruct (ws (self s)) as [h|]; [|exact Hs].
  destruct (sends (env s)) as [|[|still] rest]; exact Hs.
Qed.

(** The supervisory thread: events of its alphabet only, and the queue
    and the identifier as they were. *)
Lemma manage_websocket_trace (ticks : nat) (s : sys) :
  emitted_only supervisor_event s (snd (_manage_websocket ticks s)) /\
  same_queue s (snd (_manage_websocket ticks s)).
Proof.
  split.
  - apply (keeps_manage_websocket (emitted_only supervisor_event s)
             (fun p => p = heartbeat_payload)).
    + apply only_emit; reflexivity.
    + apply only_emit; reflexivity.
    + apply only_create_connection. intros [] H; cbn in *; congruence.
    + apply only_clear_ws; reflexivity.
    + intros seconds. apply only_wait; reflexivity.
    + intros payload ->. apply only_ws_send. reflexivity.
    + reflexivity.
    + apply emitted_only_refl.
  - apply (keeps_manage_websocket (same_queue s) (fun _ => True)).
    + intros s1 H1; exact H1.
    + intros s1 H1; exact H1.
    + apply same_queue_create_connection.
    + intros s1 H1; exact H1.
    + intros seconds s1 H1; exact H1.
    + intros payload _. apply same_queue_ws_send.
    + exact I.
    + split; reflexivity.
Qed.

Lemma process_messages_trace (rounds : nat) (s : sys) :
  emitted_only sender_event s (snd (_process_messages rounds s)).
Proof.
  apply (keeps_process_messages (emitted_only sender_event s) (fun _ => True)).
  - apply only_emit; reflexivity.
  - apply only_emit; reflexivity.
  - apply only_create_connection. intros [] H; cbn in *; congruence.
  - apply only_clear_ws; reflexivity.
  - intros seconds. apply only_wait; reflexivity.
  - intros payload _. apply only_ws_send. reflexivity.
  - apply only_queue_get; reflexivity.
  - intros _. exact I.
  - apply emitted_only_refl.
Qed.

Lemma forallb_In {A : Type} (f : A -> bool) (l : list A) (a : A) :
  forallb f l = true -> In a l -> f a = true.
Proof. intros H Hin. rewrite forallb_forall in H. exact (H a Hin). Qed.

(** X7.  Whatever the network does, the supervisory loop only ever sends
    the heartbeat text, never waits on the queue, and leaves the queue and
    the stream identifier as they were. *)
Theorem supervisor_sends_only_heartbeats (ticks : nat) (s : sys) :
  let s' := snd (_manage_websocket ticks s) in
  exists tr : list event,
    history s' = history s ++ tr /\
    (forall h payload ok, In (EvSend h payload ok) tr -> payload = heartbeat_payload) /\
    ~ In EvQueueWait tr /\
    message_queue (self s') = message_queue (self s) /\
    stream_id (self s') = stream_id (self s).
Proof.
  cbn zeta. destruct (manage_websocket_trace ticks s) as [(tr & Hh & Hall) [Hq Hid]].
  exists tr. split; [exact Hh|]. split; [|split; [|split; assumption]].
  - intros h payload ok Hin. apply (forallb_In _ _ _ Hall) in Hin.
    cbn in Hin. apply String.eqb_eq in Hin. exact Hin.
  - intros Hin. apply (forallb_In _ _ _ Hall) in Hin. discriminate Hin.
Qed.

Lemma supervisor_sends_only_heartbeats_witness :
  let s := sys_initial
             {| stream_id := 0; ws := None; stop_processing := false;
                message_queue := [] |}
             {| creates := [CreateOk]; sends := [SendOk]; stops := [] |} in
  In (EvSend 0%nat (dumps heartbeat) true) (history (snd (_manage_websocket 2 s))) /\
  dumps heartbeat = heartbeat_payload.
Proof.
  cbn zeta.
  match goal with |- context [_manage_websocket 2 ?s] =>
    destruct (supervisor_sends_only_heartbeats 2 s) as (tr & Hh & Hsends & _) end.
  change (history (sys_initial _ _)) with (@nil event) in Hh. cbn [app] in Hh.
  assert (Hin : In (EvSend 0%nat (dumps heartbeat) true) tr)
    by (rewrite <- Hh; vm_compute; auto 10).
  split; [rewrite Hh; exact Hin|].
  exact (Hsends 0%nat (dumps heartbeat) true Hin).
Defined.

(** X9.  Neither loop ever calls [close]: a connection whose send failed,
    that was cleared or that a later connection replaced is dropped
    unclosed; only [__del__] closes. *)
Theorem loops_never_close (s : sys) (h : handle) :
  (forall ticks : nat, exists tr : list event,
      history (snd (_manage_websocket ticks s)) = history s ++ tr /\
      ~ In (EvClose h) tr) /\
  (forall rounds : nat, exists tr : list event,
      history (snd (_process_messages rounds s)) = history s ++ tr /\
      ~ In (EvClose h) tr).
Proof.
  split.
  - intros ticks. destruct (manage_websocket_trace ticks s) as [(tr & Hh & Hall) _].
    exists tr. split; [exact Hh|]. intros Hin.
    apply (forallb_In _ _ _ Hall) in Hin. discriminate Hin.
  - intros rounds. destruct (process_messages_trace rounds s) as (tr & Hh & Hall).
    exists tr. split; [exact Hh|]. intros Hin.
    apply (forallb_In _ _ _ Hall) in Hin. discriminate Hin.
Qed.

(** ** The sender keeps the order of the queue *)

Lemma subsequence_app_skip {A : Type} (l1 l2 : list A) (a : A) :
  subsequence l1 l2 -> subsequence l1 (l2 ++ [a]).
Proof.
  induction 1; cbn.
  - apply subsequence_skip, subsequence_nil.
  - apply subsequence_skip. assumption.
  - apply subsequence_take. assumption.
Qed.

Lemma subsequence_app_take {A : Type} (l1 l2 : list A) (a : A) :
  subsequence l1 l2 -> subsequence (l1 ++ [a]) (l2 ++ [a]).
Proof.
  induction 1; cbn.
  - apply subsequence_take, subsequence_nil.
  - apply subsequence_skip. assumption.
  - apply subsequence_take. assumption.
Qed.

Lemma subsequence_length {A : Type} (l1 l2 : list A) :
  subsequence l1 l2 -> (List.length l1 <= List.length l2)%nat.
Proof. induction 1; cbn; lia. Qed.

Lemma sends_of_app (tr1 tr2 : list event) :
  sends_of (tr1 ++ tr2) = sends_of tr1 ++ sends_of tr2.
Proof.
  induction tr1 as [|ev tr1 IH]; [reflexivity|].
  destruct ev; cbn; rewrite ?IH; reflexivity.
Qed.

Lemma payloads_of_app (tr1 tr2 : list event) :
  payloads_of (tr1 ++ tr2) = payloads_of tr1 ++ payloads_of tr2.
Proof. unfold payloads_of. rewrite sends_of_app, map_app. reflexivity. Qed.

Lemma quiet_step_refl (s : sys) : quiet_step s s.
Proof. exists []. rewrite app_nil_r. auto. Qed.

Lemma pending_quiet (message : json) (s0 s s' : sys) :
  pending message s0 s -> quiet_step s s' -> pending message s0 s'.
Proof.
  intros (tr & taken & Hh & Hq & Hsub) (evs & Hh' & Hs & Hq').
  exists (tr ++ evs), taken. rewrite Hh', Hh, app_assoc, Hq'. split; [reflexivity|].
  split; [exact Hq|]. unfold payloads_of in *. rewrite sends_of_app, Hs, app_nil_r.
  exact Hsub.
Qed.

Lemma sent_in_order_quiet (s0 s s' : sys) :
  sent_in_order s0 s -> quiet_step s s' -> sent_in_order s0 s'.
Proof.
  intros (tr & taken & Hh & Hq & Hsub) (evs & Hh' & Hs & Hq').
  exists (tr ++ evs), taken. rewrite Hh', Hh, app_assoc, Hq'. split; [reflexivity|].
  split; [exact Hq|]. unfold payloads_of in *. rewrite sends_of_app, Hs, app_nil_r.
  exact Hsub.
Qed.

Lemma pending_dropped (message : json) (s0 s : sys) :
  pending message s0 s -> sent_in_order s0 s.
Proof.
  intros (tr & taken & Hh & Hq & Hsub). exists tr, (taken ++ [message]).
  rewrite <- app_assoc. split; [exact Hh|]. split; [exact Hq|].
  rewrite map_app. apply subsequence_app_skip. exact Hsub.
Qed.

Lemma quiet_emit (ev : event) (s : sys) :
  is_send ev = false -> quiet_step s (snd (emit ev s)).
Proof.
  intros Hev. exists [ev]. split; [reflexivity|]. split; [|reflexivity].
  destruct ev; try reflexivity. discriminate Hev.
Qed.

Lemma quiet_wait (ev : event) (s : sys) :
  is_send ev = false -> quiet_step s (snd (wait ev s)).
Proof.
  intros Hev. exists [ev]. split; [reflexivity|]. split; [|reflexivity].
  destruct ev; try reflexivity. discriminate Hev.
Qed.

Lemma quiet_clear_ws (s : sys) : quiet_step s (snd (clear_ws s)).
Proof. exists [EvClear]. split; [reflexivity|]. split; reflexivity. Qed.

Lemma quiet_create_connection (s : sys) : quiet_step s (snd (create_connection s)).
Proof.
  unfold create_connection.
  destruct (creates (env s)) as [|r rest]; [apply quiet_step_refl|].
  destruct r; cbn [snd].
  - exists [EvCreate (Some (next_handle s)); EvSetTimeout (next_handle s) true].
    unfold history. cbn. rewrite <- app_assoc. auto.
  - exists [EvCreate None]. unfold history. cbn. auto.
  - exists [EvCreate (Some (next_handle s)); EvSetTimeout (next_handle s) false].
    unfold history. cbn. rewrite <- app_assoc. auto.
Qed.

Section Quiet.

Variable Inv : sys -> Prop.
Hypothesis Inv_quiet : forall s s', Inv s -> quiet_step s s' -> Inv s'.

Lemma quiet_keeps_connect_websocket : keeps Inv _connect_websocket.
Proof.
  apply (keeps_connect_websocket Inv).
  - intros s Hs. apply (Inv_quiet s _ Hs), quiet_emit. reflexivity.
  - intros s Hs. apply (Inv_quiet s _ Hs), quiet_emit. reflexivity.
  - intros s Hs. apply (Inv_quiet s _ Hs), quiet_create_connection.
  - intros seconds s Hs. apply (Inv_quiet s _ Hs), quiet_wait. reflexivity.
Qed.

Lemma quiet_keeps_emit (ev : event) : is_send ev = false -> keeps Inv (emit ev).
Proof. intros Hev s Hs. apply (Inv_quiet s _ Hs), quiet_emit, Hev. Qed.

Lemma quiet_keeps_clear_ws : keeps Inv clear_ws.
Proof. intros s Hs. apply (Inv_quiet s _ Hs), quiet_clear_ws. Qed.

End Quiet.

Lemma keeps_triple {A : Type} (I P : sys -> Prop) (c : M A) :
  keeps P c -> (forall s, P s -> I s) -> triple I P c (fun _ => P).
Proof.
  intros Hc HI s Hs. specialize (Hc s Hs).
  destruct (c s) as [[a|] s']; [exact Hc|exact (HI _ Hc)].
Qed.

Lemma ws_send_pending (message : json) (s0 : sys) :
  triple (sent_in_order s0) (pending message s0) (ws_send (dumps message))
         (fun _ => sent_in_order s0).
Proof.
  intros s Hs. unfold ws_send.
  destruct (ws (self s)) as [h|]; [|apply (pending_dropped message); exact Hs].
  destruct (sends (env s)) as [|r rest]; [apply (pending_dropped message); exact Hs|].
  destruct Hs as (tr & taken & Hh & Hq & Hsub).
  assert (Hsent : forall ok s',
             history s' = history s ++ [EvSend h (dumps message) ok] ->
             message_queue (self s') = message_queue (self s) ->
             sent_in_order s0 s').
  { intros ok s' Hh' Hq'. exists (tr ++ [EvSend h (dumps message) ok]), (taken ++ [message]).
    rewrite Hh', Hh, <- !app_assoc, Hq'. split; [reflexivity|]. split; [exact Hq|].
    rewrite payloads_of_app, map_app. apply subsequence_app_take. exact Hsub. }
  destruct r as [|still]; cbn; eapply Hsent; reflexivity.
Qed.

Lemma send_message_sends_once (message : json) (s0 : sys) :
  triple (sent_in_order s0) (pending message s0) (_send_message message)
         (fun _ => sent_in_order s0).
Proof.
  pose proof (pending_quiet message s0) as Hpq.
  pose proof (sent_in_order_quiet s0) as Hsq.
  pose proof (pending_dropped message s0) as Hdrop.
  unfold _send_message.
  eapply triple_bind; [apply triple_read|]. intros unusable.
  eapply triple_bind with (Q := fun _ => pending message s0).
  { destruct unusable; [|apply triple_ret].
    eapply triple_bind;
      [apply keeps_triple; [apply quiet_keeps_connect_websocket; exact Hpq|exact Hdrop]|].
    intros ?. eapply triple_bind; [apply triple_read|]. intros ?. apply triple_ret. }
  intros proceed. destruct (negb proceed).
  { intros s Hs. apply Hdrop. exact Hs. }
  eapply triple_bind;
    [apply keeps_triple; [apply quiet_keeps_emit; [exact Hpq|reflexivity]|exact Hdrop]|].
  intros ?. eapply triple_bind; [apply ws_send_pending|]. intros ok.
  assert (Hemit : forall ev, is_send ev = false ->
             triple (sent_in_order s0) (sent_in_order s0) (emit ev)
                    (fun _ => sent_in_order s0)).
  { intros ev Hev. apply keeps_triple; [|auto].
    apply quiet_keeps_emit; [exact Hsq|exact Hev]. }
  eapply triple_bind; [apply Hemit; reflexivity|]. intros ?.
  destruct ok; [apply triple_ret|].
  eapply triple_bind; [apply Hemit; reflexivity|]. intros ?.
  eapply triple_bind;
    [apply keeps_triple; [apply quiet_keeps_clear_ws; exact Hsq|auto]|]. intros ?.
  eapply triple_bind; [apply Hemit; reflexivity|]. intros ?.
  apply keeps_triple; [apply quiet_keeps_connect_websocket; exact Hsq|auto].
Qed.

Lemma queue_get_takes (s0 : sys) :
  triple (sent_in_order s0) (sent_in_order s0) queue_get
         (fun got s => match got with
                       | Some message => pending message s0 s
                       | None => sent_in_order s0 s
                       end).
Proof.
  intros s Hs. unfold queue_get.
  destruct (message_queue (self s)) as [|m rest] eqn:Hq.
  - apply (sent_in_order_quiet s0 s _ Hs). exists [EvQueueWait].
    split; [reflexivity|]. split; reflexivity.
  - destruct Hs as (tr & taken & Hh & Hq0 & Hsub). exists tr, taken.
    split; [exact Hh|]. split; [|exact Hsub]. rewrite Hq0, Hq. reflexivity.
Qed.

Lemma process_messages_in_order (rounds : nat) (s0 : sys) :
  triple (sent_in_order s0) (sent_in_order s0) (_process_messages rounds)
         (fun _ => sent_in_order s0).
Proof.
  induction rounds as [|rounds IH].
  - apply triple_running. auto.
  - cbn [_process_messages].
    eapply triple_bind; [apply triple_read|]. intros stop.
    destruct stop; [apply triple_ret|].
    eapply triple_bind; [apply queue_get_takes|]. intros [message|]; [|exact IH].
    eapply triple_bind; [apply send_message_sends_once|]. intros ?. exact IH.
Qed.

Lemma sent_in_order_refl (s : sys) : sent_in_order s s.
Proof.
  exists [], []. rewrite app_nil_r. split; [reflexivity|]. split; [reflexivity|].
  apply subsequence_nil.
Qed.

(** X4.  The sender loop hands messages to [send] in queue order and
    each at most once: what it took is a prefix of the queue, the texts
    sent are those of a subsequence of it, and a message whose send failed
    or that was dropped is neither sent again nor put back. *)
Theorem sender_keeps_queue_order (rounds : nat) (s : sys) :
  let s' := snd (_process_messages rounds s) in
  exists (tr : list event) (taken : list json),
    history s' = history s ++ tr /\
    message_queue (self s) = taken ++ message_queue (self s') /\
    subsequence (payloads_of tr) (map dumps taken) /\
    (List.length (sends_of tr) <= List.length taken)%nat.
Proof.
  cbn zeta.
  pose proof (process_messages_in_order rounds s s (sent_in_order_refl s)) as H.
  assert (Hfinal : sent_in_order s (snd (_process_messages rounds s)))
    by (destruct (_process_messages rounds s) as [[[]|] s']; exact H).
  destruct Hfinal as (tr & taken & Hh & Hq & Hsub).
  exists tr, taken. split; [exact Hh|]. split; [exact Hq|]. split; [exact Hsub|].
  apply subsequence_length in Hsub. unfold payloads_of in Hsub.
  rewrite !length_map in Hsub. exact Hsub.
Qed.

(** ** What the connect routine leaves behind *)

Lemma last_created_app (tr1 tr2 : list event) (w : option handle) :
  last_created (tr1 ++ tr2) w = last_created tr2 (last_created tr1 w).
Proof. apply fold_left_app. Qed.

Lemma last_created_some (tr : list event) (w : option handle) (h : handle) :
  last_created tr None = Some h -> last_created tr w = Some h.
Proof.
  revert w. induction tr as [|ev tr IH] using rev_ind; intros w; [discriminate|].
  rewrite !last_created_app. cbn.
  destruct ev as [| |[h'|]| | | | | |]; auto.
Qed.

Lemma last_created_none (tr : list event) (w : option handle) :
  last_created tr None = None -> last_created tr w = w.
Proof.
  revert w. induction tr as [|ev tr IH] using rev_ind; intros w; [reflexivity|].
  rewrite !last_created_app. cbn.
  destruct ev as [| |[h'|]| | | | | |]; auto; discriminate.
Qed.

(** What the loop of the connect routine leaves behind. *)
Lemma connect_loop_outcome (fuel : nat) (attempt : Z) (s : sys) :
  exists tr,
    history (snd (connect_loop fuel attempt s)) = history s ++ tr /\
    ws (self (snd (connect_loop fuel attempt s))) = last_created tr (ws (self s)) /\
    (forall h, connected s h = true ->
               connected (snd (connect_loop fuel attempt s)) h = true) /\
    (forall h, last_created tr None = Some h ->
               connected (snd (connect_loop fuel attempt s)) h = true) /\
    (forall a, fst (connect_loop fuel attempt s) = Ret a ->
               stop_processing (self (snd (connect_loop fuel attempt s))) = true \/
               ws_unusable (snd (connect_loop fuel attempt s)) = false) /\
    message_queue (self (snd (connect_loop fuel attempt s))) = message_queue (self s).
Proof.
  revert attempt s; induction fuel as [|fuel IH]; intros attempt s.
  - exists []. cbn. rewrite app_nil_r. repeat split; auto; discriminate.
  - run_connect_step.
    destruct (stop_processing (self s)) eqn:Hstop.
    { exists []. cbn. rewrite app_nil_r. repeat split; auto; discriminate. }
    destruct (creates (env s)) as [|r rest] eqn:Hcreates.
    { exists [EvLock]. cbn. repeat split; auto; discriminate. }
    destruct r.
    + exists [EvLock; EvCreate (Some (next_handle s));
              EvSetTimeout (next_handle s) true; EvUnlock].
      cbn. unfold history. cbn. rewrite <- !app_assoc.
      split; [reflexivity|]. split; [reflexivity|]. split; [|split; [|split]].
      * intros h Hh. destruct (Nat.eqb h (next_handle s)); auto.
      * intros h Hh. injection Hh as <-. rewrite Nat.eqb_refl. reflexivity.
      * intros a _. right. unfold ws_unusable. cbn. rewrite Nat.eqb_refl. reflexivity.
      * reflexivity.
    + match goal with |- context [connect_loop fuel ?a ?s1] =>
        destruct (IH a s1) as (tr & Hh & Hws & Hconn & Hnew & Hret & Hq);
        set (r := connect_loop fuel a s1) in * end.
      exists ([EvLock; EvCreate None; EvUnlock; EvSleep (backoff_delay (attempt + 1))] ++ tr).
      split; [|split; [|split; [|split; [|split]]]].
      * rewrite Hh. unfold history. cbn. rewrite <- !app_assoc. reflexivity.
      * rewrite Hws, last_created_app. reflexivity.
      * intros h Hc. apply Hconn. exact Hc.
      * intros h Hl. rewrite last_created_app in Hl. apply Hnew. exact Hl.
      * exact Hret.
      * rewrite Hq. reflexivity.
    + match goal with |- context [connect_loop fuel ?a ?s1] =>
        destruct (IH a s1) as (tr & Hh & Hws & Hconn & Hnew & Hret & Hq);
        set (r := connect_loop fuel a s1) in * end.
      exists ([EvLock; EvCreate (Some (next_handle s));
               EvSetTimeout (next_handle s) false; EvUnlock;
               EvSleep (backoff_delay (attempt + 1))] ++ tr).
      split; [|split; [|split; [|split; [|split]]]].
      * rewrite Hh. unfold history. cbn. rewrite <- !app_assoc. reflexivity.
      * rewrite Hws, last_created_app. reflexivity.
      * intros h Hc. apply Hconn. cbn. destruct (Nat.eqb h (next_handle s)); auto.
      * intros h Hl. rewrite last_created_app in Hl. cbn in Hl.
        destruct (last_created tr None) as [h'|] eqn:Hnone.
        -- apply Hnew. rewrite (last_created_some _ _ _ Hnone) in Hl. exact Hl.
        -- rewrite (last_created_none _ _ Hnone) in Hl. injection Hl as <-.
           apply Hconn. cbn. rewrite Nat.eqb_refl. reflexivity.
      * exact Hret.
      * rewrite Hq. reflexivity.
Qed.

(** X2.  The connect routine returns only when a stop was requested or
    the detector holds a usable connection.  Afterwards [self.ws] is the
    connection created last in this call, also when its [settimeout]
    raised, and that connection is connected; with no connection created
    the handle is what it was.  The routine sends nothing and leaves the
    queue alone. *)
Theorem connect_routine_outcome (s : sys) :
  let r := _connect_websocket s in
  exists tr : list event,
    history (snd r) = history s ++ tr /\
    ws (self (snd r)) = last_created tr (ws (self s)) /\
    (forall h, last_created tr None = Some h -> connected (snd r) h = true) /\
    (fst r = Ret tt ->
       stop_processing (self (snd r)) = true \/ ws_unusable (snd r) = false) /\
    sends_of tr = [] /\
    message_queue (self (snd r)) = message_queue (self s).
Proof.
  cbn zeta.
  destruct (connect_loop_outcome (S (List.length (creates (env s)))) 0 s)
    as (tr & Hh & Hws & _ & Hnew & Hret & Hq).
  destruct (connect_loop_history (S (List.length (creates (env s)))) 0 s)
    as (tr' & Hh' & _ & Hsends).
  assert (tr' = tr) by (rewrite Hh in Hh'; apply app_inv_head in Hh'; auto). subst tr'.
  exists tr. unfold _connect_websocket, bind.
  destruct (connect_loop _ 0 s) as [[a|] s'] eqn:Hrun; cbn [fst snd] in *.
  - repeat split; auto. intros _. exact (Hret a eq_refl).
  - repeat split; auto. discriminate.
Qed.

Lemma connect_routine_outcome_witness :
  let s := sys_initial
             {| stream_id := 0; ws := None; stop_processing := false;
                message_queue := [] |}
             {| creates := [SetTimeoutRaises; CreateOk]; sends := [];
                stops := [true] |} in
  stop_processing (self (snd (_connect_websocket s))) = true \/
  ws_unusable (snd (_connect_websocket s)) = false.
Proof.
  cbn zeta.
  match goal with |- context [_connect_websocket ?s] =>
    destruct (connect_routine_outcome s) as (tr & _ & _ & _ & Hret & _) end.
  apply Hret. reflexivity.
Defined.

(** A stop requested during the backoff sleep of the last of [failures]. *)
Lemma connect_loop_stopped (rest : list create_reply) (more : list bool)
      (failures : list create_reply) (fuel : nat) (attempt : Z) (s : sys) :
  stop_processing (self s) = false ->
  failures <> [] ->
  Forall (fun r => r <> CreateOk) failures ->
  creates (env s) = failures ++ rest ->
  stops (env s) = repeat false (List.length failures - 1) ++ true :: more ->
  (List.length failures < fuel)%nat ->
  exists s' a tr,
    connect_loop fuel attempt s = (Ret a, s') /\
    stop_processing (self s') = true /\
    creates (env s') = rest /\ stops (env s') = more /\
    history s' = history s ++ tr /\
    failed_attempts tr = List.length failures /\
    (In SetTimeoutRaises failures \/ ws_unusable s = false -> ws_unusable s' = false).
Proof.
  revert fuel attempt s; induction failures as [|r failures IH];
    intros fuel attempt s Hstop Hne Hfail Hcreates Hstops Hfuel; [contradiction Hne; reflexivity|].
  destruct fuel as [|fuel]; [cbn in Hfuel; lia|].
  inversion Hfail as [|r' fs Hr Hrest]; subst.
  destruct failures as [|r2 failures].
  - (* the last failure: the stop arrives during its sleep *)
    destruct fuel as [|fuel]; [cbn in Hfuel; lia|].
    cbn [List.length Nat.sub repeat app] in Hstops.
    run_connect_step. rewrite Hstop, Hcreates. cbn.
    destruct r; [contradiction Hr; reflexivity| |]; cbn; rewrite Hstop, Hstops; cbn.
    + eexists. exists (attempt + 1).
      exists [EvLock; EvCreate None; EvUnlock; EvSleep (backoff_delay (attempt + 1))].
      split; [reflexivity|]. cbn. unfold history. cbn. rewrite <- !app_assoc.
      repeat split; auto.
      intros [[H|[]]|H]; [discriminate H|]. unfold ws_unusable in *. cbn. exact H.
    + eexists. exists (attempt + 1).
      exists [EvLock; EvCreate (Some (next_handle s));
              EvSetTimeout (next_handle s) false; EvUnlock;
              EvSleep (backoff_delay (attempt + 1))].
      split; [reflexivity|]. cbn. unfold history. cbn. rewrite <- !app_assoc.
      repeat split; auto.
      intros _. unfold ws_unusable. cbn. rewrite Nat.eqb_refl. reflexivity.
  - (* an earlier failure: no stop yet *)
    cbn [List.length Nat.sub repeat app] in Hstops.
    run_connect_step. rewrite Hstop, Hcreates. cbn.
    destruct r; [contradiction Hr; reflexivity| |]; cbn;
      match goal with |- context [connect_loop fuel ?a ?s1] =>
        destruct (IH fuel a s1) as (s' & a' & tr & Hrun & Hst & Hc & Hs & Hh & Hn & Hu);
          [cbn; rewrite Hstop, Hstops; reflexivity
          |discriminate
          |exact Hrest
          |reflexivity
          |cbn; rewrite Hstops; cbn; rewrite Nat.sub_0_r; reflexivity
          |cbn in Hfuel |- *; lia
          |]
      end.
    + exists s', a'.
      exists ([EvLock; EvCreate None; EvUnlock; EvSleep (backoff_delay (attempt + 1))] ++ tr).
      split; [exact Hrun|]. split; [exact Hst|]. split; [exact Hc|]. split; [exact Hs|].
      split; [|split].
      * rewrite Hh. unfold history. cbn. rewrite <- !app_assoc. reflexivity.
      * cbn. rewrite Hn. reflexivity.
      * intros [[H|H]|H]; [discriminate H|apply Hu; left; exact H|].
        apply Hu. right. unfold ws_unusable in *. cbn. exact H.
    + exists s', a'.
      exists ([EvLock; EvCreate (Some (next_handle s));
               EvSetTimeout (next_handle s) false; EvUnlock;
               EvSleep (backoff_delay (attempt + 1))] ++ tr).
      split; [exact Hrun|]. split; [exact Hst|]. split; [exact Hc|]. split; [exact Hs|].
      split; [|split].
      * rewrite Hh. unfold history. cbn. rewrite <- !app_assoc. reflexivity.
      * cbn. rewrite Hn. reflexivity.
      * intros _. apply Hu. right. unfold ws_unusable. cbn.
        rewrite Nat.eqb_refl. reflexivity.
Qed.

(** X3.  A stop requested during a backoff sleep takes effect at the next
    check of the loop: the routine returns after that sleep without
    another attempt, having slept the backoff sequence of the attempts
    that failed and used up exactly their answers.  If [settimeout] raised
    in one of them, the detector is left holding that connection as a
    usable one. *)
Theorem connect_stops_after_backoff
        (failures rest : list create_reply) (more : list bool) (s : sys) :
  stop_processing (self s) = false ->
  failures <> [] ->
  Forall (fun r => r <> CreateOk) failures ->
  creates (env s) = failures ++ rest ->
  stops (env s) = repeat false (List.length failures - 1) ++ true :: more ->
  exists (s' : sys) (tr : list event),
    _connect_websocket s = (Ret tt, s') /\
    stop_processing (self s') = true /\
    creates (env s') = rest /\ stops (env s') = more /\
    history s' = history s ++ tr /\
    failed_attempts tr = List.length failures /\
    sleeps_of tr = delay_sequence (List.length failures) /\
    (In SetTimeoutRaises failures -> ws_unusable s' = false).
Proof.
  intros Hstop Hne Hfail Hcreates Hstops.
  destruct (connect_loop_stopped rest more failures
              (S (List.length (creates (env s)))) 0 s Hstop Hne Hfail Hcreates Hstops)
    as (s' & a & tr & Hrun & Hst & Hc & Hs & Hh & Hn & Hu).
  { rewrite Hcreates, length_app. lia. }
  destruct (connect_websocket_history s) as (tr' & Hh' & Hsleeps & _).
  assert (Hconn : _connect_websocket s = (Ret tt, s'))
    by (unfold _connect_websocket, bind; rewrite Hrun; reflexivity).
  rewrite Hconn in Hh'. cbn [snd] in Hh'.
  assert (tr' = tr) by (rewrite Hh in Hh'; apply app_inv_head in Hh'; auto). subst tr'.
  exists s', tr. repeat split; auto.
  rewrite Hsleeps, Hn. apply backoff_delays_sequence.
Qed.

Lemma connect_stops_after_backoff_witness :
  let s := sys_initial
             {| stream_id := 0; ws := None; stop_processing := false;
                message_queue := [] |}
             {| creates := [CreateRaises; SetTimeoutRaises; CreateOk];
                sends := []; stops := [false; true] |} in
  exists (s' : sys) (tr : list event),
    _connect_websocket s = (Ret tt, s') /\
    stop_processing (self s') = true /\
    creates (env s') = [CreateOk] /\ stops (env s') = [] /\
    history s' = history s ++ tr /\
    failed_attempts tr = 2%nat /\
    sleeps_of tr = delay_sequence 2 /\
    (In SetTimeoutRaises [CreateRaises; SetTimeoutRaises] -> ws_unusable s' = false).
Proof.
  cbn zeta.
  apply (connect_stops_after_backoff [CreateRaises; SetTimeoutRaises] [CreateOk] []).
  - reflexivity.
  - discriminate.
  - repeat constructor; discriminate.
  - reflexivity.
  - reflexivity.
Defined.

(** ** Runs on a network that answers, and teardown *)

(** On a live connection the sender transmits the queue as it is. *)
Lemma process_messages_live (q : list json) (rest : list send_reply) (h : handle) (s : sys) :
  ws (self s) = Some h ->
  connected s h = true ->
  stop_processing (self s) = false ->
  message_queue (self s) = q ->
  sends (env s) = repeat SendOk (List.length q) ++ rest ->
  let s' := snd (_process_messages (List.length q) s) in
  history s' = history s ++ flat_map (fun m => sent_over h (dumps m)) q /\
  message_queue (self s') = [] /\
  ws (self s') = Some h /\
  sends (env s') = rest /\
  creates (env s') = creates (env s).
Proof.
  revert s; induction q as [|m q IH]; intros s Hws Hconn Hstop Hq Hsends; cbn zeta.
  - cbn. rewrite app_nil_r. auto.
  - cbn [List.length flat_map repeat app] in *.
    assert (Hsend : exists s1,
               _send_message m (with_self (set_message_queue q) s) = (Ret tt, s1) /\
               ws (self s1) = Some h /\ connected s1 h = true /\
               stop_processing (self s1) = false /\ message_queue (self s1) = q /\
               sends (env s1) = repeat SendOk (List.length q) ++ rest /\
               creates (env s1) = creates (env s) /\
               history s1 = history s ++ sent_over h (dumps m)).
    { unfold _send_message. run_thread. rewrite Hws, Hconn. cbn.
      rewrite Hws, Hsends. cbn. eexists. split; [reflexivity|]. cbn.
      unfold history. cbn. rewrite <- !app_assoc. auto 10. }
    destruct Hsend as (s1 & Hrun & Hws1 & Hconn1 & Hstop1 & Hq1 & Hsends1 & Hcr1 & Hh1).
    assert (Hstep : _process_messages (S (List.length q)) s
                    = _process_messages (List.length q) s1).
    { cbn [_process_messages]. unfold bind at 1, read. rewrite Hstop.
      unfold bind at 1, queue_get. rewrite Hq. unfold bind at 1. rewrite Hrun.
      reflexivity. }
    rewrite Hstep.
    destruct (IH s1 Hws1 Hconn1 Hstop1 Hq1 Hsends1) as (Hh & Hq' & Hws' & Hs' & Hc').
    rewrite Hh, Hh1, <- app_assoc, Hc', Hcr1. auto.
Qed.

(** X5.  A sender that starts without a connection connects once, when
    it has its first message, and then sends every queued message in
    order over that one connection, each between acquiring and releasing
    the lock, using one answer of the network per message. *)
Theorem sender_connects_once_and_transmits
        (m : json) (q : list json) (crest : list create_reply)
        (srest : list send_reply) (s : sys) :
  ws_unusable s = true ->
  stop_processing (self s) = false ->
  message_queue (self s) = m :: q ->
  creates (env s) = CreateOk :: crest ->
  sends (env s) = repeat SendOk (S (List.length q)) ++ srest ->
  let h := next_handle s in
  let s' := snd (_process_messages (S (List.length q)) s) in
  history s' =
    history s
      ++ [EvLock; EvCreate (Some h); EvSetTimeout h true; EvUnlock]
      ++ flat_map (fun m => sent_over h (dumps m)) (m :: q) /\
  message_queue (self s') = [] /\
  ws (self s') = Some h /\
  creates (env s') = crest /\
  sends (env s') = srest.
Proof.
  intros Hun Hstop Hq Hcreates Hsends. cbn zeta.
  cbn [repeat app] in Hsends.
  assert (Hsend : exists s1,
             _send_message m (with_self (set_message_queue q) s) = (Ret tt, s1) /\
             ws (self s1) = Some (next_handle s) /\
             connected s1 (next_handle s) = true /\
             stop_processing (self s1) = false /\ message_queue (self s1) = q /\
             sends (env s1) = repeat SendOk (List.length q) ++ srest /\
             creates (env s1) = crest /\
             history s1 =
               history s ++ [EvLock; EvCreate (Some (next_handle s));
                             EvSetTimeout (next_handle s) true; EvUnlock]
                         ++ sent_over (next_handle s) (dumps m)).
  { unfold _send_message. unfold bind at 1, read.
    assert (Hun' : ws_unusable (with_self (set_message_queue q) s) = true) by exact Hun.
    rewrite Hun'. unfold bind at 1 2, _connect_websocket. unfold bind at 1.
    run_connect_step. rewrite Hstop, Hcreates. cbn. rewrite Hcreates. cbn.
    unfold ws_unusable. cbn. rewrite Nat.eqb_refl. cbn.
    run_thread. rewrite Hsends. cbn.
    eexists. split; [reflexivity|]. cbn. rewrite Nat.eqb_refl, Hstop.
    unfold history. cbn. rewrite <- !app_assoc. auto 10. }
  destruct Hsend as (s1 & Hrun & Hws1 & Hconn1 & Hstop1 & Hq1 & Hsends1 & Hcr1 & Hh1).
  assert (Hstep : _process_messages (S (List.length q)) s
                  = _process_messages (List.length q) s1).
  { cbn [_process_messages]. unfold bind at 1, read. rewrite Hstop.
    unfold bind at 1, queue_get. rewrite Hq. unfold bind at 1. rewrite Hrun.
    reflexivity. }
  rewrite Hstep.
  destruct (process_messages_live q srest (next_handle s) s1
              Hws1 Hconn1 Hstop1 Hq1 Hsends1) as (Hh & Hq' & Hws' & Hs' & Hc').
  rewrite Hh, Hh1, Hc', Hcr1. cbn [flat_map]. rewrite <- !app_assoc. auto.
Qed.

Lemma sender_connects_once_and_transmits_witness :
  let m1 := detection_batch 4 [(58, 58)] in
  let m2 := detection_batch 4 [(10, 20); (300, 0)] in
  let s := sys_initial
             {| stream_id := 4; ws := None; stop_processing := false;
                message_queue := [m1; m2] |}
             {| creates := [CreateOk]; sends := [SendOk; SendOk]; stops := [] |} in
  let s' := snd (_process_messages 2 s) in
  history s' =
    history s
      ++ [EvLock; EvCreate (Some 0%nat); EvSetTimeout 0%nat true; EvUnlock]
      ++ flat_map (fun m => sent_over 0%nat (dumps m)) [m1; m2] /\
  message_queue (self s') = [] /\
  ws (self s') = Some 0%nat /\
  creates (env s') = [] /\
  sends (env s') = [].
Proof.
  cbn zeta.
  apply (sender_connects_once_and_transmits
           (detection_batch 4 [(58, 58)]) [detection_batch 4 [(10, 20); (300, 0)]]
           [] []); reflexivity.
Defined.

(** X18.  A failed send costs exactly the message that was being sent:
    the sender clears the handle, reconnects at once, does not send the
    message again, and sends every later message of the queue in order
    over the new connection. *)
Theorem failed_send_loses_one_message
        (m : json) (q : list json) (still : bool) (crest : list create_reply)
        (srest : list send_reply) (h : handle) (s : sys) :
  ws (self s) = Some h ->
  connected s h = true ->
  stop_processing (self s) = false ->
  message_queue (self s) = m :: q ->
  creates (env s) = CreateOk :: crest ->
  sends (env s) = SendRaises still :: repeat SendOk (List.length q) ++ srest ->
  let h' := next_handle s in
  let s' := snd (_process_messages (S (List.length q)) s) in
  history s' =
    history s
      ++ [EvLock; EvSend h (dumps m) false; EvUnlock; EvLock; EvClear; EvUnlock]
      ++ [EvLock; EvCreate (Some h'); EvSetTimeout h' true; EvUnlock]
      ++ flat_map (fun m => sent_over h' (dumps m)) q /\
  message_queue (self s') = [] /\
  ws (self s') = Some h' /\
  creates (env s') = crest /\
  sends (env s') = srest.
Proof.
  intros Hws Hconn Hstop Hq Hcreates Hsends. cbn zeta.
  assert (Hsend : exists s1,
             _send_message m (with_self (set_message_queue q) s) = (Ret tt, s1) /\
             ws (self s1) = Some (next_handle s) /\
             connected s1 (next_handle s) = true /\
             stop_processing (self s1) = false /\ message_queue (self s1) = q /\
             sends (env s1) = repeat SendOk (List.length q) ++ srest /\
             creates (env s1) = crest /\
             history s1 =
               history s
                 ++ [EvLock; EvSend h (dumps m) false; EvUnlock;
                     EvLock; EvClear; EvUnlock]
                 ++ [EvLock; EvCreate (Some (next_handle s));
                     EvSetTimeout (next_handle s) true; EvUnlock]).
  { unfold _send_message. run_thread. rewrite Hws, Hconn. cbn.
    rewrite Hws, Hsends. cbn.
    unfold _connect_websocket. unfold bind at 1. run_connect_step.
    rewrite Hstop, Hcreates. cbn. rewrite ?Hcreates. cbn.
    eexists. split; [reflexivity|]. cbn. rewrite Nat.eqb_refl, Hstop.
    unfold history. cbn. rewrite <- !app_assoc. auto 10. }
  destruct Hsend as (s1 & Hrun & Hws1 & Hconn1 & Hstop1 & Hq1 & Hsends1 & Hcr1 & Hh1).
  assert (Hstep : _process_messages (S (List.length q)) s
                  = _process_messages (List.length q) s1).
  { cbn [_process_messages]. unfold bind at 1, read. rewrite Hstop.
    unfold bind at 1, queue_get. rewrite Hq. unfold bind at 1. rewrite Hrun.
    reflexivity. }
  rewrite Hstep.
  destruct (process_messages_live q srest (next_handle s) s1
              Hws1 Hconn1 Hstop1 Hq1 Hsends1) as (Hh & Hq' & Hws' & Hs' & Hc').
  rewrite Hh, Hh1, Hc', Hcr1. rewrite <- !app_assoc. auto.
Qed.

Lemma failed_send_loses_one_message_witness :
  let m1 := detection_batch 4 [(58, 58)] in
  let m2 := detection_batch 4 [(10, 20); (300, 0)] in
  let s := snd (_connect_websocket
                  (sys_initial
                     {| stream_id := 4; ws := None; stop_processing := false;
                        message_queue := [m1; m2] |}
                     {| creates := [CreateOk; CreateOk];
                        sends := [SendRaises true; SendOk]; stops := [] |})) in
  let s' := snd (_process_messages 2 s) in
  history s' =
    history s
      ++ [EvLock; EvSend 0%nat (dumps m1) false; EvUnlock; EvLock; EvClear; EvUnlock]
      ++ [EvLock; EvCreate (Some 1%nat); EvSetTimeout 1%nat true; EvUnlock]
      ++ flat_map (fun m => sent_over 1%nat (dumps m)) [m2] /\
  message_queue (self s') = [] /\
  ws (self s') = Some 1%nat /\
  creates (env s') = [] /\
  sends (env s') = [].
Proof.
  cbn zeta.
  apply (failed_send_loses_one_message
           (detection_batch 4 [(58, 58)]) [detection_batch 4 [(10, 20); (300, 0)]]
           true [] [] 0%nat); reflexivity.
Defined.

(** Supervisory ticks on a connection that stays alive. *)
Lemma manage_websocket_live (n : nat) (rest : list send_reply) (h : handle) (s : sys) :
  ws (self s) = Some h ->
  connected s h = true ->
  stop_processing (self s) = false ->
  stops (env s) = [] ->
  sends (env s) = repeat SendOk n ++ rest ->
  let s' := snd (_manage_websocket n s) in
  history s' = history s ++ List.concat (repeat (heartbeat_tick h) n) /\
  ws (self s') = Some h /\
  sends (env s') = rest /\
  creates (env s') = creates (env s).
Proof.
  revert s; induction n as [|n IH]; intros s Hws Hconn Hstop Hstops Hsends; cbn zeta.
  - cbn. rewrite app_nil_r. auto.
  - cbn [repeat app List.concat] in *.
    assert (Htick : exists s1,
               manage_tick s = (Ret tt, s1) /\
               ws (self s1) = Some h /\ connected s1 h = true /\
               stop_processing (self s1) = false /\ stops (env s1) = [] /\
               sends (env s1) = repeat SendOk n ++ rest /\
               creates (env s1) = creates (env s) /\
               history s1 = history s ++ heartbeat_tick h).
    { unfold manage_tick, _send_heartbeat. run_thread.
      rewrite Hws, Hconn. cbn. rewrite Hws, Hconn. cbn. rewrite Hws, Hsends. cbn.
      eexists. split; [reflexivity|]. cbn. rewrite Hstop, Hstops.
      unfold history. cbn. rewrite <- !app_assoc. auto 10. }
    destruct Htick as (s1 & Hrun & Hws1 & Hconn1 & Hstop1 & Hstops1 & Hsends1 & Hcr1 & Hh1).
    assert (Hstep : _manage_websocket (S n) s = _manage_websocket n s1).
    { cbn [_manage_websocket]. unfold bind at 1, read. rewrite Hstop.
      unfold bind at 1. rewrite Hrun. reflexivity. }
    rewrite Hstep.
    destruct (IH s1 Hws1 Hconn1 Hstop1 Hstops1 Hsends1) as (Hh & Hws' & Hs' & Hc').
    rewrite Hh, Hh1, <- app_assoc, Hc', Hcr1. auto.
Qed.

(** X8.  A supervisory loop that starts disconnected connects in its
    first tick and sends nothing in it; from then on, while the connection
    holds, every tick is one heartbeat under the lock followed by a sleep
    of two seconds, with no further connection attempt. *)
Theorem heartbeat_every_tick
        (n : nat) (crest : list create_reply) (srest : list send_reply) (s : sys) :
  ws_unusable s = true ->
  stop_processing (self s) = false ->
  stops (env s) = [] ->
  creates (env s) = CreateOk :: crest ->
  sends (env s) = repeat SendOk n ++ srest ->
  let h := next_handle s in
  let s' := snd (_manage_websocket (S n) s) in
  history s' =
    history s
      ++ [EvLock; EvCreate (Some h); EvSetTimeout h true; EvUnlock; EvSleep 2]
      ++ List.concat (repeat (heartbeat_tick h) n) /\
  ws (self s') = Some h /\
  creates (env s') = crest /\
  sends (env s') = srest.
Proof.
  intros Hun Hstop Hstops Hcreates Hsends. cbn zeta.
  assert (Htick : exists s1,
             manage_tick s = (Ret tt, s1) /\
             ws (self s1) = Some (next_handle s) /\
             connected s1 (next_handle s) = true /\
             stop_processing (self s1) = false /\ stops (env s1) = [] /\
             sends (env s1) = repeat SendOk n ++ srest /\
             creates (env s1) = crest /\
             history s1 =
               history s ++ [EvLock; EvCreate (Some (next_handle s));
                             EvSetTimeout (next_handle s) true; EvUnlock; EvSleep 2]).
  { unfold manage_tick. unfold bind at 1, read. rewrite Hun.
    unfold bind at 1, _connect_websocket. unfold bind at 1.
    run_connect_step. rewrite Hstop, Hcreates. cbn. rewrite Hstop, Hstops.
    eexists. split; [reflexivity|]. cbn. rewrite Nat.eqb_refl.
    unfold history. cbn. rewrite <- !app_assoc. auto 10. }
  destruct Htick as (s1 & Hrun & Hws1 & Hconn1 & Hstop1 & Hstops1 & Hsends1 & Hcr1 & Hh1).
  assert (Hstep : _manage_websocket (S n) s = _manage_websocket n s1).
  { cbn [_manage_websocket]. unfold bind at 1, read. rewrite Hstop.
    unfold bind at 1. rewrite Hrun. reflexivity. }
  rewrite Hstep.
  destruct (manage_websocket_live n srest (next_handle s) s1
              Hws1 Hconn1 Hstop1 Hstops1 Hsends1) as (Hh & Hws' & Hs' & Hc').
  rewrite Hh, Hh1, <- app_assoc, Hc', Hcr1. auto.
Qed.

Lemma heartbeat_every_tick_witness :
  let s := sys_initial
             {| stream_id := 0; ws := None; stop_processing := false;
                message_queue := [] |}
             {| creates := [CreateOk]; sends := [SendOk; SendOk; SendOk];
                stops := [] |} in
  let s' := snd (_manage_websocket 3 s) in
  history s' =
    history s
      ++ [EvLock; EvCreate (Some 0%nat); EvSetTimeout 0%nat true; EvUnlock; EvSleep 2]
      ++ List.concat (repeat (heartbeat_tick 0%nat) 2) /\
  ws (self s') = Some 0%nat /\
  creates (env s') = [] /\
  sends (env s') = [SendOk].
Proof.
  cbn zeta.
  apply (heartbeat_every_tick 2 [] [SendOk]); reflexivity.
Defined.

(** X10.  [__del__] sets the stop flag and, when there is a handle,
    closes it under the lock; without a handle it takes no lock.  The
    handle stays in [self.ws] but is not usable any more.  After it both
    loops return at their next check, the connect routine makes no
    attempt, and [_send_message] drops its message without sending; the
    queue keeps what it held. *)
Theorem teardown_stops_the_detector (s : sys) :
  let s' := snd (__del__ s) in
  fst (__del__ s) = Ret tt /\
  stop_processing (self s') = true /\
  ws (self s') = ws (self s) /\
  ws_unusable s' = true /\
  history s' =
    history s ++ match ws (self s) with
                 | Some h => [EvLock; EvClose h; EvUnlock]
                 | None => []
                 end /\
  message_queue (self s') = message_queue (self s) /\
  (forall ticks : nat, _manage_websocket (S ticks) s' = (Ret tt, s')) /\
  (forall rounds : nat, _process_messages (S rounds) s' = (Ret tt, s')) /\
  _connect_websocket s' = (Ret tt, s') /\
  (forall message : json, _send_message message s' = (Ret tt, s')).
Proof.
  cbn zeta.
  assert (Hdel : exists s',
             __del__ s = (Ret tt, s') /\
             stop_processing (self s') = true /\
             ws (self s') = ws (self s) /\
             ws_unusable s' = true /\
             history s' =
               history s ++ match ws (self s) with
                            | Some h => [EvLock; EvClose h; EvUnlock]
                            | None => []
                            end /\
             message_queue (self s') = message_queue (self s)).
  { unfold __del__, modify_self, ws_close. run_thread.
    destruct (ws (self s)) as [h|] eqn:Hws; cbn; eexists; (split; [reflexivity|]); cbn.
    - unfold ws_unusable, history. cbn. rewrite Hws, Nat.eqb_refl.
      cbn. rewrite <- !app_assoc. auto 10.
    - unfold ws_unusable, history. cbn. rewrite Hws, app_nil_r. auto 10. }
  destruct Hdel as (s' & -> & Hstop & Hws & Hun & Hh & Hq). cbn [fst snd].
  assert (Hconn : _connect_websocket s' = (Ret tt, s')).
  { unfold _connect_websocket. unfold bind at 1. run_connect_step.
    rewrite Hstop. reflexivity. }
  repeat split; auto.
  - intros ticks. cbn [_manage_websocket]. unfold bind, read. rewrite Hstop. reflexivity.
  - intros rounds. cbn [_process_messages]. unfold bind, read. rewrite Hstop. reflexivity.
  - intros message. unfold _send_message. unfold bind at 1, read. rewrite Hun.
    unfold bind at 1 2. rewrite Hconn. unfold bind at 1, read, ret. rewrite Hun.
    reflexivity.
Qed.

(** X6.  A sender with an empty queue only waits: one second per round,
    no lock taken, no connection attempt even while disconnected; it
    returns after the wait during which the stop is requested. *)
Theorem idle_sender_polls (more : list bool) (n : nat) (s : sys) :
  stop_processing (self s) = false ->
  message_queue (self s) = [] ->
  stops (env s) = repeat false n ++ true :: more ->
  exists s' : sys,
    _process_messages (n + 2) s = (Ret tt, s') /\
    history s' = history s ++ repeat EvQueueWait (S n) /\
    stop_processing (self s') = true /\
    ws (self s') = ws (self s) /\
    creates (env s') = creates (env s) /\
    sends (env s') = sends (env s) /\
    stops (env s') = more.
Proof.
  revert s; induction n as [|n IH]; intros s Hstop Hq Hstops.
  - cbn [Nat.add _process_messages]. unfold queue_get. run_thread.
    rewrite Hstop, Hq. cbn. rewrite Hstop, Hstops. cbn.
    eexists. split; [reflexivity|]. cbn. auto 10.
  - cbn [repeat app] in Hstops.
    assert (Hstep : _process_messages (S n + 2) s
                    = _process_messages (n + 2) (snd (wait EvQueueWait s))).
    { cbn [Nat.add _process_messages]. unfold bind at 1, read. rewrite Hstop.
      unfold bind at 1, queue_get. rewrite Hq. reflexivity. }
    rewrite Hstep.
    destruct (IH (snd (wait EvQueueWait s))) as (s' & Hrun & Hh & Hst & Hws & Hc & Hs & Hm).
    + cbn. rewrite Hstop, Hstops. reflexivity.
    + exact Hq.
    + cbn. rewrite Hstops. reflexivity.
    + exists s'. split; [exact Hrun|]. split.
      * rewrite Hh. unfold history. cbn. rewrite <- app_assoc. reflexivity.
      * cbn in *. auto 10.
Qed.

Lemma idle_sender_polls_witness :
  let s := sys_initial
             {| stream_id := 0; ws := None; stop_processing := false;
                message_queue := [] |}
             {| creates := [CreateOk]; sends := []; stops := [false; false; true] |} in
  exists s' : sys,
    _process_messages (2 + 2) s = (Ret tt, s') /\
    history s' = history s ++ repeat EvQueueWait 3 /\
    stop_processing (self s') = true /\
    ws (self s') = ws (self s) /\
    creates (env s') = creates (env s) /\
    sends (env s') = sends (env s) /\
    stops (env s') = [].
Proof.
  cbn zeta.
  apply (idle_sender_polls [] 2); reflexivity.
Defined.

(** ** Producer and consumer *)

Lemma subsequence_refl {A : Type} (l : list A) : subsequence l l.
Proof. induction l; [apply subsequence_nil|apply subsequence_take; assumption]. Qed.

(** X11.  Producer and consumer on the queue, in any order of their
    operations: the queue never holds more than 100 messages; the messages
    taken followed by those still queued are the initial queue followed by
    the accepted ones, which are a subsequence of the messages the frames
    carried; nothing is lost once accepted, duplicated or reordered. *)
Theorem queue_is_bounded_and_fifo (ops : list queue_op) (s : sys) :
  (List.length (message_queue (self s)) <= maxsize)%nat ->
  let taken := fst (run_queue ops s) in
  let s' := snd (run_queue ops s) in
  exists accepted : list json,
    subsequence accepted (offered (stream_id (self s)) ops) /\
    taken ++ message_queue (self s') = message_queue (self s) ++ accepted /\
    (List.length (message_queue (self s')) <= maxsize)%nat /\
    stream_id (self s') = stream_id (self s).
Proof.
  cbn zeta. revert s; induction ops as [|op ops IH]; intros s Hlen.
  - exists []. cbn. rewrite app_nil_r. repeat split; auto. apply subsequence_nil.
  - destruct op as [f|]; cbn [run_queue offered flat_map].
    + set (s1 := with_self (fun d => snd (process_frame d f)) s).
      assert (Hid : stream_id (self s1) = stream_id (self s)).
      { unfold s1, with_self. cbn [self]. rewrite process_frame_queue.
        destruct (frame_message _ f) as [[m|]|e]; try reflexivity.
        destruct (maxsize <=? _)%nat; reflexivity. }
      assert (Hq : message_queue (self s1) =
                   match frame_message (stream_id (self s)) f with
                   | Ok (Some m) =>
                       if (maxsize <=? List.length (message_queue (self s)))%nat
                       then message_queue (self s)
                       else message_queue (self s) ++ [m]
                   | _ => message_queue (self s)
                   end).
      { unfold s1, with_self. cbn [self]. rewrite process_frame_queue.
        destruct (frame_message _ f) as [[m|]|e]; try reflexivity.
        destruct (maxsize <=? _)%nat; reflexivity. }
      destruct (frame_message (stream_id (self s)) f) as [[m|]|e].
      * destruct (maxsize <=? List.length (message_queue (self s)))%nat eqn:Hfull.
        -- destruct (IH s1) as (acc & Hsub & Heq & Hb & Hi); [rewrite Hq; exact Hlen|].
           exists acc. rewrite Hid in *. rewrite Hq in Heq.
           repeat split; auto. cbn. apply subsequence_skip. exact Hsub.
        -- apply Nat.leb_gt in Hfull.
           destruct (IH s1) as (acc & Hsub & Heq & Hb & Hi).
           { rewrite Hq, length_app. cbn. lia. }
           exists (m :: acc). rewrite Hid in *. rewrite Hq, <- app_assoc in Heq.
           repeat split; auto. cbn. apply subsequence_take. exact Hsub.
      * destruct (IH s1) as (acc & Hsub & Heq & Hb & Hi); [rewrite Hq; exact Hlen|].
        exists acc. rewrite Hid in *. rewrite Hq in Heq. repeat split; auto.
      * destruct (IH s1) as (acc & Hsub & Heq & Hb & Hi); [rewrite Hq; exact Hlen|].
        exists acc. rewrite Hid in *. rewrite Hq in Heq. repeat split; auto.
    + unfold queue_get.
      destruct (message_queue (self s)) as [|m q] eqn:Hq.
      * cbn [bind wait ret]. unfold bind, wait, ret.
        match goal with |- context [run_queue ops ?s1] =>
          destruct (IH s1) as (acc & Hsub & Heq & Hb & Hi) end.
        { cbn. rewrite Hq. cbn. lia. }
        exists acc. cbn in Heq, Hi, Hsub. rewrite Hq in Heq. repeat split; auto.
      * match goal with |- context [run_queue ops ?s1] =>
          destruct (IH s1) as (acc & Hsub & Heq & Hb & Hi);
            [|destruct (run_queue ops s1) as [taken s''] eqn:Hrun] end.
        { cbn. cbn in Hlen. lia. }
        exists acc. cbn [fst snd] in *. cbn in Heq, Hi, Hsub.
        repeat split; auto. cbn. rewrite Heq. reflexivity.
Qed.

Lemma queue_is_bounded_and_fifo_witness :
  let f := [{| rect := Some (PyInt 100, PyInt 100, PyInt 50, PyInt 50); object_id := IdReturns 1 |}] in
  let s := sys_initial
             {| stream_id := 0; ws := None; stop_processing := false;
                message_queue := [] |}
             {| creates := []; sends := []; stops := [] |} in
  let ops := [Intake f; Take; Take; Intake f] in
  exists accepted : list json,
    subsequence accepted (offered 0 ops) /\
    fst (run_queue ops s) ++ message_queue (self (snd (run_queue ops s)))
      = [] ++ accepted /\
    (List.length (message_queue (self (snd (run_queue ops s)))) <= maxsize)%nat /\
    stream_id (self (snd (run_queue ops s))) = 0.
Proof.
  cbn zeta.
  apply (queue_is_bounded_and_fifo
           [Intake [{| rect := Some (PyInt 100, PyInt 100, PyInt 50, PyInt 50); object_id := IdReturns 1 |}];
            Take; Take;
            Intake [{| rect := Some (PyInt 100, PyInt 100, PyInt 50, PyInt 50); object_id := IdReturns 1 |}]]
           (sys_initial
              {| stream_id := 0; ws := None; stop_processing := false;
                 message_queue := [] |}
              {| creates := []; sends := []; stops := [] |})).
  cbn. unfold maxsize. lia.
Defined.

(** X12.  From frames to the wire: up to 100 frames that each carry a
    message, processed on an idle detector with a live connection, are all
    reported as processed, and the sender then transmits exactly their
    messages, in the order of the frames, and empties the queue. *)
Theorem frames_reach_the_wire
        (fs : list frame) (ms : list json) (rest : list send_reply)
        (h : handle) (s : sys) :
  ws (self s) = Some h ->
  connected s h = true ->
  stop_processing (self s) = false ->
  message_queue (self s) = [] ->
  (List.length fs <= maxsize)%nat ->
  Forall2 (fun f m => frame_message (stream_id (self s)) f = Ok (Some m)) fs ms ->
  sends (env s) = repeat SendOk (List.length fs) ++ rest ->
  let s1 := with_self (fun d => snd (process_frames d fs)) s in
  let s' := snd (_process_messages (List.length fs) s1) in
  fst (process_frames (self s) fs) = Ok (repeat true (List.length fs)) /\
  history s' = history s ++ flat_map (fun m => sent_over h (dumps m)) ms /\
  message_queue (self s') = [].
Proof.
  intros Hws Hconn Hstop Hq Hlen Hall Hsends. cbn zeta.
  pose proof (Forall2_same_length _ _ _ Hall) as Hms.
  assert (Hfill : process_frames (self s) fs
                  = (Ok (repeat true (List.length fs)), set_message_queue ms (self s))).
  { rewrite (process_frames_fill fs ms (self s) Hall), Hq. cbn [app].
    rewrite firstn_all2 by (cbn [List.length]; lia). reflexivity. }
  assert (Hs1 : with_self (fun d => snd (process_frames d fs)) s
                = with_self (fun _ => set_message_queue ms (self s)) s)
    by (unfold with_self; rewrite Hfill; reflexivity).
  rewrite Hs1, Hfill. split; [reflexivity|]. rewrite Hms.
  destruct (process_messages_live ms rest h
              (with_self (fun _ => set_message_queue ms (self s)) s))
    as (Hh & Hq' & _); cbn; auto.
  rewrite <- Hms. exact Hsends.
Qed.

Lemma frames_reach_the_wire_witness :
  let f1 := [{| rect := Some (PyInt 100, PyInt 100, PyInt 50, PyInt 50); object_id := IdReturns 1 |}] in
  let f2 := [{| rect := Some (PyInt 0, PyInt 0, PyInt 640, PyInt 640); object_id := IdReturns 2 |};
             {| rect := Some (PyInt 5, PyInt 5, PyInt 5, PyInt 5); object_id := IdMissing |}] in
  let s := snd (_connect_websocket
                  (sys_initial
                     {| stream_id := 7; ws := None; stop_processing := false;
                        message_queue := [] |}
                     {| creates := [CreateOk]; sends := [SendOk; SendOk];
                        stops := [] |})) in
  let s1 := with_self (fun d => snd (process_frames d [f1; f2])) s in
  let s' := snd (_process_messages 2 s1) in
  fst (process_frames (self s) [f1; f2]) = Ok [true; true] /\
  history s' =
    history s
      ++ sent_over 0%nat (dumps (detection_batch 7 [(58, 58)]))
      ++ sent_over 0%nat (dumps (detection_batch 7 [(150, 150)])) ++ [] /\
  message_queue (self s') = [].
Proof.
  cbn zeta.
  apply (frames_reach_the_wire
           [[{| rect := Some (PyInt 100, PyInt 100, PyInt 50, PyInt 50); object_id := IdReturns 1 |}];
            [{| rect := Some (PyInt 0, PyInt 0, PyInt 640, PyInt 640); object_id := IdReturns 2 |};
             {| rect := Some (PyInt 5, PyInt 5, PyInt 5, PyInt 5); object_id := IdMissing |}]]
           [detection_batch 7 [(58, 58)]; detection_batch 7 [(150, 150)]]
           [] 0%nat); try reflexivity.
  - cbn. unfold maxsize. lia.
  - repeat constructor; vm_compute; reflexivity.
Defined.

(** ** All interleavings of two constructors *)

Lemma option_eqb_eq {A : Type} (eqb : A -> A -> bool) (a b : option A) :
  (forall x y, eqb x y = true -> x = y) -> option_eqb eqb a b = true -> a = b.
Proof.
  intros Heqb. destruct a as [x|], b as [y|]; cbn; try discriminate; [|reflexivity].
  intros H. f_equal. exact (Heqb x y H).
Qed.

Lemma list_eqb_eq {A : Type} (eqb : A -> A -> bool) (l1 l2 : list A) :
  (forall x y, eqb x y = true -> x = y) -> list_eqb eqb l1 l2 = true -> l1 = l2.
Proof.
  intros Heqb. revert l2; induction l1 as [|a l1 IH]; intros [|b l2]; cbn;
    try discriminate; [reflexivity|].
  intros H. apply andb_true_iff in H. destruct H as [Hab Hrest].
  f_equal; [exact (Heqb a b Hab)|exact (IH l2 Hrest)].
Qed.

Lemma alloc_pc_eqb_eq (p q : alloc_pc) : alloc_pc_eqb p q = true -> p = q.
Proof.
  destruct p, q; cbn; try discriminate; try reflexivity; intros H.
  - apply Nat.eqb_eq in H. congruence.
  - apply andb_true_iff in H. destruct H as [H1 H2].
    apply Nat.eqb_eq in H1. apply Z.eqb_eq in H2. congruence.
  - apply Z.eqb_eq in H. congruence.
Qed.

Lemma two_threads_eqb_eq (t u : two_threads) : two_threads_eqb t u = true -> t = u.
Proof.
  unfold two_threads_eqb, StreamIDCounter_eqb. intros H.
  apply andb_true_iff in H. destruct H as [H H2].
  apply andb_true_iff in H. destruct H as [H H1].
  apply andb_true_iff in H. destruct H as [Hi Hl].
  apply (option_eqb_eq Nat.eqb) in Hi; [|intros x y; apply Nat.eqb_eq].
  apply (list_eqb_eq (option_eqb Z.eqb)) in Hl;
    [|intros x y; apply option_eqb_eq; intros a b; apply Z.eqb_eq].
  apply alloc_pc_eqb_eq in H1. apply alloc_pc_eqb_eq in H2.
  destruct t as [[ti tl] t1 t2], u as [[ui ul] u1 u2]. cbn in *. congruence.
Qed.

Lemma known_In (seen : list two_threads) (t : two_threads) :
  known seen t = true -> In t seen.
Proof.
  unfold known. intros H. apply existsb_exists in H. destruct H as (u & Hin & Heq).
  apply two_threads_eqb_eq in Heq. subst. exact Hin.
Qed.

(** A closed set that holds a state holds every state scheduled from
    it. *)
Lemma closed_fold_left (seen : list two_threads) (schedule : list bool) (t : two_threads) :
  closed seen = true -> In t seen -> In (fold_left schedule_step schedule t) seen.
Proof.
  intros Hclosed. revert t; induction schedule as [|who schedule IH]; intros t Hin;
    [exact Hin|].
  cbn [fold_left]. apply IH.
  unfold closed in Hclosed. rewrite forallb_forall in Hclosed.
  specialize (Hclosed t Hin). rewrite forallb_forall in Hclosed.
  apply known_In, Hclosed. unfold successors. destruct who; cbn; auto.
Qed.

Lemma run_schedule_reachable (schedule : list bool) :
  In (run_schedule schedule) (reachable_within 10).
Proof.
  apply closed_fold_left; [vm_compute; reflexivity|].
  apply known_In. vm_compute. reflexivity.
Qed.

(** X13.  In every interleaving of two constructors, statement by
    statement, the identifiers received are 0 and 1 in either order or 0
    twice, and nothing else; at most two [StreamIDCounter] objects ever
    exist.  Both orders occur. *)
Theorem interleaved_identifiers_are_0_or_1 :
  (forall (schedule : list bool) (a b : Z),
      returned_id (first_pc (run_schedule schedule)) = Some a ->
      returned_id (second_pc (run_schedule schedule)) = Some b ->
      (a = 0 /\ b = 1) \/ (a = 1 /\ b = 0) \/ (a = 0 /\ b = 0)) /\
  (forall schedule : list bool,
      (List.length (instances (shared (run_schedule schedule))) <= 2)%nat) /\
  (exists schedule : list bool,
      returned_id (first_pc (run_schedule schedule)) = Some 0 /\
      returned_id (second_pc (run_schedule schedule)) = Some 1) /\
  (exists schedule : list bool,
      returned_id (first_pc (run_schedule schedule)) = Some 1 /\
      returned_id (second_pc (run_schedule schedule)) = Some 0).
Proof.
  assert (Hall : forallb ids_plausible (reachable_within 10) = true)
    by (vm_compute; reflexivity).
  rewrite forallb_forall in Hall.
  split; [|split; [|split]].
  - intros schedule a b Ha Hb.
    specialize (Hall _ (run_schedule_reachable schedule)).
    unfold ids_plausible in Hall. rewrite Ha, Hb in Hall.
    apply andb_true_iff in Hall. destruct Hall as [Hall _].
    rewrite !orb_true_iff, !andb_true_iff, !Z.eqb_eq in Hall. tauto.
  - intros schedule.
    specialize (Hall _ (run_schedule_reachable schedule)).
    unfold ids_plausible in Hall.
    apply andb_true_iff in Hall. destruct Hall as [_ Hall].
    apply Nat.leb_le in Hall. exact Hall.
  - exists [false; false; false; false; false; true; true; true; true].
    split; reflexivity.
  - exists [true; true; true; true; true; false; false; false; false].
    split; reflexivity.
Qed.

Lemma interleaved_identifiers_are_0_or_1_witness :
  (0 = 0 /\ 0 = 1) \/ (0 = 1 /\ 0 = 0) \/ (0 = 0 /\ 0 = 0).
Proof.
  apply (proj1 interleaved_identifiers_are_0_or_1
           [false; true; false; false; true; true; false; false; true; true]);
    reflexivity.
Defined.

(** ** The exceptions of frame intake *)

(** *** What [process_frame] can raise *)

Lemma fits_float_false (z : Z) : fits_float z = false -> 2 ^ 1023 <= Z.abs z.
Proof.
  intros H. destruct (Z.lt_ge_cases (Z.abs z) (2 ^ 1023)) as [Hlt|Hge]; [|exact Hge].
  rewrite (fits_float_bounded z Hlt) in H. discriminate H.
Qed.

Lemma halves_to_float_false (z : Z) : halves_to_float z = false -> 2 ^ 1023 <= Z.abs z.
Proof.
  intros H. destruct (Z.lt_ge_cases (Z.abs z) (2 ^ 1023)) as [Hlt|Hge]; [|exact Hge].
  rewrite (halves_to_float_bounded z Hlt) in H. discriminate H.
Qed.

Lemma normalized_center_raises (pos size : pynum) (e : exn) :
  normalized_center pos size 640 = Raise e ->
  e = OverflowError /\ (oversized pos \/ oversized size).
Proof.
  intros H. pose proof (normalized_center_cases pos size) as Hc. rewrite H in Hc.
  destruct Hc as (-> & [(z & -> & Hz)|(z & -> & Hz)]); (split; [reflexivity|]).
  - left. apply fits_float_false, Hz.
  - right. apply halves_to_float_false, Hz.
Qed.

(** Lines 141-146 raise only [OverflowError], on an integer too large
    for a double. *)
Lemma region_dot_raises (x y w h : pynum) (e : exn) :
  region_dot x y w h = Raise e ->
  e = OverflowError /\ some_number oversized x y w h.
Proof.
  unfold region_dot, PROCESSING_WIDTH, PROCESSING_HEIGHT, some_number.
  pose proof (normalized_center_cases x w) as Hx.
  destruct (normalized_center x w 640) as [cx|e1] eqn:Hcx.
  2:{ cbn [rbind]. intros H. injection H as <-.
      destruct (normalized_center_raises _ _ _ Hcx) as [-> [Hbig|Hbig]]; auto. }
  pose proof (normalized_center_cases y h) as Hy.
  destruct (normalized_center y h 640) as [cy|e1] eqn:Hcy.
  2:{ cbn [rbind]. intros H. injection H as <-.
      destruct (normalized_center_raises _ _ _ Hcy) as [-> [Hbig|Hbig]]; auto. }
  destruct Hx as (fx & -> & _). destruct Hy as (fy & -> & _).
  destruct (axis_of_center fx) as (gx & Hgx & _).
  destruct (axis_of_center fy) as (gy & Hgy & _).
  cbn [rbind]. rewrite Hgx, Hgy. cbn [rbind]. discriminate.
Qed.

(** [int()] on a pair of the loop (line 157) raises only [ValueError], on
    a NaN, which needs a float in the rectangle that is NaN or an
    infinity. *)
Lemma truncate_dot_raises (x y w h : pynum) (dot : pynum * pynum) (e : exn) :
  region_dot x y w h = Ok dot -> truncate_dot dot = Raise e ->
  e = ValueError /\ some_number non_finite x y w h.
Proof.
  unfold region_dot, PROCESSING_WIDTH, PROCESSING_HEIGHT, some_number.
  pose proof (normalized_center_cases x w) as Hx.
  pose proof (normalized_center_cases y h) as Hy.
  destruct (normalized_center x w 640) as [cx|e1]; [|discriminate].
  destruct (normalized_center y h 640) as [cy|e1]; [|discriminate].
  destruct Hx as (fx & -> & Hfx). destruct Hy as (fy & -> & Hfy).
  destruct (axis_of_center fx) as (gx & Hgx & Hcx).
  destruct (axis_of_center fy) as (gy & Hgy & Hcy).
  cbn [rbind]. rewrite Hgx, Hgy. cbn [rbind]. intros H. injection H as <-.
  unfold truncate_dot. cbn [fst snd].
  destruct Hcx as [[Hnan ->]|(_ & zx & -> & _)]; cbn [rbind].
  - intros H. injection H as <-. split; [reflexivity|].
    destruct (Hfx Hnan) as [Hbad| ->]; [left; exact Hbad|right; right; left; reflexivity].
  - destruct Hcy as [[Hnan ->]|(_ & zy & -> & _)]; cbn [rbind]; [|discriminate].
    intros H. injection H as <-. split; [reflexivity|].
    destruct (Hfy Hnan) as [Hbad| ->];
      [right; left; exact Hbad|right; right; right; reflexivity].
Qed.

(** A region of the frame that has an identifier and a number of the
    given kind in its rectangle. *)
Lemma region_in_tail (P : pynum -> Prop) (r : roi) (rest : frame) :
  (exists r0 x y w h,
     In r0 rest /\ has_id r0 = true /\ rect r0 = Some (x, y, w, h) /\
     some_number P x y w h) ->
  exists r0 x y w h,
    In r0 (r :: rest) /\ has_id r0 = true /\ rect r0 = Some (x, y, w, h) /\
    some_number P x y w h.
Proof.
  intros (r0 & x & y & w & h & Hin & Hrest).
  exists r0, x, y, w, h. split; [right; exact Hin|exact Hrest].
Qed.

Lemma collect_dots_raises (f : frame) (acc : list (pynum * pynum)) (e : exn) :
  collect_dots f acc = Raise e ->
  (e = AttributeError /\ exists r, In r f /\ rect r = None) \/
  (e = OverflowError /\
   exists r x y w h,
     In r f /\ has_id r = true /\ rect r = Some (x, y, w, h) /\
     some_number oversized x y w h).
Proof.
  revert acc; induction f as [|r rest IH]; intros acc; cbn [collect_dots]; [discriminate|].
  destruct (rect r) as [[[[x y] w] h]|] eqn:Hrect.
  2:{ intros H. injection H as <-. left. split; [reflexivity|].
      exists r. split; [left; reflexivity|exact Hrect]. }
  assert (Hrest : forall acc',
             collect_dots rest acc' = Raise e ->
             (e = AttributeError /\ exists r0, In r0 (r :: rest) /\ rect r0 = None) \/
             (e = OverflowError /\
              exists r0 x0 y0 w0 h0,
                In r0 (r :: rest) /\ has_id r0 = true /\
                rect r0 = Some (x0, y0, w0, h0) /\ some_number oversized x0 y0 w0 h0)).
  { intros acc' H. destruct (IH acc' H) as [[-> (r0 & Hin & Hr0)]|[-> Hbig]].
    - left. split; [reflexivity|]. exists r0. split; [right; exact Hin|exact Hr0].
    - right. split; [reflexivity|]. apply region_in_tail, Hbig. }
  destruct (has_id r) eqn:Hid; [|apply Hrest].
  destruct (region_dot x y w h) as [dot|e1] eqn:Hdot; cbn [rbind]; [apply Hrest|].
  intros H. injection H as <-. destruct (region_dot_raises _ _ _ _ _ Hdot) as [-> Hbig].
  right. split; [reflexivity|]. exists r, x, y, w, h.
  split; [left; reflexivity|]. auto.
Qed.

Lemma truncate_dots_raises (f : frame) (dots : list (pynum * pynum)) (e : exn) :
  collect_dots f [] = Ok dots -> truncate_dots dots = Raise e ->
  e = ValueError /\
  exists r x y w h,
    In r f /\ has_id r = true /\ rect r = Some (x, y, w, h) /\
    some_number non_finite x y w h.
Proof.
  revert dots; induction f as [|r rest IH]; intros dots; cbn [collect_dots].
  - intros H. injection H as <-. discriminate.
  - destruct (rect r) as [[[[x y] w] h]|] eqn:Hrect; [|discriminate].
    destruct (has_id r) eqn:Hid.
    2:{ intros Hdots Htr. destruct (IH dots Hdots Htr) as [-> Hbad].
        split; [reflexivity|]. apply region_in_tail, Hbad. }
    destruct (region_dot x y w h) as [dot|e1] eqn:Hdot; [|discriminate].
    cbn [rbind app]. rewrite collect_dots_acc.
    destruct (collect_dots rest []) as [new|e1]; [|discriminate].
    cbn [rbind app]. intros H. injection H as <-. cbn [truncate_dots].
    destruct (truncate_dot dot) as [p|e1] eqn:Hp; cbn [rbind].
    + destruct (truncate_dots new) as [points|e2] eqn:Hnew; cbn [rbind]; [discriminate|].
      intros H. injection H as <-. destruct (IH new eq_refl Hnew) as [-> Hbad].
      split; [reflexivity|]. apply region_in_tail, Hbad.
    + intros H. injection H as <-.
      destruct (truncate_dot_raises _ _ _ _ _ _ Hdot Hp) as [-> Hbad].
      split; [reflexivity|]. exists r, x, y, w, h.
      split; [left; reflexivity|]. auto.
Qed.

(** X14.  [process_frame] raises nothing but [AttributeError], which
    needs a region without a rectangle accessor; [OverflowError], which
    needs a region with an identifier and an integer of at least 2^1023 in
    magnitude in its rectangle; and [ValueError], which needs a region
    with an identifier and a float that is NaN or an infinity in its
    rectangle.  No division by zero reaches the caller.  When it raises,
    the detector is as it was. *)
Theorem intake_raises_three_errors (d : WebSocketDetector) (f : frame) (e : exn) :
  fst (process_frame d f) = Raise e ->
  snd (process_frame d f) = d /\
  ((e = AttributeError /\ exists r, In r f /\ rect r = None) \/
   (e = OverflowError /\
    exists r x y w h,
      In r f /\ has_id r = true /\ rect r = Some (x, y, w, h) /\
      some_number oversized x y w h) \/
   (e = ValueError /\
    exists r x y w h,
      In r f /\ has_id r = true /\ rect r = Some (x, y, w, h) /\
      some_number non_finite x y w h)).
Proof.
  rewrite process_frame_queue. unfold frame_message.
  destruct (collect_dots f []) as [dots|e1] eqn:Hdots; cbn [rbind fst snd].
  - destruct dots as [|dot dots]; cbn [build_message]; [discriminate|].
    destruct (truncate_dots (dot :: dots)) as [points|e1] eqn:Htr; cbn [rbind].
    + destruct (maxsize <=? _)%nat; discriminate.
    + cbn [fst snd]. intros H. injection H as <-. split; [reflexivity|].
      right; right. exact (truncate_dots_raises f _ e1 Hdots Htr).
  - intros H. injection H as <-. split; [reflexivity|].
    destruct (collect_dots_raises f [] e1 Hdots) as [Hattr|Hover]; auto.
Qed.

Lemma intake_raises_three_errors_witness :
  let d := {| stream_id := 0; ws := None; stop_processing := false;
              message_queue := [] |} in
  let f := [{| rect := Some (PyInt 100, PyInt 100, PyInt 50, PyInt 50);
               object_id := IdReturns 1 |};
            {| rect := Some (PyInt 0, PyFloat (S754_infinity false),
                             PyInt 10, PyFloat (S754_infinity true));
               object_id := IdReturns 2 |}] in
  snd (process_frame d f) = d /\
  ((ValueError = AttributeError /\ exists r, In r f /\ rect r = None) \/
   (ValueError = OverflowError /\
    exists r x y w h,
      In r f /\ has_id r = true /\ rect r = Some (x, y, w, h) /\
      some_number oversized x y w h) \/
   (ValueError = ValueError /\
    exists r x y w h,
      In r f /\ has_id r = true /\ rect r = Some (x, y, w, h) /\
      some_number non_finite x y w h)).
Proof.
  cbn zeta. apply intake_raises_three_errors. vm_compute. reflexivity.
Defined.

(** *** Integers too large for a double *)

Lemma shr_fexp_digits (m e : Z) (l : location) :
  0 <= m ->
  e <= fexp prec emax (Zdigits2 m + e) ->
  let '(mrs, e') := shr_fexp prec emax m e l in
  0 <= shr_m mrs /\
  e' = fexp prec emax (Zdigits2 m + e) /\
  Zdigits2 (shr_m mrs) = Z.max 0 (Zdigits2 m - (e' - e)).
Proof.
  intros Hm Halign.
  pose proof (shr_fexp_nonneg m e l Hm) as Hnn.
  unfold shr_fexp, shr in *.
  assert (Hr : shr_m (shr_record_of_loc m l) = m) by (destruct l as [|[| |]]; reflexivity).
  destruct (fexp prec emax (Zdigits2 m + e) - e) as [|p|p] eqn:Hn; cbn [fst] in Hnn.
  - rewrite Hr. pose proof (Zdigits2_nonneg m). repeat split; lia.
  - rewrite iter_pos_shr_1_digits by (rewrite Hr; exact Hm). rewrite Hr.
    repeat split; try exact Hnn; lia.
  - lia.
Qed.

Lemma fexp_large (a : Z) : 1025 <= a -> fexp prec emax a = a - 53.
Proof. unfold fexp, emin, prec, emax. lia. Qed.

(** Rounding an aligned mantissa of 1025 binary digits or more (exponent
    included) overflows. *)
Lemma binary_round_aux_overflows (sx : bool) (mx ex : Z) (lx : location) :
  0 <= mx ->
  ex <= fexp prec emax (Zdigits2 mx + ex) ->
  1025 <= Zdigits2 mx + ex ->
  binary_round_aux prec emax sx mx ex lx = S754_infinity sx.
Proof.
  intros Hm Halign Hd. unfold binary_round_aux.
  pose proof (shr_fexp_digits mx ex lx Hm Halign) as H1.
  destruct (shr_fexp prec emax mx ex lx) as [mrs' e'].
  destruct H1 as (Hnn1 & He1 & Hdig1).
  rewrite fexp_large in He1 by exact Hd.
  assert (Hdig1' : Zdigits2 (shr_m mrs') = 53) by lia.
  set (m1r := round_nearest_even (shr_m mrs') (loc_of_shr_record mrs')).
  assert (Hround : 0 <= m1r /\ 53 <= Zdigits2 m1r <= 54).
  { unfold m1r.
    destruct (round_nearest_even_cases (shr_m mrs') (loc_of_shr_record mrs')) as [->| ->].
    - lia.
    - split; [lia|]. split.
      + pose proof (Zdigits2_mono (shr_m mrs') (shr_m mrs' + 1) ltac:(lia)). lia.
      + pose proof (Zdigits2_succ (shr_m mrs') Hnn1). lia. }
  destruct Hround as (Hnn2 & Hdig2).
  assert (Halign2 : e' <= fexp prec emax (Zdigits2 m1r + e'))
    by (rewrite fexp_large by lia; lia).
  pose proof (shr_fexp_digits m1r e' loc_Exact Hnn2 Halign2) as H2.
  destruct (shr_fexp prec emax m1r e' loc_Exact) as [mrs'' e''].
  destruct H2 as (Hnn3 & He2 & Hdig3).
  rewrite fexp_large in He2 by lia.
  assert (Hdig3' : Zdigits2 (shr_m mrs'') = 53) by lia.
  destruct (shr_m mrs'') as [|m|m]; [discriminate Hdig3'| |lia].
  assert (Hover : (e'' <=? emax - prec) = false)
    by (apply Z.leb_gt; unfold emax, prec; lia).
  rewrite Hover. reflexivity.
Qed.

Lemma Zdigits2_large (m k : Z) : 0 <= k -> 2 ^ k <= m -> k + 1 <= Zdigits2 m.
Proof.
  intros Hk Hm.
  assert (0 < m) by (pose proof (Z.pow_pos_nonneg 2 k ltac:(lia) Hk); lia).
  rewrite Zdigits2_log2 by assumption.
  assert (k <= Z.log2 m) by (apply Z.log2_le_pow2; assumption). lia.
Qed.

Lemma float_of_int_overflows (z : Z) :
  2 ^ 1024 <= Z.abs z -> float_of_int z = Raise OverflowError.
Proof.
  intros Hz. unfold float_of_int, binary_normalize, binary_round.
  destruct z as [|m|m]; [cbn in Hz; lia| |];
    pose proof (shl_align_aligned m 0) as Hal;
    destruct (shl_align m 0 _) as [mz ez]; destruct Hal as [Hal Hdig];
    pose proof (Zdigits2_large (Zpos m) 1024 ltac:(lia) Hz) as Hbig;
    cbn [Zdigits2] in *;
    rewrite binary_round_aux_overflows by (cbn [Zdigits2]; lia); reflexivity.
Qed.

Lemma int_truediv_by_2_overflows (z : Z) :
  2 ^ 1025 <= Z.abs z -> int_truediv z 2 = Raise OverflowError.
Proof.
  intros Hz. unfold int_truediv.
  destruct z as [|m|m]; [cbn in Hz; lia| |]; cbn [Z.abs Z.ltb Z.compare xorb] in *;
    pose proof (SFdiv_core_binary_by_2 (Zpos m) ltac:(lia)) as Hcore;
    pose proof (Zdigits2_large (Zpos m) 1025 ltac:(lia) Hz) as Hbig;
    destruct (SFdiv_core_binary prec emax (Zpos m) 0 2 0) as [[mz ez] lz];
    destruct Hcore as (Hq & Hal & Hdig);
    rewrite binary_round_aux_overflows by lia; reflexivity.
Qed.

Lemma region_dot_overflows (x y w h : Z) :
  2 ^ 1024 <= Z.abs x \/ 2 ^ 1024 <= Z.abs y \/
  2 ^ 1025 <= Z.abs w \/ 2 ^ 1025 <= Z.abs h ->
  region_dot x y w h = Raise OverflowError.
Proof.
  intros Hbig.
  destruct (region_dot x y w h) as [dot|e] eqn:Hdot.
  - exfalso. revert Hdot.
    unfold region_dot, PROCESSING_WIDTH, PROCESSING_HEIGHT.
    unfold normalized_center, py_truediv at 1 3, py_add.
    destruct Hbig as [Hx|[Hy|[Hw|Hh]]].
    + rewrite (float_of_int_overflows x Hx).
      destruct (int_truediv w 2); discriminate.
    + rewrite (float_of_int_overflows y Hy).
      destruct (int_truediv w 2); [|discriminate]. cbn [rbind].
      destruct (float_of_int x); [|discriminate]. cbn [rbind].
      destruct (py_truediv _ _); [|discriminate]. cbn [rbind].
      destruct (int_truediv h 2); discriminate.
    + rewrite (int_truediv_by_2_overflows w Hw). discriminate.
    + rewrite (int_truediv_by_2_overflows h Hh).
      destruct (int_truediv w 2); [|discriminate]. cbn [rbind].
      destruct (float_of_int x); [|discriminate]. cbn [rbind].
      destruct (py_truediv _ _); discriminate.
  - f_equal. exact (proj1 (region_dot_raises _ _ _ _ _ Hdot)).
Qed.

(** X15.  A region with an identifier whose [x] or [y] is at least 2^1024
    in magnitude, or whose width or height is at least 2^1025, makes
    [process_frame] raise [OverflowError] and leaves the detector as it
    was; the same rectangle without an identifier is skipped, since the
    arithmetic comes after the guard.  The largest double, 2^1024 - 2^971,
    still converts. *)
Theorem oversized_rectangle_overflows
        (d : WebSocketDetector) (pre post : frame) (r : roi) (x y w h : Z) :
  interface_frame pre ->
  rect r = Some (PyInt x, PyInt y, PyInt w, PyInt h) ->
  2 ^ 1024 <= Z.abs x \/ 2 ^ 1024 <= Z.abs y \/
  2 ^ 1025 <= Z.abs w \/ 2 ^ 1025 <= Z.abs h ->
  (has_id r = true ->
     process_frame d (pre ++ r :: post) = (Raise OverflowError, d)) /\
  (has_id r = false ->
     process_frame d (pre ++ r :: post) = process_frame d (pre ++ post)) /\
  float_of_int (2 ^ 1024) = Raise OverflowError /\
  fits_float (2 ^ 1024 - 2 ^ 971) = true.
Proof.
  intros Hpre Hrect Hbig. apply interface_frame_conforms in Hpre.
  destruct (collect_dots_total pre [] Hpre) as (dots & Hdots).
  split; [|split; [|split]].
  - intros Hid. unfold process_frame, frame_message.
    rewrite collect_dots_app, Hdots. cbn [rbind collect_dots].
    rewrite Hrect, Hid, (region_dot_overflows x y w h Hbig). reflexivity.
  - intros Hid. unfold process_frame, frame_message.
    rewrite !collect_dots_app, Hdots. cbn [rbind collect_dots].
    rewrite Hrect, Hid. reflexivity.
  - apply float_of_int_overflows. rewrite Z.abs_eq by (apply Z.pow_nonneg; lia). lia.
  - vm_compute. reflexivity.
Qed.

Lemma oversized_rectangle_overflows_witness :
  let d := {| stream_id := 0; ws := None; stop_processing := false;
              message_queue := [] |} in
  let pre := [{| rect := Some (PyInt 100, PyInt 100, PyInt 50, PyInt 50); object_id := IdReturns 1 |}] in
  let r := {| rect := Some (PyInt 0, PyInt 0, PyInt (2 ^ 1025), PyInt 10); object_id := IdReturns 2 |} in
  (has_id r = true ->
     process_frame d (pre ++ r :: []) = (Raise OverflowError, d)) /\
  (has_id r = false ->
     process_frame d (pre ++ r :: []) = process_frame d (pre ++ [])) /\
  float_of_int (2 ^ 1024) = Raise OverflowError /\
  fits_float (2 ^ 1024 - 2 ^ 971) = true.
Proof.
  cbn zeta.
  apply (oversized_rectangle_overflows _ _ [] _ 0 0 (2 ^ 1025) 10).
  - repeat constructor; do 4 eexists; (split; [reflexivity|]);
      repeat split; reflexivity.
  - reflexivity.
  - right; right; left. rewrite Z.abs_eq by (apply Z.pow_nonneg; lia). lia.
Defined.

(** ** The grid axis in integers *)

(** X16.  For a rectangle with position and size between 0 and 640 the
    float computation of one axis equals min(300, 15 (2 pos + size) div
    64) in integers; it is non-decreasing in the position and in the
    size; and it yields 300 exactly when the centre lies on or beyond the
    far edge of the frame. *)
Theorem grid_axis_in_integers :
  (forall pos size : Z,
      0 <= pos <= 640 -> 0 <= size <= 640 ->
      grid_axis pos size 640 = Ok (Z.min 300 ((2 * pos + size) * 15 / 64))) /\
  (forall pos size pos' size' g g' : Z,
      0 <= pos <= pos' -> pos' <= 640 -> 0 <= size <= size' -> size' <= 640 ->
      grid_axis pos size 640 = Ok g -> grid_axis pos' size' 640 = Ok g' ->
      g <= g') /\
  (forall pos size g : Z,
      0 <= pos <= 640 -> 0 <= size <= 640 ->
      grid_axis pos size 640 = Ok g ->
      (g = 300 <-> 1280 <= 2 * pos + size)).
Proof.
  assert (Hformula : forall pos size : Z,
             0 <= pos <= 640 -> 0 <= size <= 640 ->
             grid_axis pos size 640 = Ok (Z.min 300 ((2 * pos + size) * 15 / 64))).
  { intros pos size Hpos Hsize.
    rewrite grid_axis_in_frame, spec_grid_axis_exact by assumption.
    replace ((2 * pos + size) * 300) with ((2 * pos + size) * 15 * 20) by lia.
    change 1280 with (64 * 20).
    rewrite Z.div_mul_cancel_r by lia.
    assert (0 <= (2 * pos + size) * 15 / 64) by (apply Z.div_pos; lia).
    rewrite Z.max_r by exact H. reflexivity. }
  split; [exact Hformula|]. split.
  - intros pos size pos' size' g g' Hpos Hpos' Hsize Hsize' Hg Hg'.
    rewrite Hformula in Hg by lia. rewrite Hformula in Hg' by lia.
    assert (Eg : g = Z.min 300 ((2 * pos + size) * 15 / 64)) by congruence.
    assert (Eg' : g' = Z.min 300 ((2 * pos' + size') * 15 / 64)) by congruence.
    subst g g'. clear Hg Hg'.
    assert ((2 * pos + size) * 15 / 64 <= (2 * pos' + size') * 15 / 64)
      by (apply Z.div_le_mono; lia).
    lia.
  - intros pos size g Hpos Hsize Hg.
    rewrite Hformula in Hg by assumption.
    assert (Eg : g = Z.min 300 ((2 * pos + size) * 15 / 64)) by congruence.
    subst g. clear Hg. split.
    + intros H300.
      destruct (Z.lt_ge_cases (2 * pos + size) 1280) as [Hlt|Hge]; [|exact Hge].
      assert ((2 * pos + size) * 15 / 64 < 300)
        by (apply Z.div_lt_upper_bound; lia).
      lia.
    + intros Hge.
      assert (300 <= (2 * pos + size) * 15 / 64)
        by (apply Z.div_le_lower_bound; lia).
      lia.
Qed.

Lemma grid_axis_in_integers_witness :
  grid_axis 100 50 640 = Ok (Z.min 300 ((2 * 100 + 50) * 15 / 64)) /\
  58 <= 150 /\
  (300 = 300 <-> 1280 <= 2 * 640 + 0).
Proof.
  split; [|split].
  - apply (proj1 grid_axis_in_integers); lia.
  - apply (proj1 (proj2 grid_axis_in_integers) 100 50 295 50); try lia;
      vm_compute; reflexivity.
  - apply (proj2 (proj2 grid_axis_in_integers) 640 0); try lia.
    vm_compute. reflexivity.
Defined.

(** ** The wire text *)

Lemma append_assoc (a b c : string) : ((a ++ b) ++ c = a ++ (b ++ c))%string.
Proof. induction a as [|ch a IH]; cbn; [reflexivity|now rewrite IH]. Qed.

Lemma uint_text_prefix (d d' : Decimal.uint) (s1 s2 : string) :
  delimited s1 -> delimited s2 ->
  (NilEmpty.string_of_uint d ++ s1 = NilEmpty.string_of_uint d' ++ s2)%string ->
  d = d' /\ s1 = s2.
Proof.
  intros (r1 & Hs1) (r2 & Hs2). revert d'.
  induction d as [|d IH|d IH|d IH|d IH|d IH|d IH|d IH|d IH|d IH|d IH];
    intros [|d'|d'|d'|d'|d'|d'|d'|d'|d'|d']; cbn; intros H;
    try (split; [reflexivity|exact H]);
    try (exfalso; destruct Hs1 as [-> | ->]; discriminate H);
    try (exfalso; destruct Hs2 as [-> | ->]; discriminate H);
    try discriminate H;
    (injection H as H; destruct (IH d' H) as [-> ->]; split; reflexivity).
Qed.

Lemma to_int_shape (z : Z) :
  exists d, d <> Decimal.Nil /\
            (Z.to_int z = Decimal.Pos d \/ Z.to_int z = Decimal.Neg d).
Proof.
  destruct z as [|p|p]; cbn.
  - exists (Decimal.D0 Decimal.Nil). split; [discriminate|left; reflexivity].
  - exists (Pos.to_uint p). split; [apply DecimalPos.Unsigned.to_uint_nonnil|left; reflexivity].
  - exists (Pos.to_uint p). split; [apply DecimalPos.Unsigned.to_uint_nonnil|right; reflexivity].
Qed.

Lemma uint_text_nonnil (d : Decimal.uint) :
  d <> Decimal.Nil -> NilZero.string_of_uint d = NilEmpty.string_of_uint d.
Proof. destruct d; [intros H; contradiction H; reflexivity|reflexivity..]. Qed.

Lemma uint_text_no_minus (d : Decimal.uint) (s1 s2 : string) :
  delimited s1 ->
  (NilEmpty.string_of_uint d ++ s1)%string <> String "-"%char s2.
Proof.
  intros (r1 & Hs1) H. destruct d; cbn in H; try discriminate H.
  destruct Hs1 as [-> | ->]; discriminate H.
Qed.

(** A number followed by a delimiter is read back unambiguously. *)
Lemma dumps_int_prefix (a b : Z) (s1 s2 : string) :
  delimited s1 -> delimited s2 ->
  (dumps_int a ++ s1 = dumps_int b ++ s2)%string ->
  a = b /\ s1 = s2.
Proof.
  intros Hs1 Hs2. unfold dumps_int, NilZero.string_of_int.
  destruct (to_int_shape a) as (da & Hda & Ha).
  destruct (to_int_shape b) as (db & Hdb & Hb).
  assert (Hinj : Z.to_int a = Z.to_int b -> a = b).
  { intros Heq. rewrite <- (DecimalZ.of_to a), <- (DecimalZ.of_to b), Heq. reflexivity. }
  destruct Ha as [Ha|Ha], Hb as [Hb|Hb]; rewrite Ha, Hb in *;
    rewrite !uint_text_nonnil by assumption; cbn [append]; intros H.
  - destruct (uint_text_prefix da db s1 s2 Hs1 Hs2 H) as [-> ->]. auto.
  - exfalso. exact (uint_text_no_minus da s1 _ Hs1 H).
  - exfalso. symmetry in H. exact (uint_text_no_minus db s2 _ Hs2 H).
  - injection H as H.
    destruct (uint_text_prefix da db s1 s2 Hs1 Hs2 H) as [-> ->]. auto.
Qed.

Lemma dquote_char :
  dquote = String (Ascii false true false false false true false false) EmptyString.
Proof. reflexivity. Qed.

(** Drops the characters two texts start with in common. *)
Ltac strip_common H := rewrite ?dquote_char in H; cbn [append] in H; repeat injection H as H.

Lemma detection_text (p : Z * Z) :
  dumps (detection p)
  = ("{" ++ dquote ++ "x" ++ dquote ++ ": " ++ dumps_int (fst p)
         ++ ", " ++ dquote ++ "y" ++ dquote ++ ": " ++ dumps_int (snd p) ++ "}")%string.
Proof.
  cbn [dumps detection map join fst snd]. unfold dumps_str.
  rewrite !append_assoc. reflexivity.
Qed.

Lemma detection_prefix (p p' : Z * Z) (s1 s2 : string) :
  (dumps (detection p) ++ s1 = dumps (detection p') ++ s2)%string ->
  p = p' /\ s1 = s2.
Proof.
  rewrite !detection_text, !append_assoc.
  intros H. strip_common H.
  apply dumps_int_prefix in H; [|rewrite ?dquote_char; eexists; left; reflexivity..].
  destruct H as [Hx H]. strip_common H.
  apply dumps_int_prefix in H; [|eexists; right; reflexivity..].
  destruct H as [Hy H]. strip_common H.
  destruct p, p'; cbn [fst snd] in *. subst. auto.
Qed.

Lemma detection_text_head (p : Z * Z) :
  exists rest, dumps (detection p) = String "{"%char rest.
Proof. rewrite detection_text. eexists. reflexivity. Qed.

Lemma points_text_closed (points points' : list (Z * Z)) (s1 s2 : string) :
  (points_text points ++ String "]"%char s1
   = points_text points' ++ String "]"%char s2)%string ->
  points = points'.
Proof.
  unfold points_text. revert points'.
  induction points as [|p points IH]; intros [|p' points'].
  - reflexivity.
  - cbn [map join]. destruct (detection_text_head p') as (r & Hr).
    destruct (map _ points'); rewrite Hr; cbn; discriminate.
  - cbn [map join]. destruct (detection_text_head p) as (r & Hr).
    destruct (map _ points); rewrite Hr; cbn; discriminate.
  - cbn [map]. intros H.
    assert (Hjoin : forall (e : string) (l : list string) (s : string),
               (join ", " (e :: l) ++ String "]"%char s
                = e ++ match l with
                       | [] => String "]"%char s
                       | _ => ", " ++ join ", " l ++ String "]"%char s
                       end)%string).
    { intros e [|e2 l] s; cbn [join]; [reflexivity|].
      rewrite !append_assoc. reflexivity. }
    rewrite !Hjoin in H. apply detection_prefix in H. destruct H as [-> H].
    f_equal.
    destruct points as [|q points], points' as [|q' points']; cbn [map] in H.
    + reflexivity.
    + discriminate H.
    + discriminate H.
    + strip_common H. apply IH. cbn [map]. exact H.
Qed.

Lemma batch_text (camera : Z) (points : list (Z * Z)) :
  dumps (detection_batch camera points)
  = ("{" ++ dquote ++ "camera_id" ++ dquote ++ ": " ++ dumps_int camera
         ++ ", " ++ dquote ++ "detections" ++ dquote ++ ": ["
         ++ points_text points ++ "]}")%string.
Proof.
  unfold points_text.
  cbn [dumps detection_batch map join fst snd]. unfold dumps_str.
  rewrite map_map, ?append_assoc. cbn [append]. rewrite ?append_assoc. reflexivity.
Qed.

(** X17.  The text [json.dumps] gives for a detection batch determines
    the batch: two batches with the same text have the same camera
    identifier and the same points in the same order.  No batch has the
    text of the heartbeat.  The decimal text of an integer reads back as
    that integer. *)
Theorem batch_text_is_unambiguous :
  (forall (camera camera' : Z) (points points' : list (Z * Z)),
      dumps (detection_batch camera points) = dumps (detection_batch camera' points') ->
      camera = camera' /\ points = points') /\
  (forall (camera : Z) (points : list (Z * Z)),
      dumps (detection_batch camera points) <> dumps heartbeat) /\
  (forall z : Z,
      option_map Z.of_int (NilZero.int_of_string (dumps_int z)) = Some z).
Proof.
  split; [|split].
  - intros camera camera' points points'. rewrite !batch_text.
    intros H. strip_common H.
    apply dumps_int_prefix in H; [|rewrite ?dquote_char; eexists; left; reflexivity..].
    destruct H as [-> H]. split; [reflexivity|].
    strip_common H.
    exact (points_text_closed _ _ _ _ H).
  - intros camera points. rewrite batch_text. cbn. discriminate.
  - intros z. unfold dumps_int.
    destruct (to_int_shape z) as (d & Hd & Hz).
    rewrite NilZero.isi.
    + cbn. rewrite DecimalZ.of_to. reflexivity.
    + destruct Hz as [->| ->]; congruence.
    + destruct Hz as [->| ->]; congruence.
Qed.

Lemma batch_text_is_unambiguous_witness :
  7 = 7 /\ [(58, 58); (0, 300)] = [(58, 58); (0, 300)].
Proof.
  apply (proj1 batch_text_is_unambiguous). reflexivity.
Defined.
